(** * CIT actor scheduler: a shallow embedding of [src/scheduler.js]

    The development follows the source file top to bottom: the
    availability helpers, the default week plan, and then
    [generateSchedule] with its inner functions ([freshState],
    [applyAssign], [undoAssign], [getEligible], [rankCandidates],
    [backtrack], [explainElim]) and the two module-level helpers it calls
    ([candidateCount], [hasConflict]).

    Conventions of the embedding.
    - A JS object used as a dictionary is a [gmap]; a key that is absent
      stands for a property that reads as [undefined].  For the numeric
      tallies ([usageCount], [pmCount], [eligibleCount]) an absent key also
      stands for [NaN]: the source only ever applies [-], [/], [>], [++]
      and [--] to them, and those treat [undefined] and [NaN] alike.
    - The week key [`week${wi}`] is represented by the index [wi] itself.
    - The two constant arrays [SLOT_KEYS] and [SHIFTS] are enumerations.
    - Calls into the JS runtime ([Date], [Number], IEEE division,
      [Math.round]) are collected in the class [Host]; every statement
      below holds for any host.

    The first part holds the definitions: the model (module [Scheduler]),
    a concrete host with sample inputs, and the vocabulary of the
    statements (module [Spec] and the predicates around it).  The second
    part holds the lemmas and the theorems, and closes with the theorems
    applied to the sample inputs.  A last part, "Further properties",
    covers the rest of the scheduler and the code around it. *)

From stdpp Require Import gmap strings list fin_maps functions pretty sorting.
From Stdlib Require Import QArith Qround.

Close Scope Q_scope.
Local Open Scope string_scope.

(** ** Constants *)

Inductive SlotKey := slot1 | slot2 | slot3.
Inductive Shift := AM | PM.

Definition SLOT_KEYS : list SlotKey := [slot1; slot2; slot3].
Definition SHIFTS : list Shift := [AM; PM].

#[global] Instance SlotKey_eq_dec : EqDecision SlotKey.
Proof. solve_decision. Defined.
#[global] Instance Shift_eq_dec : EqDecision Shift.
Proof. solve_decision. Defined.

Definition slotKeyName (sk : SlotKey) : string :=
  match sk with slot1 => "slot1" | slot2 => "slot2" | slot3 => "slot3" end.

Definition shiftName (sh : Shift) : string :=
  match sh with AM => "AM" | PM => "PM" end.

Definition DAYS_SHORT : list string :=
  ["Sun"; "Mon"; "Tue"; "Wed"; "Thu"; "Fri"; "Sat"].

Definition DAYS_LONG : list string :=
  ["Sunday"; "Monday"; "Tuesday"; "Wednesday"; "Thursday"; "Friday"; "Saturday"].

(** ** Availability helpers *)

(** The values an availability cell can hold once parsed from JSON, plus
    [undefined] for a missing property. *)
Inductive AvailValue :=
| AvBool (b : bool)
| AvStr (s : string)
| AvNum (z : Z)
| AvNull
| AvUndefined.

(** The return type of [normalizeAvail]: ["both" | "am" | "pm" | false]. *)
Inductive Norm := NBoth | NAm | NPm | NFalse.

#[global] Instance Norm_eq_dec : EqDecision Norm.
Proof. solve_decision. Defined.

(** [val === true] and [val === s] for a string literal [s]. *)
Definition isTrue (val : AvailValue) : bool :=
  match val with AvBool true => true | _ => false end.

Definition isStr (val : AvailValue) (s : string) : bool :=
  match val with AvStr t => String.eqb t s | _ => false end.

Definition normalizeAvail (val : AvailValue) : Norm :=
  if isTrue val || isStr val "both" then NBoth
  else if isStr val "am" then NAm
  else if isStr val "pm" then NPm
  else NFalse.

Definition isAvailableForShift (availValue : AvailValue) (shift : Shift) : bool :=
  match normalizeAvail availValue with
  | NFalse => false
  | NBoth => true
  | NAm => bool_decide (shift = AM)
  | NPm => bool_decide (shift = PM)
  end.

(** The normalized value that names exactly one shift. *)
Definition normOfShift (shift : Shift) : Norm :=
  match shift with AM => NAm | PM => NPm end.

(** ** The JS runtime *)

Class Host := {
  (** [new Date(y, m - 1, d).getDay()] for [[y, m, d] =
      date.split('-').map(Number)]; [None] when the result is [NaN]. *)
  getDay : string → option nat;
  (** The text [`${m}/${d}`] for the same [m] and [d]. *)
  monthSlashDay : string → string;
  (** [pm / usage >= r] in double arithmetic. *)
  ratioAtLeast : Z → Z → Q → bool;
  (** [Math.round(r * 100)]. *)
  roundPercent : Q → Z;
}.

(** ** Inputs *)

Record WeekDay := { wd_date : string; dayName : string; dow : Z }.

(** A week plan maps each slot key to a date string or [null]. *)
Abbreviation WeekPlan := (SlotKey → option string).

Record ActorConstraint := {
  allowedDays : option (list string);
  maxPMRatio : option Q;
  preferAM : bool;
}.

Record ConflictRule := {
  scope : string;
  actor_cannot_play : list string;
}.

Record Config := {
  actors : list string;
  scenarioActors : gmap string (list string);
  slotScenarios : SlotKey → list string;
  conflicts : list ConflictRule;
  defaultDays : SlotKey → string;
  actorConstraints : gmap string ActorConstraint;
}.

(** [getDefaultWeekPlan]: for each slot key, the date of the first week
    day whose name is the configured default day, or [null]. *)
Definition getDefaultWeekPlan (weekDays : list WeekDay) (config : Config) : WeekPlan :=
  λ slotKey,
    let targetDay := defaultDays config slotKey in
    match List.find (λ wd, String.eqb (dayName wd) targetDay) weekDays with
    | Some m => Some (wd_date m)
    | None => None
    end.

(** ** Slots, schedule tree and search state *)

(** One entry of [allSlots]; [wi] also stands for [weekKey]. *)
Record Slot := {
  wi : nat;
  slotKey : SlotKey;
  shift : Shift;
  scenario : string;
  date : string;
}.

(** [{ date, AM: {...}, PM: {...} }]; a cell holds an actor or [null]. *)
Record DayRec := {
  dr_date : string;
  dr_AM : gmap string (option string);
  dr_PM : gmap string (option string);
}.

(** [schedule[weekKey]]: each slot key holds a day record or [null]. *)
Abbreviation WeekSched := (SlotKey → option DayRec).

Definition shiftCells (d : DayRec) (sh : Shift) : gmap string (option string) :=
  match sh with AM => dr_AM d | PM => dr_PM d end.

Definition setShiftCells (d : DayRec) (sh : Shift)
    (m : gmap string (option string)) : DayRec :=
  match sh with
  | AM => {| dr_date := dr_date d; dr_AM := m; dr_PM := dr_PM d |}
  | PM => {| dr_date := dr_date d; dr_AM := dr_AM d; dr_PM := m |}
  end.

(** [schedule[weekKey][slotKey][shift][scenario]]: [None] when the path
    does not exist, [Some None] for [null], [Some (Some a)] for actor [a]. *)
Definition cellOf (sched : gmap nat WeekSched)
    (w : nat) (sk : SlotKey) (sh : Shift) (sc : string) : option (option string) :=
  ws ← sched !! w; d ← ws sk; shiftCells d sh !! sc.

(** [schedule[weekKey][slotKey][shift][scenario] = v].  The week and day
    objects exist for every slot the enumerator emits. *)
Definition setCell (sched : gmap nat WeekSched)
    (w : nat) (sk : SlotKey) (sh : Shift) (sc : string) (v : option string)
    : gmap nat WeekSched :=
  alter (λ ws : WeekSched,
           <[sk := (λ d, setShiftCells d sh (<[sc := v]> (shiftCells d sh))) <$> ws sk]> ws)
        w sched.

(** [wa[weekKey] = { AM: {}, PM: {} }], each shift mapping an actor to the
    [Set] of scenarios held; the set is kept in insertion order. *)
Record WeekAssign := {
  wa_AM : gmap string (list string);
  wa_PM : gmap string (list string);
}.

Definition emptyWeekAssign : WeekAssign := {| wa_AM := ∅; wa_PM := ∅ |}.

Definition shiftMap (w : WeekAssign) (sh : Shift) : gmap string (list string) :=
  match sh with AM => wa_AM w | PM => wa_PM w end.

Definition setShiftMap (w : WeekAssign) (sh : Shift)
    (m : gmap string (list string)) : WeekAssign :=
  match sh with
  | AM => {| wa_AM := m; wa_PM := wa_PM w |}
  | PM => {| wa_AM := wa_AM w; wa_PM := m |}
  end.

(** [Set.prototype.add], [delete] and [has]. *)
Definition setAdd (x : string) (s : list string) : list string :=
  if bool_decide (x ∈ s) then s else s ++ [x].

Definition setDelete (x : string) (s : list string) : list string :=
  List.filter (λ y, negb (String.eqb y x)) s.

Definition setHas (x : string) (s : list string) : bool := bool_decide (x ∈ s).

Record State := {
  schedule : gmap nat WeekSched;
  wa : gmap nat WeekAssign;
  usageCount : gmap string Z;
  pmCount : gmap string Z;
  backtrackCount : Z;
}.

(** One record of [errors]. *)
Record Diagnostic := {
  d_slot : string;
  d_scenario : string;
  d_shift : Shift;
  d_date : string;
  d_weekKey : nat;
  d_slotKey : SlotKey;
  approvedActors : list string;
  eliminations : list (string * string);
  suggestion : string;
}.

Record Result := {
  r_schedule : gmap nat WeekSched;
  r_errors : list Diagnostic;
}.

(** ** Sorting

    [Array.prototype.sort] is stable; a comparator result that is negative
    puts the first argument first, a positive one the second, and zero or
    [NaN] keeps the two in their current order.  The comparators below
    return [option Z] with [None] for [NaN].  For a comparator that is a
    consistent ordering, which the two comparators of the source are on
    actors with numeric tallies, the stable sorted order is unique and
    [jsSort] computes it by insertion; for any comparator the result is a
    permutation of the input, as in every engine. *)

Definition sortValue (v : option Z) : Z := default 0%Z v.

Fixpoint insertBy {A} (cmp : A → A → option Z) (x : A) (l : list A) : list A :=
  match l with
  | [] => [x]
  | y :: l' =>
      if (sortValue (cmp x y) <=? 0)%Z then x :: y :: l'
      else y :: insertBy cmp x l'
  end.

Definition jsSort {A} (cmp : A → A → option Z) (l : list A) : list A :=
  foldr (insertBy cmp) [] l.

(** JS number subtraction on tallies; [None] is [undefined] or [NaN]. *)
Definition numSub (a b : option Z) : option Z :=
  match a, b with
  | Some x, Some y => Some (x - y)%Z
  | _, _ => None
  end.

(** [v !== 0]. *)
Definition notZero (v : option Z) : bool :=
  match v with Some z => negb (z =? 0)%Z | None => true end.

(** [[slots[i], slots[j]] = [slots[j], slots[i]]]. *)
Definition swap {A} (l : list A) (i j : nat) : list A :=
  match l !! i, l !! j with
  | Some x, Some y => <[j := x]> (<[i := y]> l)
  | _, _ => l
  end.

(** [!date]: [null], [undefined] and the empty string are falsy. *)
Definition activeDate (d : option string) : option string :=
  match d with
  | Some s => if String.eqb s "" then None else Some s
  | None => None
  end.

(** [candidateCount]: approved and available for the shift. *)
Definition candidateCount (scenario : string) (dayAvail : gmap string AvailValue)
    (scenarioActors : gmap string (list string)) (shift : Shift) : Z :=
  match scenarioActors !! scenario with
  | None => 0%Z
  | Some approved =>
      Z.of_nat (length (List.filter
        (λ actor, isAvailableForShift (default AvUndefined (dayAvail !! actor)) shift)
        approved))
  end.

(** [hasConflict]. *)
Definition hasConflict (actor scenario : string) (shift : Shift)
    (weekAssignments : WeekAssign) (conflicts : list ConflictRule) : bool :=
  match conflicts with
  | [] => false
  | _ =>
      match shiftMap weekAssignments shift !! actor with
      | None => false
      | Some actorScenarios =>
          if (length actorScenarios =? 0)%nat then false
          else
            existsb (λ rule,
              String.eqb (scope rule) "same_shift" &&
              let pair := actor_cannot_play rule in
              (2 <=? length pair)%nat &&
              bool_decide (scenario ∈ pair) &&
              existsb (λ otherScenario,
                         negb (String.eqb otherScenario scenario) &&
                         setHas otherScenario actorScenarios) pair)
              conflicts
      end
  end.

(** ** Schedule generation

    The section variables are the four arguments of [generateSchedule];
    the definitions inside are its local variables and inner functions,
    which close over them. *)

Module Scheduler.
Section GenerateSchedule.
Context `{!Host}.
Variable weeks : list (list WeekDay).
Variable weekPlans : gmap nat WeekPlan.
Variable availability : gmap string (gmap string AvailValue).
Variable config : Config.

(** [DAYS_LONG[new Date(y, m - 1, d).getDay()]]. *)
Definition weekdayName (dateStr : string) : option string :=
  getDay dateStr ≫= (DAYS_LONG !!.).

(** [fmtDateShort]: ["2026-03-10"] becomes ["Tue 3/10"]. *)
Definition fmtDateShort (dateStr : string) : string :=
  default "undefined" (getDay dateStr ≫= (DAYS_SHORT !!.))
    ++ " " ++ monthSlashDay dateStr.

(** [weekPlans[weekKey] || getDefaultWeekPlan(weeks[wi], config)]. *)
Definition planFor (wi : nat) (week : list WeekDay) : WeekPlan :=
  default (getDefaultWeekPlan week config) (weekPlans !! wi).

(** [availability[date] || {}] and [dayAvail[actor]]. *)
Definition dayAvailOf (date : string) : gmap string AvailValue :=
  default ∅ (availability !! date).

Definition availOf (dayAvail : gmap string AvailValue) (actor : string) : AvailValue :=
  default AvUndefined (dayAvail !! actor).

(** [scenarioActors[scenario] || []]. *)
Definition approvedFor (scenario : string) : list string :=
  default [] (scenarioActors config !! scenario).

(** [ac?.allowedDays?.length > 0 && !ac.allowedDays.includes(<weekday>)]
    for [ac = config.actorConstraints?.[actor]]. *)
Definition dayNotAllowed (ac : option ActorConstraint) (date : string) : bool :=
  match ac ≫= allowedDays with
  | Some days =>
      (0 <? length days)%nat &&
      negb (match weekdayName date with
            | Some d => bool_decide (d ∈ days)
            | None => false
            end)
  | None => false
  end.

(** [state.usageCount[actor] > 0 &&
     state.pmCount[actor] / state.usageCount[actor] >= r]. *)
Definition pmRatioReached (state : State) (actor : string) (r : Q) : bool :=
  match usageCount state !! actor, pmCount state !! actor with
  | Some u, Some p => (0 <? u)%Z && ratioAtLeast p u r
  | _, _ => false
  end.

(** [shift === 'PM' && ac?.maxPMRatio != null] and then either
    [ac.maxPMRatio === 0] or the ratio test. *)
Definition pmCapBlocks (ac : option ActorConstraint) (shift : Shift)
    (state : State) (actor : string) : bool :=
  match shift, ac ≫= maxPMRatio with
  | PM, Some r => Qeq_bool r 0%Q || pmRatioReached state actor r
  | _, _ => false
  end.

(** *** Eligible count for fairness tie-breaking *)

Definition zeroTally : gmap string Z :=
  list_to_map ((λ a, (a, 0%Z)) <$> actors config).

(** The actors that reach [eligibleCount[actor]++], in loop order. *)
Definition opportunitiesOfDay (esk : SlotKey) (edate : string) : list string :=
  let eda := dayAvailOf edate in
  eshift ← SHIFTS;
  escenario ← slotScenarios config esk;
  List.filter
    (λ actor,
       isAvailableForShift (availOf eda actor) eshift &&
       negb (dayNotAllowed (actorConstraints config !! actor) edate))
    (approvedFor escenario).

Definition opportunitiesOfWeek (ewi : nat) (week : list WeekDay) : list string :=
  let ewp := planFor ewi week in
  esk ← SLOT_KEYS;
  match activeDate (ewp esk) with
  | None => []
  | Some edate => opportunitiesOfDay esk edate
  end.

Definition eligibleCount : gmap string Z :=
  foldl (λ m actor, alter Z.succ actor m) zeroTally
        (concat (imap opportunitiesOfWeek weeks)).

(** *** Slot list and schedule skeleton *)

Definition slotsOfDay (wi : nat) (slotKey : SlotKey) (date : string) : list Slot :=
  shift ← SHIFTS;
  scenario ← slotScenarios config slotKey;
  [ {| wi := wi; slotKey := slotKey; shift := shift;
       scenario := scenario; date := date |} ].

Definition slotsOfWeek (wi : nat) (week : list WeekDay) : list Slot :=
  let wp := planFor wi week in
  slotKey ← SLOT_KEYS;
  match activeDate (wp slotKey) with
  | None => []
  | Some date => slotsOfDay wi slotKey date
  end.

Definition allSlots : list Slot := concat (imap slotsOfWeek weeks).

Definition nullCells (scenarios : list string) : gmap string (option string) :=
  list_to_map ((λ sc, (sc, None)) <$> scenarios).

Definition weekSkeleton (wi : nat) (week : list WeekDay) : WeekSched :=
  λ slotKey,
    match activeDate (planFor wi week slotKey) with
    | None => None
    | Some date =>
        Some {| dr_date := date;
                dr_AM := nullCells (slotScenarios config slotKey);
                dr_PM := nullCells (slotScenarios config slotKey) |}
    end.

Definition skeleton : gmap nat WeekSched :=
  map_seq 0 (imap weekSkeleton weeks).

(** *** State management *)

(** [freshState] copies the skeleton level by level; the copy holds the
    same weeks, days and [null] cells. *)
Definition freshState : State :=
  {| schedule := skeleton;
     wa := ∅;
     usageCount := zeroTally;
     pmCount := zeroTally;
     backtrackCount := 0%Z |}.

Definition weekAssignOf (state : State) (weekKey : nat) : WeekAssign :=
  default emptyWeekAssign (wa state !! weekKey).

Definition applyAssign (state : State) (slot : Slot) (actor : string) : State :=
  let w := weekAssignOf state (wi slot) in
  let m := shiftMap w (shift slot) in
  {| schedule := setCell (schedule state) (wi slot) (slotKey slot) (shift slot)
                         (scenario slot) (Some actor);
     wa := <[wi slot :=
               setShiftMap w (shift slot)
                 (<[actor := setAdd (scenario slot) (default [] (m !! actor))]> m)]>
             (wa state);
     usageCount := alter Z.succ actor (usageCount state);
     pmCount := match shift slot with
                | PM => alter Z.succ actor (pmCount state)
                | AM => pmCount state
                end;
     backtrackCount := backtrackCount state |}.

Definition undoAssign (state : State) (slot : Slot) (actor : string) : State :=
  {| schedule := setCell (schedule state) (wi slot) (slotKey slot) (shift slot)
                         (scenario slot) None;
     wa := alter (λ w,
               let m := shiftMap w (shift slot) in
               let s := setDelete (scenario slot) (default [] (m !! actor)) in
               setShiftMap w (shift slot)
                 (if (length s =? 0)%nat then delete actor m else <[actor := s]> m))
             (wi slot) (wa state);
     usageCount := alter Z.pred actor (usageCount state);
     pmCount := match shift slot with
                | PM => alter Z.pred actor (pmCount state)
                | AM => pmCount state
                end;
     backtrackCount := backtrackCount state |}.

(** *** Constraint-aware candidate filter *)

(** [w[shift][actor]?.size > 0]. *)
Definition alreadyUsed (w : WeekAssign) (shift : Shift) (actor : string) : bool :=
  match shiftMap w shift !! actor with
  | Some s => (0 <? length s)%nat
  | None => false
  end.

(** The callback of [approved.filter] in [getEligible]. *)
Definition eligibleActor (slot : Slot) (state : State) (relaxLevel : nat)
    (actor : string) : bool :=
  let dayAvail := dayAvailOf (date slot) in
  let w := weekAssignOf state (wi slot) in
  if negb (isAvailableForShift (availOf dayAvail actor) (shift slot)) then false
  else if alreadyUsed w (shift slot) actor then false
  else
    let ac := actorConstraints config !! actor in
    if (relaxLevel <? 3)%nat &&
       hasConflict actor (scenario slot) (shift slot) w (conflicts config) then false
    else if (relaxLevel <? 2)%nat && dayNotAllowed ac (date slot) then false
    else if (relaxLevel <? 1)%nat && pmCapBlocks ac (shift slot) state actor then false
    else true.

Definition getEligible (slot : Slot) (state : State) (relaxLevel : nat) : list string :=
  List.filter (eligibleActor slot state relaxLevel) (approvedFor (scenario slot)).

(** [config.actorConstraints?.[a]?.preferAM ? 1 : 0]. *)
Definition prefersAM (a : string) : Z :=
  match actorConstraints config !! a with
  | Some ac => if preferAM ac then 1%Z else 0%Z
  | None => 0%Z
  end.

(** The comparator of [rankCandidates]. *)
Definition compareCandidates (shift : Shift) (state : State) (a b : string) : option Z :=
  let ud := numSub (usageCount state !! a) (usageCount state !! b) in
  if notZero ud then ud
  else
    let pa := prefersAM a in
    let pb := prefersAM b in
    if bool_decide (shift = PM) && negb (pa =? pb)%Z then Some (pa - pb)%Z
    else numSub (eligibleCount !! a) (eligibleCount !! b).

Definition rankCandidates (candidates : list string) (shift : Shift) (state : State)
    : list string :=
  jsSort (compareCandidates shift state) candidates.

(** *** Backtracking search with MRV and forward checking

    [backtrack(slots, idx, state, relaxLevel)] only reads and writes
    [slots[i]] for [i >= idx].  The embedding passes [rest], the part of
    the array from [idx] on, and [n = slots.length - idx], on which the
    recursion descends; it returns the outcome, the state and [rest] as
    the call leaves them. *)

(** The scan [for (let i = idx; ...)] that finds the slot with the
    fewest eligible candidates; positions are counted from [idx], and
    [None] is [Infinity]. *)
Fixpoint mrvLoop (state : State) (relaxLevel : nat) (i : nat) (l : list Slot)
    (mrvIdx : nat) (mrvCount : option nat) : nat :=
  match l with
  | [] => mrvIdx
  | s :: l' =>
      let cnt := length (getEligible s state relaxLevel) in
      if match mrvCount with None => true | Some c => (cnt <? c)%nat end
      then mrvLoop state relaxLevel (S i) l' i (Some cnt)
      else mrvLoop state relaxLevel (S i) l' mrvIdx mrvCount
  end.

Definition mrvScan (rest : list Slot) (state : State) (relaxLevel : nat) : nat :=
  mrvLoop state relaxLevel 0 rest 0 None.

(** The forward check: no remaining slot is left without candidates. *)
Definition forwardOk (remaining : list Slot) (state : State) (relaxLevel : nat) : bool :=
  forallb (λ s, negb (length (getEligible s state relaxLevel) =? 0)%nat) remaining.

(** The loop [for (const actor of candidates)]; [rec] is the recursive
    call [backtrack(slots, idx + 1, state, relaxLevel)]. *)
Fixpoint tryCandidates (rec : list Slot → State → bool * State * list Slot)
    (slot : Slot) (relaxLevel : nat) (candidates : list string)
    (state : State) (remaining : list Slot) : bool * State * list Slot :=
  match candidates with
  | [] => (false, state, remaining)
  | actor :: more =>
      let st1 := applyAssign state slot actor in
      if forwardOk remaining st1 relaxLevel then
        let '(ok, st2, remaining2) := rec remaining st1 in
        if ok then (true, st2, remaining2)
        else tryCandidates rec slot relaxLevel more
               (undoAssign st2 slot actor) remaining2
      else tryCandidates rec slot relaxLevel more
             (undoAssign st1 slot actor) remaining
  end.

Definition bumpCount (state : State) : State :=
  {| schedule := schedule state; wa := wa state;
     usageCount := usageCount state; pmCount := pmCount state;
     backtrackCount := (backtrackCount state + 1)%Z |}.

Fixpoint backtrack (n : nat) (rest : list Slot) (state : State) (relaxLevel : nat)
    : bool * State * list Slot :=
  match n with
  | O => (true, state, rest)
  | S n' =>
      let state := bumpCount state in
      if (50000 <? backtrackCount state)%Z then (false, state, rest)
      else
        let mrvIdx := mrvScan rest state relaxLevel in
        match swap rest 0 mrvIdx with
        | [] => (false, state, rest)
        | slot :: remaining =>
            let candidates :=
              rankCandidates (getEligible slot state relaxLevel) (shift slot) state in
            match candidates with
            | [] => (false, state, swap (slot :: remaining) 0 mrvIdx)
            | _ =>
                let '(ok, st', remaining') :=
                  tryCandidates (λ r s, backtrack n' r s relaxLevel)
                    slot relaxLevel candidates state remaining in
                if ok then (true, st', slot :: remaining')
                else (false, st', swap (slot :: remaining') 0 mrvIdx)
            end
        end
  end.

(** One pass of the loop over relaxation levels. *)
Definition attempt (relaxLevel : nat) : bool * State * list Slot :=
  backtrack (length allSlots) allSlots freshState relaxLevel.

Fixpoint relaxLoop (levels : list nat) : option State :=
  match levels with
  | [] => None
  | relaxLevel :: more =>
      let '(ok, state, _) := attempt relaxLevel in
      if ok then Some state else relaxLoop more
  end.

(** *** Greedy fallback and diagnostics *)

Definition explainElim (actor : string) (slot : Slot) (state : State) : option string :=
  let dayAvail := dayAvailOf (date slot) in
  let w := weekAssignOf state (wi slot) in
  let ac := actorConstraints config !! actor in
  if negb (isAvailableForShift (availOf dayAvail actor) (shift slot)) then
    match normalizeAvail (availOf dayAvail actor) with
    | NFalse => Some ("Not marked available on " ++ fmtDateShort (date slot))
    | NAm => Some ("Only available AM on " ++ fmtDateShort (date slot))
    | _ => Some ("Only available PM on " ++ fmtDateShort (date slot))
    end
  else if alreadyUsed w (shift slot) actor then
    Some ("Already used in " ++ shiftName (shift slot) ++ " (" ++
          String.concat ", " (default [] (shiftMap w (shift slot) !! actor)) ++ ")")
  else if dayNotAllowed ac (date slot) then
    Some ("Only available on " ++
          String.concat "/" (default [] (ac ≫= allowedDays)) ++
          " (this is " ++ default "undefined" (weekdayName (date slot)) ++ ")")
  else
    match shift slot, ac ≫= maxPMRatio with
    | PM, Some r =>
        if Qeq_bool r 0%Q then Some "PM not permitted"
        else if pmRatioReached state actor r then
          Some ("PM cap reached (" ++ pretty (roundPercent r) ++ "% max)")
        else if hasConflict actor (scenario slot) (shift slot) w (conflicts config)
        then Some "Conflict rule with already-assigned scenario"
        else None
    | _, _ =>
        if hasConflict actor (scenario slot) (shift slot) w (conflicts config)
        then Some "Conflict rule with already-assigned scenario"
        else None
    end.

(** [approved.flatMap(actor => { const r = ...; return r ? [...] : [] })];
    the empty string is falsy. *)
Definition eliminationsFor (approved : list string) (slot : Slot) (state : State)
    : list (string * string) :=
  actor ← approved;
  match explainElim actor slot state with
  | Some r => if String.eqb r "" then [] else [(actor, r)]
  | None => []
  end.

Definition plural (n : Z) : string := if (n =? 1)%Z then "" else "s".

Definition suggestionFor (approved : list string) (filledCount : Z)
    (scenario : string) : string :=
  if (filledCount =? 0)%Z then
    "All " ++ pretty (length approved) ++ " approved actor" ++
    plural (Z.of_nat (length approved)) ++
    " blocked. Approve more actors for " ++ scenario ++ " or adjust availability."
  else
    pretty filledCount ++ " actor" ++ plural filledCount ++
    " eligible but already placed this shift. Approve more actors for " ++
    scenario ++ "."%string.

Definition diagnosticFor (slot : Slot) (state : State) : Diagnostic :=
  let approved := approvedFor (scenario slot) in
  let eliminations := eliminationsFor approved slot state in
  let filledCount := (Z.of_nat (length approved) - Z.of_nat (length eliminations))%Z in
  {| d_slot := "Wk" ++ pretty (wi slot + 1)%nat ++ " " ++
               fmtDateShort (date slot) ++ " " ++ shiftName (shift slot);
     d_scenario := scenario slot;
     d_shift := shift slot;
     d_date := date slot;
     d_weekKey := wi slot;
     d_slotKey := slotKey slot;
     approvedActors := approved;
     eliminations := eliminations;
     suggestion := suggestionFor approved filledCount (scenario slot) |}.

(** The body of [for (const scenario of scenarioOrder)]. *)
Definition fallbackStep (acc : State * list Diagnostic) (slot : Slot)
    : State * list Diagnostic :=
  let '(fbState, errors) := acc in
  let candidates :=
    rankCandidates (getEligible slot fbState 0) (shift slot) fbState in
  match candidates with
  | [] => (fbState, (errors ++ [diagnosticFor slot fbState])%list)
  | first :: _ => (applyAssign fbState slot first, errors)
  end.

Definition scenarioOrder (slotKey : SlotKey) (dayAvail : gmap string AvailValue)
    (shift : Shift) : list string :=
  jsSort (λ a b, Some (candidateCount a dayAvail (scenarioActors config) shift -
                       candidateCount b dayAvail (scenarioActors config) shift)%Z)
         (slotScenarios config slotKey).

Definition fallbackShift (wi : nat) (slotKey : SlotKey) (date : string)
    (acc : State * list Diagnostic) (shift : Shift) : State * list Diagnostic :=
  foldl (λ acc scenario,
           fallbackStep acc {| wi := wi; slotKey := slotKey; shift := shift;
                               scenario := scenario; date := date |})
        acc (scenarioOrder slotKey (dayAvailOf date) shift).

Definition fallbackDay (wi : nat) (wp : WeekPlan)
    (acc : State * list Diagnostic) (slotKey : SlotKey) : State * list Diagnostic :=
  match activeDate (wp slotKey) with
  | None => acc
  | Some date => foldl (fallbackShift wi slotKey date) acc SHIFTS
  end.

Definition fallbackWeek (acc : State * list Diagnostic) (w : nat * list WeekDay)
    : State * list Diagnostic :=
  foldl (fallbackDay w.1 (planFor w.1 w.2)) acc SLOT_KEYS.

Definition fallback : State * list Diagnostic :=
  foldl fallbackWeek (freshState, []) (imap pair weeks).

Definition generateSchedule : Result :=
  match relaxLoop [0; 1; 2; 3]%nat with
  | Some state => {| r_schedule := schedule state; r_errors := [] |}
  | None => {| r_schedule := schedule fallback.1; r_errors := fallback.2 |}
  end.
End GenerateSchedule.
End Scheduler.
Import Scheduler.

(** ** A concrete host and sample inputs

    [isoHost] implements the runtime calls for dates written
    [YYYY-MM-DD] with a four-digit year, a month from 01 to 12 and a day
    of that month, with exact rational arithmetic for the ratio test. *)

Definition digitValue (c : Ascii.ascii) : option nat :=
  let n := Ascii.nat_of_ascii c in
  if bool_decide (48 ≤ n ≤ 57)%nat then Some (n - 48)%nat else None.

Fixpoint digitsValue (acc : nat) (s : string) : option nat :=
  match s with
  | EmptyString => Some acc
  | String c s' => d ← digitValue c; digitsValue (10 * acc + d)%nat s'
  end.

(** [Number(s)] for a non-empty string of decimal digits. *)
Definition numberOf (s : string) : option nat :=
  match s with EmptyString => None | _ => digitsValue 0 s end.

(** Split at the first two dashes, as [date.split('-')] does for a string
    with exactly two of them. *)
Fixpoint splitDash (cur : string) (s : string) : list string :=
  match s with
  | EmptyString => [cur]
  | String c s' =>
      if String.eqb (String c "") "-" then cur :: splitDash "" s'
      else splitDash (cur ++ String c "") s'
  end.

Definition parseYMD (s : string) : option (nat * nat * nat) :=
  match splitDash "" s with
  | [sy; sm; sd] =>
      y ← numberOf sy; m ← numberOf sm; d ← numberOf sd;
      if bool_decide (1000 ≤ y ∧ 1 ≤ m ≤ 12 ∧ 1 ≤ d ≤ 31)%nat
      then Some (y, m, d) else None
  | _ => None
  end.

(** Day of the week of a Gregorian date, 0 for Sunday. *)
Definition weekdayIndex (y m d : nat) : nat :=
  let t := [0; 3; 2; 5; 0; 3; 5; 1; 4; 6; 2; 4]%nat in
  let y' := (if m <? 3 then y - 1 else y)%nat in
  ((y' + y' / 4 - y' / 100 + y' / 400 + default 0 (t !! (m - 1)) + d) `mod` 7)%nat.

#[global] Instance isoHost : Host := {|
  getDay s := '(y, m, d) ← parseYMD s; Some (weekdayIndex y m d);
  monthSlashDay s :=
    match parseYMD s with
    | Some (_, m, d) => pretty m ++ "/" ++ pretty d
    | None => "NaN/NaN"
    end;
  ratioAtLeast p u r := Qle_bool r (Qmake p (Z.to_pos u));
  roundPercent r := Qfloor (Qplus (Qmult r (100 # 1)) (1 # 2));
|}.

(** A week of business days, 9 to 13 March 2026. *)
Definition marchWeek : list WeekDay :=
  [ {| wd_date := "2026-03-09"; dayName := "Monday"; dow := 1 |};
    {| wd_date := "2026-03-10"; dayName := "Tuesday"; dow := 2 |};
    {| wd_date := "2026-03-11"; dayName := "Wednesday"; dow := 3 |};
    {| wd_date := "2026-03-12"; dayName := "Thursday"; dow := 4 |};
    {| wd_date := "2026-03-13"; dayName := "Friday"; dow := 5 |} ].

Definition stdDays (sk : SlotKey) : string :=
  match sk with slot1 => "Tuesday" | slot2 => "Wednesday" | slot3 => "Thursday" end.

(** Only the first slot has scenarios. *)
Definition onSlot1 (l : list string) (sk : SlotKey) : list string :=
  match sk with slot1 => l | _ => [] end.

(** Everybody listed is available for both shifts on 10 March. *)
Definition availTuesday (people : list string) : gmap string (gmap string AvailValue) :=
  {[ "2026-03-10" := list_to_map ((λ a, (a, AvBool true)) <$> people) ]}.


#[global] Instance Slot_eq_dec : EqDecision Slot.
Proof. solve_decision. Defined.

(** One scenario with a single approved person whose evening ratio is 0. *)
Definition pmZero : ActorConstraint :=
  {| allowedDays := None; maxPMRatio := Some 0%Q; preferAM := false |}.

Definition cfgSolo : Config :=
  {| actors := ["P"];
     scenarioActors := {[ "X" := ["P"] ]};
     slotScenarios := onSlot1 ["X"];
     conflicts := [];
     defaultDays := stdDays;
     actorConstraints := {[ "P" := pmZero ]} |}.

(** The same with a second approved person free of constraints. *)
Definition cfgPair : Config :=
  {| actors := ["P"; "R"];
     scenarioActors := {[ "X" := ["P"; "R"] ]};
     slotScenarios := onSlot1 ["X"];
     conflicts := [];
     defaultDays := stdDays;
     actorConstraints := {[ "P" := pmZero ]} |}.

(** A scenario nobody is approved for. *)
Definition cfgNobody : Config :=
  {| actors := ["P"];
     scenarioActors := {[ "X" := [] ]};
     slotScenarios := onSlot1 ["X"];
     conflicts := [];
     defaultDays := stdDays;
     actorConstraints := ∅ |}.

(** The same scenario listed twice on the day slot. *)
Definition cfgRepeated : Config :=
  {| actors := ["P"];
     scenarioActors := {[ "X" := [] ]};
     slotScenarios := onSlot1 ["X"; "X"];
     conflicts := [];
     defaultDays := stdDays;
     actorConstraints := ∅ |}.

(** Two scenarios under a conflict rule, two people approved for both. *)
Definition cfgConflict : Config :=
  {| actors := ["P"; "R"];
     scenarioActors := {[ "X" := ["P"; "R"]; "Y" := ["P"; "R"] ]};
     slotScenarios := onSlot1 ["X"; "Y"];
     conflicts := [ {| scope := "same_shift"; actor_cannot_play := ["X"; "Y"] |} ];
     defaultDays := stdDays;
     actorConstraints := ∅ |}.

Definition slotX (sh : Shift) : Slot :=
  {| wi := 0; slotKey := slot1; shift := sh; scenario := "X"; date := "2026-03-10" |}.

(** A search state whose counter has reached the budget. *)
Definition spentState : State :=
  {| schedule := ∅; wa := ∅; usageCount := ∅; pmCount := ∅; backtrackCount := 50000%Z |}.

(** A state with usage tallies for three people. *)
Definition talliedState : State :=
  {| schedule := ∅; wa := ∅;
     usageCount := {[ "P" := 1%Z; "R" := 0%Z; "S" := 0%Z ]};
     pmCount := {[ "P" := 0%Z; "R" := 0%Z; "S" := 0%Z ]};
     backtrackCount := 0%Z |}.

Definition cfgTrio : Config :=
  {| actors := ["P"; "R"; "S"];
     scenarioActors := {[ "X" := ["P"; "R"; "S"] ]};
     slotScenarios := onSlot1 ["X"];
     conflicts := [];
     defaultDays := stdDays;
     actorConstraints := ∅ |}.

(** ** Vocabulary of the statements *)

(** The position [(week, day slot, shift, scenario)] a slot writes to. *)
Definition posOf (s : Slot) : nat * SlotKey * Shift * string :=
  (wi s, slotKey s, shift s, scenario s).

Definition diagPos (d : Diagnostic) : nat * SlotKey * Shift * string :=
  (d_weekKey d, d_slotKey d, d_shift d, d_scenario d).

(** The cell of a slot holds a person. *)
Definition Filled (sched : gmap nat WeekSched) (s : Slot) : Prop :=
  ∃ a, cellOf sched (wi s) (slotKey s) (shift s) (scenario s) = Some (Some a).

(** The number of diagnostics that name the position of a slot, and the
    number of slots of a list that share it. *)
Definition countDiag (errors : list Diagnostic) (s : Slot) : nat :=
  length (filter (λ d, diagPos d = posOf s) errors).

Definition countPos (slots : list Slot) (s : Slot) : nat :=
  length (filter (λ s', posOf s' = posOf s) slots).

(** [needle] occurs in [hay]. *)
Fixpoint containsText (needle hay : string) : bool :=
  String.prefix needle hay ||
  match hay with
  | EmptyString => false
  | String _ hay' => containsText needle hay'
  end.

(** The texts a diagnostic carries. *)
Definition diagTexts (d : Diagnostic) : list string :=
  d_slot d :: suggestion d :: (eliminations d).*2.

(** Some text of the diagnostic says that the scenario has no approved
    actors, with or without a capital. *)
Definition statesNoApproved (d : Diagnostic) (sc : string) : bool :=
  existsb (λ t, containsText ("no approved actors for " ++ sc) t ||
                containsText ("No approved actors for " ++ sc) t)
          (diagTexts d).

(** The day object [schedule[weekKey][slotKey]] exists. *)
Definition hasDay (sched : gmap nat WeekSched) (w : nat) (sk : SlotKey) : Prop :=
  is_Some (sched !! w ≫= (λ ws : WeekSched, ws sk)).

(** [wa[weekKey][shift][actor]] read as a list, empty when any level of
    the path is missing. *)
Definition usedSet (st : State) (w : nat) (sh : Shift) (a : string) : list string :=
  default [] (shiftMap (weekAssignOf st w) sh !! a).

(** Every filled cell satisfies [Q]. *)
Definition CellsSat (Q : nat → SlotKey → Shift → string → string → Prop)
    (st : State) : Prop :=
  ∀ w sk sh sc a, cellOf (schedule st) w sk sh sc = Some (Some a) → Q w sk sh sc a.

(** A filled cell is recorded in the usage set of its week and shift. *)
Definition CellsTracked (st : State) : Prop :=
  ∀ w sk sh sc a,
    cellOf (schedule st) w sk sh sc = Some (Some a) → usedSet st w sh a ≠ [].

(** No actor fills two cells of the same week and shift. *)
Definition NoDoubleBooking (sched : gmap nat WeekSched) : Prop :=
  ∀ w sh sk1 sc1 sk2 sc2 a,
    cellOf sched w sk1 sh sc1 = Some (Some a) →
    cellOf sched w sk2 sh sc2 = Some (Some a) →
    sk1 = sk2 ∧ sc1 = sc2.

(** [st'] fills no cell that [st] does not fill with the same actor. *)
Definition Shrinks (st st' : State) : Prop :=
  ∀ w sk sh sc a,
    cellOf (schedule st') w sk sh sc = Some (Some a) →
    cellOf (schedule st) w sk sh sc = Some (Some a).

(** The two states hold the same usage sets. *)
Definition SameUsage (st st' : State) : Prop :=
  ∀ w sh a, usedSet st' w sh a = usedSet st w sh a.

(** [st'] agrees with [st] on every cell that is not the position of a
    slot of [rest]. *)
Definition FrameOutside (rest : list Slot) (st st' : State) : Prop :=
  ∀ w sk sh sc,
    (∀ s, s ∈ rest → posOf s ≠ (w, sk, sh, sc)) →
    cellOf (schedule st') w sk sh sc = cellOf (schedule st) w sk sh sc.

Definition SameDays (st st' : State) : Prop :=
  ∀ w sk, hasDay (schedule st') w sk ↔ hasDay (schedule st) w sk.

(** Lexicographic order on the criteria. *)
Definition keyLe (k1 k2 : Z * Z * Z) : Prop :=
  (k1.1.1 < k2.1.1 ∨
   (k1.1.1 = k2.1.1 ∧ (k1.1.2 < k2.1.2 ∨ (k1.1.2 = k2.1.2 ∧ k1.2 ≤ k2.2))))%Z.

Module Spec.
Section Vocabulary.
Context `{!Host}.
Variable weeks : list (list WeekDay).
Variable weekPlans : gmap nat WeekPlan.
Variable availability : gmap string (gmap string AvailValue).
Variable config : Config.

(** The slots in the order the fallback visits them. *)
Definition fallbackOrder : list Slot :=
  concat (imap (λ wi week,
    slotKey ← SLOT_KEYS;
    match activeDate (planFor weekPlans config wi week slotKey) with
    | None => []
    | Some date =>
        shift ← SHIFTS;
        (λ scenario, {| wi := wi; slotKey := slotKey; shift := shift;
                        scenario := scenario; date := date |})
          <$> scenarioOrder config slotKey
                (dayAvailOf availability date) shift
    end) weeks).

(** The three criteria of a candidate: usage so far, the morning
    preference (which counts for PM shifts only) and the eligible count;
    defined when both tallies hold a number for the candidate. *)
Definition rankKey (sh : Shift) (st : State) (a : string) : option (Z * Z * Z) :=
  u ← usageCount st !! a;
  e ← eligibleCount weeks weekPlans availability config !! a;
  Some (u, if bool_decide (sh = PM) then prefersAM config a else 0%Z, e).

(** [a] may stand before [b] in the ranking. *)
Definition rankedBefore (sh : Shift) (st : State) (a b : string) : Prop :=
  ∃ ka kb, rankKey sh st a = Some ka ∧ rankKey sh st b = Some kb ∧ keyLe ka kb.
End Vocabulary.
End Spec.
Import Spec.

(** The completeness statement read position by position: every
    enumerated slot holds a person or has exactly one diagnostic. *)
Definition CompleteOrExplained `{!Host} (weeks : list (list WeekDay))
    (weekPlans : gmap nat WeekPlan)
    (availability : gmap string (gmap string AvailValue)) (config : Config) : Prop :=
  let r := generateSchedule weeks weekPlans availability config in
  ∀ s, s ∈ allSlots weeks weekPlans config →
       Filled (r_schedule r) s ∨ countDiag (r_errors r) s = 1%nat.

(** Every enumerated slot of a scenario without approved people is
    [null] and has a diagnostic saying "no approved actors for" it. *)
Definition ExplainsNoApproved `{!Host} (weeks : list (list WeekDay))
    (weekPlans : gmap nat WeekPlan)
    (availability : gmap string (gmap string AvailValue)) (config : Config) : Prop :=
  let r := generateSchedule weeks weekPlans availability config in
  ∀ s, s ∈ allSlots weeks weekPlans config →
       approvedFor config (scenario s) = [] →
       cellOf (r_schedule r) (wi s) (slotKey s) (shift s) (scenario s) = Some None ∧
       ∃ d, d ∈ r_errors r ∧ diagPos d = posOf s ∧
            statesNoApproved d (scenario s) = true.

(** ** Definitions for the further properties *)

(** The configuration with its conflict rules replaced. *)
Definition withConflicts (config : Config) (rules : list ConflictRule) : Config :=
  {| actors := actors config;
     scenarioActors := scenarioActors config;
     slotScenarios := slotScenarios config;
     conflicts := rules;
     defaultDays := defaultDays config;
     actorConstraints := actorConstraints config |}.

(** The day record [schedule[weekKey][slotKey]], [None] when the week is
    missing or the day is [null]. *)
Definition dayOf (sched : gmap nat WeekSched) (w : nat) (sk : SlotKey) : option DayRec :=
  sched !! w ≫= (λ ws : WeekSched, ws sk).

(** Two schedules hold the same weeks, the same days with the same dates,
    and the same scenario keys under each shift. *)
Definition SameShape (s1 s2 : gmap nat WeekSched) : Prop :=
  (∀ w, is_Some (s2 !! w) ↔ is_Some (s1 !! w)) ∧
  (∀ w sk, dr_date <$> dayOf s2 w sk = dr_date <$> dayOf s1 w sk) ∧
  (∀ w sk sh sc, is_Some (cellOf s2 w sk sh sc) ↔ is_Some (cellOf s1 w sk sh sc)).

(** The fresh state of the one-person sample, and the strict search over
    the two-scenario sample when only one person is available. *)
Definition soloFresh : State := freshState [marchWeek] ∅ cfgSolo.

Definition soloSearch : bool * State * list Slot :=
  backtrack [marchWeek] ∅ (availTuesday ["P"]) cfgConflict 4
    (allSlots [marchWeek] ∅ cfgConflict) (freshState [marchWeek] ∅ cfgConflict) 0.

(** Two people approved for one scenario; P works on Tuesdays only. *)
Definition cfgTuesdays : Config :=
  {| actors := ["P"; "R"];
     scenarioActors := {[ "X" := ["P"; "R"] ]};
     slotScenarios := onSlot1 ["X"];
     conflicts := [];
     defaultDays := stdDays;
     actorConstraints :=
       {[ "P" := {| allowedDays := Some ["Tuesday"]; maxPMRatio := None;
                    preferAM := false |} ]} |}.

(** ** Actor statistics

    [getActorStats] of [src/scheduler.js].  [stats] is a dictionary from
    names to [{ total, scenarios }]; [Object.entries] of a shift is the
    list of its entries, and the result read as a dictionary does not
    depend on their order. *)

Module Stats.
Record ActorStat := { total : Z; scenarios : gmap string Z }.

Definition emptyStat : ActorStat := {| total := 0%Z; scenarios := ∅ |}.

(** The body of [for (const [scenario, actor] of Object.entries(...))];
    [!actor] holds for [null] and for the empty string. *)
Definition countEntry (stats : gmap string ActorStat) (entry : string * option string)
    : gmap string ActorStat :=
  match entry.2 with
  | None => stats
  | Some actor =>
      if String.eqb actor "" then stats
      else
        let s := default emptyStat (stats !! actor) in
        <[actor := {| total := (total s + 1)%Z;
                      scenarios :=
                        <[entry.1 := (default 0%Z (scenarios s !! entry.1) + 1)%Z]>
                          (scenarios s) |}]> stats
  end.

(** [slotData[shift]] is an object in every day record. *)
Definition countShift (slotData : DayRec) (stats : gmap string ActorStat)
    (shift : Shift) : gmap string ActorStat :=
  foldl countEntry stats (map_to_list (shiftCells slotData shift)).

Definition countDay (weekSched : WeekSched) (stats : gmap string ActorStat)
    (slotKey : SlotKey) : gmap string ActorStat :=
  match weekSched slotKey with
  | None => stats
  | Some slotData => foldl (countShift slotData) stats SHIFTS
  end.

Definition countWeek (schedule : gmap nat WeekSched) (stats : gmap string ActorStat)
    (wi : nat) : gmap string ActorStat :=
  match schedule !! wi with
  | None => stats
  | Some weekSched => foldl (countDay weekSched) stats SLOT_KEYS
  end.

(** [schedule] is [None] when the argument is [null] or [undefined]. *)
Definition getActorStats (weeks : list (list WeekDay)) (weekPlans : gmap nat WeekPlan)
    (schedule : option (gmap nat WeekSched)) (config : Config)
    : gmap string ActorStat :=
  let stats := list_to_map ((λ actor, (actor, emptyStat)) <$> actors config) in
  match schedule with
  | None => stats
  | Some sched => foldl (countWeek sched) stats (seq 0 (length weeks))
  end.
End Stats.

(** [stats[a].total] and [stats[a].scenarios[sc]], 0 without an entry. *)
Definition totalOf (stats : gmap string Stats.ActorStat) (a : string) : Z :=
  Stats.total (default Stats.emptyStat (stats !! a)).

Definition scenarioCountOf (stats : gmap string Stats.ActorStat) (a sc : string) : Z :=
  default 0%Z (Stats.scenarios (default Stats.emptyStat (stats !! a)) !! sc).

(** The sum of the values of a tally. *)
Definition sumCounts (m : gmap string Z) : Z :=
  map_fold (λ _ v acc, (v + acc)%Z) 0%Z m.

(** The cells the loops of [getActorStats] count, in loop order, each
    with the name it holds. *)
Definition entryPlacement (w : nat) (sk : SlotKey) (sh : Shift)
    (entry : string * option string) : list (nat * SlotKey * Shift * string * string) :=
  match entry.2 with
  | None => []
  | Some a => if String.eqb a "" then [] else [(w, sk, sh, entry.1, a)]
  end.

Definition placements (sched : gmap nat WeekSched) (n : nat)
    : list (nat * SlotKey * Shift * string * string) :=
  w ← seq 0 n;
  match sched !! w with
  | None => []
  | Some ws =>
      sk ← SLOT_KEYS;
      match ws sk with
      | None => []
      | Some d => sh ← SHIFTS; map_to_list (shiftCells d sh) ≫= entryPlacement w sk sh
      end
  end.

(** The schedule generated for the two-person sample. *)
Definition pairSchedule : gmap nat WeekSched :=
  r_schedule (generateSchedule [marchWeek] ∅ (availTuesday ["P"; "R"]) cfgPair).

(** ** The weeks of a month

    [getWeeksInMonth] of the scheduler component builds the [weeks]
    argument of [generateSchedule].  The [Date] object it steps through
    the month is the Gregorian calendar: [daysInMonth] is
    [new Date(year, month + 1, 0).getDate()] and [weekdayIndex] is
    [getDay()], for a month index from 0 to 11. *)

Definition ALL_WEEKDAYS : list string :=
  ["Monday"; "Tuesday"; "Wednesday"; "Thursday"; "Friday"; "Saturday"; "Sunday"].

Definition isLeapYear (y : nat) : bool :=
  ((y `mod` 4 =? 0) && negb (y `mod` 100 =? 0) || (y `mod` 400 =? 0))%nat.

(** The number of days of month [m], counted from 1. *)
Definition daysInMonth (y m : nat) : nat :=
  match m with
  | 2 => if isLeapYear y then 29 else 28
  | 4 | 6 | 9 | 11 => 30
  | _ => 31
  end%nat.

(** [s.padStart(2, '0')]. *)
Definition padStart2 (s : string) : string :=
  match String.length s with
  | 0 => "00"
  | 1 => "0" ++ s
  | _ => s
  end%nat.

(** [`${d.getFullYear()}-${String(d.getMonth()+1).padStart(2,'0')}-${String(d.getDate()).padStart(2,'0')}`]. *)
Definition isoDate (y m d : nat) : string :=
  pretty y ++ "-" ++ padStart2 (pretty m) ++ "-" ++ padStart2 (pretty d).

(** The record pushed for day [d] whose [getDay()] is [dw]; the index
    [dw - 1] is within [ALL_WEEKDAYS] where the loop pushes. *)
Definition weekDayOf (year month d dw : nat) : WeekDay :=
  {| wd_date := isoDate year (month + 1) d;
     dayName := default "" (ALL_WEEKDAYS !! (dw - 1)%nat);
     dow := Z.of_nat dw |}.

(** The body of the loop over the days; the state is [(weeks, weekDays)]. *)
Definition dayStep (year month : nat) (acc : list (list WeekDay) * list WeekDay)
    (d : nat) : list (list WeekDay) * list WeekDay :=
  let dw := weekdayIndex year (month + 1) d in
  let acc1 :=
    if (dw =? 1)%nat && (0 <? length acc.2)%nat then ((acc.1 ++ [acc.2])%list, [])
    else acc in
  if (1 <=? dw)%nat && (dw <=? 5)%nat
  then (acc1.1, (acc1.2 ++ [weekDayOf year month d dw])%list)
  else acc1.

Definition getWeeksInMonth (year month : nat) : list (list WeekDay) :=
  let acc := foldl (dayStep year month) ([], [])
                   (seq 1 (daysInMonth year (month + 1))) in
  if (0 <? length acc.2)%nat then (acc.1 ++ [acc.2])%list else acc.1.

(** The business days among the listed days of a month, in order. *)
Definition businessDays (year month : nat) (days : list nat) : list WeekDay :=
  (d ← days;
   let dw := weekdayIndex year (month + 1) d in
   if (1 <=? dw)%nat && (dw <=? 5)%nat then [weekDayOf year month d dw] else [])%list.

(** A week as [getWeeksInMonth] builds it: not empty, Monday to Friday
    only, in strictly ascending order, each day under its name. *)
Definition WeekOK (week : list WeekDay) : Prop :=
  week ≠ [] ∧
  StronglySorted (λ a b, (dow a < dow b)%Z) week ∧
  Forall (λ wd, (1 ≤ dow wd ≤ 5)%Z ∧
                ALL_WEEKDAYS !! Z.to_nat (dow wd - 1) = Some (dayName wd)) week.

(** The largest weekday index the open week can hold after day [k] of
    the loop, and the state of the loop after that day. *)
Definition openBound (year month k : nat) : nat :=
  match k with
  | O => 0
  | S _ =>
      let w := weekdayIndex year (month + 1) k in
      if (1 <=? w)%nat && (w <=? 5)%nat then w else 5
  end%nat.

Definition LoopInv (year month k : nat) (acc : list (list WeekDay) * list WeekDay)
    : Prop :=
  Forall WeekOK acc.1 ∧
  (acc.2 = [] ∨ WeekOK acc.2) ∧
  Forall (λ wd, (dow wd ≤ Z.of_nat (openBound year month k))%Z) acc.2 ∧
  (concat acc.1 ++ acc.2)%list = businessDays year month (seq 1 k).

(** The first business week of October 2026: a Thursday and a Friday. *)
Definition octoberFirstWeek : list WeekDay :=
  [ {| wd_date := "2026-10-01"; dayName := "Thursday"; dow := 4 |};
    {| wd_date := "2026-10-02"; dayName := "Friday"; dow := 5 |} ].

(** ** Calendar export: line folding

    [foldLine] of the ICS export.  A line is a list of Unicode scalar
    values (a JS string without lone surrogates); [utf16Length] is its
    [length] in JS and [utf8] is [new TextEncoder().encode].  The parts
    pushed by the loop are kept as octets: decoding a chunk that ends at
    a character boundary and encoding the result again gives the chunk,
    unless the chunk starts with U+FEFF, which [TextDecoder] drops; the
    statements are about lines without that character.
    The loop runs on fuel; [None] stands for a run that does not end. *)

Definition validScalar (cp : Z) : Prop :=
  (0 ≤ cp < 55296 ∨ 57344 ≤ cp < 1114112)%Z ∧ cp ≠ 65279%Z.

Definition utf16Length (line : list Z) : nat :=
  length (line ≫= λ cp, if (cp <? 65536)%Z then [cp] else [cp; cp])%list.

Definition utf8Char (cp : Z) : list Z :=
  if (cp <? 128)%Z then [cp]
  else if (cp <? 2048)%Z then [192 + cp / 64; 128 + cp `mod` 64]%Z
  else if (cp <? 65536)%Z
  then [224 + cp / 4096; 128 + (cp / 64) `mod` 64; 128 + cp `mod` 64]%Z
  else [240 + cp / 262144; 128 + (cp / 4096) `mod` 64;
        128 + (cp / 64) `mod` 64; 128 + cp `mod` 64]%Z.

Definition utf8 (line : list Z) : list Z := (line ≫= utf8Char)%list.

(** [(b & 0xc0) === 0x80]. *)
Definition isContinuation (b : Z) : bool := (Z.land b 192 =? 128)%Z.

(** [while (end > offset && (bytes[end] & 0xc0) === 0x80) end--] for
    [end = offset + k]; the result is the final [end]. *)
Fixpoint retreat (bytes : list Z) (offset k : nat) : nat :=
  match k with
  | O => offset
  | S k' =>
      if isContinuation (default 0%Z (bytes !! (offset + k)%nat))
      then retreat bytes offset k'
      else (offset + k)%nat
  end.

(** The loop [while (offset < bytes.length)]; the result is [parts]. *)
Fixpoint foldLoop (fuel : nat) (bytes : list Z) (offset : nat) (isFirst : bool)
    : option (list (list Z)) :=
  if (offset <? length bytes)%nat then
    match fuel with
    | O => None
    | S fuel' =>
        let maxBytes := if isFirst then 75%nat else 74%nat in
        let end0 := (offset + maxBytes) `min` length bytes in
        let end1 :=
          if (end0 <? length bytes)%nat then retreat bytes offset (end0 - offset)
          else end0 in
        let chunk := take (end1 - offset) (drop offset bytes) in
        let part := if isFirst then chunk else (32%Z :: chunk) in
        (part ::.) <$> foldLoop fuel' bytes end1 false
    end
  else Some [].

(** The physical lines [foldLine] returns joined by CRLF. *)
Definition foldParts (fuel : nat) (line : list Z) : option (list (list Z)) :=
  if (utf16Length line <=? 75)%nat then Some [utf8 line]
  else
    let bytes := utf8 line in
    if (length bytes <=? 75)%nat then Some [bytes]
    else foldLoop fuel bytes 0 true.

Definition CRLF : list Z := [13; 10]%Z.

Fixpoint joinCRLF (parts : list (list Z)) : list Z :=
  match parts with
  | [] => []
  | [p] => p
  | p :: rest => (p ++ CRLF ++ joinCRLF rest)%list
  end.

Definition foldLine (fuel : nat) (line : list Z) : option (list Z) :=
  joinCRLF <$> foldParts fuel line.

(** The parts for a list of chunks: the first as it is when the loop
    starts the line, every other behind a space. *)
Definition markParts (isFirst : bool) (chunks : list (list Z)) : list (list Z) :=
  match chunks with
  | [] => []
  | c :: cs => (if isFirst then c else 32%Z :: c) :: ((32%Z ::.) <$> cs)
  end.

(** The retreat loop counted from the offset. *)
Fixpoint retreatFrom (bytes : list Z) (k : nat) : nat :=
  match k with
  | O => O
  | S k' => if isContinuation (default 0%Z (bytes !! k)) then retreatFrom bytes k' else k
  end.

(** A line of euro signs, three octets each. *)
Definition euroLine (n : nat) : list Z := replicate n 8364%Z.

(** ** The settings editor

    The configuration the settings panel edits carries, beside the
    fields the scheduler reads, a colour per person and an icon per
    scenario.  The panel applies each edit to a deep copy of its state;
    here an edit is a function from settings to settings.  The names
    typed into the panel arrive trimmed. *)

Record Settings := {
  solver : Config;
  actorColors : gmap string string;
  scenarioIcons : gmap string string;
}.

Definition COLOR_PALETTE : list string :=
  ["#D47B65"; "#6BAA9C"; "#6A9EB5"; "#D4A054"; "#7CB88A";
   "#D9897E"; "#7BA8C9"; "#B48EBF"; "#7DBDA8"; "#C48A5C";
   "#C27A5A"; "#A87DB5"; "#6BAA9C"; "#C49A6A"; "#6A94B0";
   "#C9A090"; "#8FAFC3"; "#A8D4B8"; "#E0BAB0"; "#9BBDD4"].

Definition DEFAULT_CONFIG : Settings :=
  {| solver :=
       {| actors := ["Decatur"; "Sat Charn"; "Mara"; "Rumi"; "Rich";
                     "Antonia"; "Doc"; "Qurrat"; "Nicole"; "Edwin"; "Chris"];
          scenarioActors :=
            {[ "Mania" := ["Sat Charn"; "Doc"; "Antonia"; "Mara"];
               "Psychosis" := ["Rumi"; "Nicole"; "Sat Charn"; "Qurrat"; "Mara"];
               "Depression" := ["Decatur"; "Rich"; "Doc"; "Edwin"; "Nicole"];
               "PTSD" := ["Sat Charn"; "Antonia"; "Mara"; "Decatur"; "Rumi"];
               "Jumper" := ["Decatur"; "Rich"; "Doc"; "Edwin"; "Rumi"];
               "Borderline" := ["Antonia"; "Rumi"; "Sat Charn"; "Qurrat"; "Mara"; "Decatur"; "Edwin"];
               "Suicidal MOS" := ["Chris"; "Antonia"; "Sat Charn"; "Nicole"];
               "Dementia" := ["Decatur"; "Doc"; "Rumi"; "Qurrat"];
               "Autism" := ["Rich"; "Edwin"; "Rumi"; "Nicole"] ]};
          slotScenarios := λ sk,
            match sk with
            | slot1 => ["Mania"; "Psychosis"; "Depression"]
            | slot2 => ["PTSD"; "Jumper"; "Borderline"]
            | slot3 => ["Suicidal MOS"; "Dementia"; "Autism"]
            end;
          conflicts :=
            [ {| scope := "same_shift"; actor_cannot_play := ["Jumper"; "Depression"] |} ];
          defaultDays := λ sk,
            match sk with
            | slot1 => "Tuesday"
            | slot2 => "Wednesday"
            | slot3 => "Thursday"
            end;
          actorConstraints := ∅ |};
     actorColors :=
       {[ "Decatur" := "#D47B65";
          "Sat Charn" := "#6BAA9C";
          "Mara" := "#6A9EB5";
          "Rumi" := "#D4A054";
          "Rich" := "#7CB88A";
          "Antonia" := "#D9897E";
          "Doc" := "#7BA8C9";
          "Qurrat" := "#B48EBF";
          "Nicole" := "#7DBDA8";
          "Edwin" := "#C48A5C";
          "Chris" := "#C48A5C" ]};
     scenarioIcons :=
       {[ "Mania" := "⚡";
          "Psychosis" := "🌀";
          "Depression" := "🌧";
          "PTSD" := "🛡";
          "Jumper" := "🚨";
          "Borderline" := "🔄";
          "Suicidal MOS" := "💙";
          "Dementia" := "🧠";
          "Autism" := "🧩" ]} |}.

(** The scheduler's part of the settings with its three lists replaced. *)
Definition withLists (c : Config) (people : list string)
    (approved : gmap string (list string)) (perSlot : SlotKey → list string) : Config :=
  {| actors := people;
     scenarioActors := approved;
     slotScenarios := perSlot;
     conflicts := conflicts c;
     defaultDays := defaultDays c;
     actorConstraints := actorConstraints c |}.

(** [l.filter(x => x !== a)]. *)
Definition without (a : string) (l : list string) : list string :=
  List.filter (λ x, negb (String.eqb x a)) l.

(** [l.includes(a) ? l.filter(x => x !== a) : [...l, a]]. *)
Definition toggle (a : string) (l : list string) : list string :=
  if bool_decide (a ∈ l) then without a l else (l ++ [a])%list.

(** [addActor]; [n] is [newActor.trim()]. *)
Definition addActor (n : string) (cfg : Settings) : Settings :=
  if String.eqb n "" || bool_decide (n ∈ actors (solver cfg)) then cfg
  else
    let people := (actors (solver cfg) ++ [n])%list in
    let used := (map_to_list (actorColors cfg)).*2 in
    let colour :=
      match List.find (λ x, negb (bool_decide (x ∈ used))) COLOR_PALETTE with
      | Some x => x
      | None =>
          default "" (COLOR_PALETTE !! (length people `mod` length COLOR_PALETTE)%nat)
      end in
    {| solver := withLists (solver cfg) people (scenarioActors (solver cfg))
                   (slotScenarios (solver cfg));
       actorColors := <[n := colour]> (actorColors cfg);
       scenarioIcons := scenarioIcons cfg |}.

Definition rmActor (a : string) (cfg : Settings) : Settings :=
  {| solver := withLists (solver cfg) (without a (actors (solver cfg)))
                 (without a <$> scenarioActors (solver cfg))
                 (slotScenarios (solver cfg));
     actorColors := delete a (actorColors cfg);
     scenarioIcons := scenarioIcons cfg |}.

Definition toggleAS (sc a : string) (cfg : Settings) : Settings :=
  let l := default [] (scenarioActors (solver cfg) !! sc) in
  {| solver := withLists (solver cfg) (actors (solver cfg))
                 (<[sc := toggle a l]> (scenarioActors (solver cfg)))
                 (slotScenarios (solver cfg));
     actorColors := actorColors cfg;
     scenarioIcons := scenarioIcons cfg |}.

(** [addSc]; [n] is [newScenario.trim()]; a list, even an empty one, is
    truthy. *)
Definition addSc (n : string) (cfg : Settings) : Settings :=
  if String.eqb n "" || bool_decide (is_Some (scenarioActors (solver cfg) !! n)) then cfg
  else
    {| solver := withLists (solver cfg) (actors (solver cfg))
                   (<[n := []]> (scenarioActors (solver cfg)))
                   (slotScenarios (solver cfg));
       actorColors := actorColors cfg;
       scenarioIcons := <[n := "🎭"]> (scenarioIcons cfg) |}.

Definition rmSc (sc : string) (cfg : Settings) : Settings :=
  {| solver := withLists (solver cfg) (actors (solver cfg))
                 (delete sc (scenarioActors (solver cfg)))
                 (λ sk, without sc (slotScenarios (solver cfg) sk));
     actorColors := actorColors cfg;
     scenarioIcons := delete sc (scenarioIcons cfg) |}.

Definition toggleSlotSc (sk : SlotKey) (sc : string) (cfg : Settings) : Settings :=
  let l := slotScenarios (solver cfg) sk in
  {| solver := withLists (solver cfg) (actors (solver cfg))
                 (scenarioActors (solver cfg))
                 (<[sk := toggle sc l]> (slotScenarios (solver cfg)));
     actorColors := actorColors cfg;
     scenarioIcons := scenarioIcons cfg |}.

(** One edit, with the arguments the panel passes: it offers removal
    and toggling for the listed people and the existing scenarios
    only. *)
Inductive EditStep : Settings → Settings → Prop :=
| edit_addActor n cfg : EditStep cfg (addActor n cfg)
| edit_rmActor a cfg : a ∈ actors (solver cfg) → EditStep cfg (rmActor a cfg)
| edit_toggleAS sc a cfg :
    is_Some (scenarioActors (solver cfg) !! sc) → a ∈ actors (solver cfg) →
    EditStep cfg (toggleAS sc a cfg)
| edit_addSc n cfg : EditStep cfg (addSc n cfg)
| edit_rmSc sc cfg :
    is_Some (scenarioActors (solver cfg) !! sc) → EditStep cfg (rmSc sc cfg)
| edit_toggleSlotSc sk sc cfg :
    is_Some (scenarioActors (solver cfg) !! sc) →
    EditStep cfg (toggleSlotSc sk sc cfg).

(** No list names anything twice, approved people are listed people,
    scenarios on a day slot are existing scenarios, and every listed
    person has a colour. *)
Definition WellFormed (cfg : Settings) : Prop :=
  NoDup (actors (solver cfg)) ∧
  (∀ sc l, scenarioActors (solver cfg) !! sc = Some l →
     NoDup l ∧ ∀ a, a ∈ l → a ∈ actors (solver cfg)) ∧
  (∀ sk, NoDup (slotScenarios (solver cfg) sk) ∧
     ∀ sc, sc ∈ slotScenarios (solver cfg) sk →
       is_Some (scenarioActors (solver cfg) !! sc)) ∧
  (∀ a, a ∈ actors (solver cfg) → is_Some (actorColors cfg !! a)).

(** The default settings after adding a person and removing another. *)
Definition editedConfig : Settings := rmActor "Doc" (addActor "Zoe" DEFAULT_CONFIG).

(** * Properties *)

Local Open Scope list_scope.

(** ** The normalizer's contract *)

Lemma isStr_true val s : isStr val s = true ↔ val = AvStr s.
Proof.
  destruct val; simpl; try (split; [discriminate | congruence]).
  rewrite String.eqb_eq. split; congruence.
Qed.

(** The example of the source comment: ["2026-03-10"] is ["Tue 3/10"]. *)
Example fmtDateShort_doc : fmtDateShort "2026-03-10" = "Tue 3/10".
Proof. reflexivity. Qed.

(** ** Sorting and swapping only permute *)

Lemma insertBy_perm {A} (cmp : A → A → option Z) x l :
  insertBy cmp x l ≡ₚ x :: l.
Proof.
  induction l as [|y l IH]; simpl; [done|].
  destruct (sortValue (cmp x y) <=? 0)%Z; [done|].
  rewrite IH. apply Permutation_swap.
Qed.

Lemma jsSort_perm {A} (cmp : A → A → option Z) l : jsSort cmp l ≡ₚ l.
Proof.
  induction l as [|x l IH]; simpl; [done|].
  rewrite insertBy_perm. by rewrite IH.
Qed.

Lemma jsSort_nil_inv {A} (cmp : A → A → option Z) l : jsSort cmp l = [] → l = [].
Proof.
  intros E. apply Permutation_nil_r. rewrite <- E. symmetry. apply jsSort_perm.
Qed.

Lemma elem_of_concat {A} (x : A) (ls : list (list A)) :
  x ∈ concat ls ↔ ∃ l, x ∈ l ∧ l ∈ ls.
Proof.
  rewrite list_elem_of_In, in_concat. split.
  - intros (l & Hl & Hx). exists l. by rewrite !list_elem_of_In.
  - intros (l & Hx & Hl). exists l. by rewrite <- !list_elem_of_In.
Qed.

Lemma swap_perm {A} (l : list A) i j : swap l i j ≡ₚ l.
Proof.
  unfold swap.
  destruct (l !! i) as [x|] eqn:Hi; [|done].
  destruct (l !! j) as [y|] eqn:Hj; [|done].
  destruct (decide (i = j)) as [->|Hne].
  - rewrite list_insert_insert_eq.
    assert (x = y) as -> by congruence.
    by rewrite list_insert_id.
  - apply Permutation_inj. split.
    + by rewrite !length_insert.
    + exists (λ k, if decide (k = i) then j else if decide (k = j) then i else k).
      split.
      * intros a b. repeat case_decide; subst; congruence.
      * intros k. repeat case_decide; subst.
        -- rewrite list_lookup_insert_ne by done.
           rewrite list_lookup_insert_eq; [done|]. by eapply lookup_lt_Some.
        -- rewrite list_lookup_insert_eq; [done|].
           rewrite length_insert. by eapply lookup_lt_Some.
        -- by rewrite !list_lookup_insert_ne by done.
Qed.

(** ** Reading and writing schedule cells *)

Lemma cellOf_setCell_same sched w sk sh sc v :
  hasDay sched w sk → cellOf (setCell sched w sk sh sc v) w sk sh sc = Some v.
Proof.
  unfold hasDay, cellOf, setCell. intros [d Hd].
  rewrite lookup_alter_eq.
  destruct (sched !! w) as [ws|]; simpl in *; [|done].
  rewrite fn_lookup_insert. rewrite Hd. simpl.
  destruct sh; simpl; by rewrite lookup_insert_eq.
Qed.

Lemma cellOf_setCell_other sched w sk sh sc v w' sk' sh' sc' :
  (w, sk, sh, sc) ≠ (w', sk', sh', sc') →
  cellOf (setCell sched w sk sh sc v) w' sk' sh' sc' = cellOf sched w' sk' sh' sc'.
Proof.
  unfold cellOf, setCell. intros Hne.
  destruct (decide (w = w')) as [<-|Hw]; [|by rewrite lookup_alter_ne].
  rewrite lookup_alter_eq.
  destruct (sched !! w) as [ws|]; simpl; [|done].
  destruct (decide (sk = sk')) as [<-|Hsk]; [|by rewrite fn_lookup_insert_ne].
  rewrite fn_lookup_insert.
  destruct (ws sk) as [d|]; simpl; [|done].
  destruct sh, sh'; simpl; try done;
    rewrite lookup_insert_ne; congruence.
Qed.

Lemma cellOf_setCell_Some sched w sk sh sc v w' sk' sh' sc' a :
  cellOf (setCell sched w sk sh sc v) w' sk' sh' sc' = Some (Some a) →
  ((w, sk, sh, sc) = (w', sk', sh', sc') ∧ v = Some a) ∨
  ((w, sk, sh, sc) ≠ (w', sk', sh', sc') ∧ cellOf sched w' sk' sh' sc' = Some (Some a)).
Proof.
  intros Hc.
  destruct (decide ((w, sk, sh, sc) = (w', sk', sh', sc'))) as [E|Hne].
  - left. split; [done|]. injection E as <- <- <- <-.
    destruct (decide (hasDay sched w sk)) as [Hd|Hd].
    + rewrite cellOf_setCell_same in Hc by done. congruence.
    + exfalso. apply Hd. unfold hasDay. revert Hc. unfold cellOf, setCell.
      rewrite lookup_alter_eq.
      destruct (sched !! w) as [ws|]; simpl; [|done].
      rewrite fn_lookup_insert. destruct (ws sk); simpl; [eauto|done].
  - right. split; [done|]. by rewrite cellOf_setCell_other in Hc.
Qed.

Lemma hasDay_setCell sched w sk sh sc v w' sk' :
  hasDay (setCell sched w sk sh sc v) w' sk' ↔ hasDay sched w' sk'.
Proof.
  unfold hasDay, setCell.
  destruct (decide (w = w')) as [<-|Hw]; [|by rewrite lookup_alter_ne].
  rewrite lookup_alter_eq.
  destruct (sched !! w) as [ws|]; simpl; [|done].
  destruct (decide (sk = sk')) as [<-|Hsk]; [|by rewrite fn_lookup_insert_ne].
  rewrite fn_lookup_insert. destruct (ws sk); simpl; [|done].
  split; eauto.
Qed.

Lemma cellOf_hasDay sched w sk sh sc v :
  cellOf sched w sk sh sc = Some v → hasDay sched w sk.
Proof.
  unfold cellOf, hasDay. destruct (sched !! w) as [ws|]; simpl; [|done].
  destruct (ws sk); simpl; [eauto|done].
Qed.

(** ** Reading and writing the week/shift usage sets *)

Lemma shiftMap_setShiftMap w sh m sh' :
  shiftMap (setShiftMap w sh m) sh' = if decide (sh = sh') then m else shiftMap w sh'.
Proof. destruct sh, sh'; done. Qed.

Lemma setAdd_nonempty x s : setAdd x s ≠ [].
Proof.
  unfold setAdd. case_bool_decide as Hx.
  - intros ->. by apply not_elem_of_nil in Hx.
  - by destruct s.
Qed.

Lemma alreadyUsed_usedSet st w sh a :
  alreadyUsed (weekAssignOf st w) sh a = false ↔ usedSet st w sh a = [].
Proof.
  unfold alreadyUsed, usedSet.
  destruct (shiftMap (weekAssignOf st w) sh !! a) as [[|x s]|]; simpl; done.
Qed.

(** Where the filter reaches [hasConflict] the actor holds nothing in the
    week and shift, so the conflict test finds nothing to object to. *)
Lemma hasConflict_unused w sh a sc conflicts :
  alreadyUsed w sh a = false → hasConflict a sc sh w conflicts = false.
Proof.
  unfold alreadyUsed, hasConflict. intros Hu.
  destruct conflicts; [done|].
  destruct (shiftMap w sh !! a) as [[|x s]|]; done.
Qed.

Lemma usedSet_applyAssign st slot a w sh b :
  usedSet (applyAssign st slot a) w sh b =
  if decide (w = wi slot ∧ sh = shift slot ∧ b = a)
  then setAdd (scenario slot) (usedSet st w sh b)
  else usedSet st w sh b.
Proof.
  unfold usedSet, weekAssignOf, applyAssign; simpl.
  destruct (decide (w = wi slot)) as [->|Hw].
  - rewrite lookup_insert_eq; simpl. rewrite shiftMap_setShiftMap.
    destruct (decide (shift slot = sh)) as [<-|Hsh].
    + destruct (decide (b = a)) as [->|Hb].
      * rewrite lookup_insert_eq. rewrite decide_True by done. done.
      * rewrite lookup_insert_ne by done. rewrite decide_False by naive_solver. done.
    + rewrite decide_False by naive_solver. done.
  - rewrite lookup_insert_ne by done. rewrite decide_False by naive_solver. done.
Qed.

Lemma usedSet_undoAssign st slot a w sh b :
  usedSet (undoAssign st slot a) w sh b =
  if decide (w = wi slot ∧ sh = shift slot ∧ b = a)
  then setDelete (scenario slot) (usedSet st w sh b)
  else usedSet st w sh b.
Proof.
  unfold usedSet, weekAssignOf, undoAssign; simpl.
  destruct (decide (w = wi slot)) as [->|Hw].
  - rewrite lookup_alter_eq.
    destruct (wa st !! wi slot) as [w0|] eqn:Hw0; simpl.
    + rewrite shiftMap_setShiftMap.
      destruct (decide (shift slot = sh)) as [<-|Hsh].
      * destruct (decide (b = a)) as [->|Hb].
        -- rewrite decide_True by done.
           destruct (length _ =? 0)%nat eqn:Hl.
           ++ rewrite lookup_delete_eq. apply Nat.eqb_eq in Hl.
              symmetry. simpl. by apply nil_length_inv.
           ++ by rewrite lookup_insert_eq.
        -- rewrite decide_False by naive_solver.
           destruct (length _ =? 0)%nat.
           ++ by rewrite lookup_delete_ne.
           ++ by rewrite lookup_insert_ne.
      * rewrite decide_False by naive_solver. done.
    + case_decide; [|done]. by destruct sh.
  - rewrite lookup_alter_ne by done. rewrite decide_False by naive_solver. done.
Qed.

Lemma setDelete_setAdd_nil x : setDelete x (setAdd x []) = [].
Proof. unfold setAdd, setDelete. simpl. by rewrite String.eqb_refl. Qed.

(** ** Invariants of a schedule under assignment and undo *)

Lemma schedule_applyAssign st slot a :
  schedule (applyAssign st slot a) =
  setCell (schedule st) (wi slot) (slotKey slot) (shift slot) (scenario slot) (Some a).
Proof. reflexivity. Qed.

Lemma schedule_undoAssign st slot a :
  schedule (undoAssign st slot a) =
  setCell (schedule st) (wi slot) (slotKey slot) (shift slot) (scenario slot) None.
Proof. reflexivity. Qed.

Lemma cellOf_undoAssign_Some st slot a w sk sh sc b :
  cellOf (schedule (undoAssign st slot a)) w sk sh sc = Some (Some b) →
  (wi slot, slotKey slot, shift slot, scenario slot) ≠ (w, sk, sh, sc) ∧
  cellOf (schedule st) w sk sh sc = Some (Some b).
Proof.
  rewrite schedule_undoAssign. intros Hc.
  apply cellOf_setCell_Some in Hc as [[_ ?]|?]; done.
Qed.

Lemma CellsSat_applyAssign Q st slot a :
  CellsSat Q st →
  Q (wi slot) (slotKey slot) (shift slot) (scenario slot) a →
  CellsSat Q (applyAssign st slot a).
Proof.
  intros HQ Ha w sk sh sc b. rewrite schedule_applyAssign. intros Hc.
  apply cellOf_setCell_Some in Hc as [[E Hv]|[_ Hc]]; [|by apply HQ].
  injection E as <- <- <- <-. by injection Hv as <-.
Qed.

Lemma CellsSat_undoAssign Q st slot a :
  CellsSat Q st → CellsSat Q (undoAssign st slot a).
Proof.
  intros HQ w sk sh sc b Hc. apply cellOf_undoAssign_Some in Hc as [_ Hc].
  by apply HQ.
Qed.

Lemma Shrinks_refl st : Shrinks st st.
Proof. by intros ??????. Qed.

Lemma Shrinks_trans st1 st2 st3 : Shrinks st1 st2 → Shrinks st2 st3 → Shrinks st1 st3.
Proof. intros H12 H23 ??????. by apply H12, H23. Qed.

Lemma SameUsage_refl st : SameUsage st st.
Proof. by intros ???. Qed.

Lemma SameUsage_trans st1 st2 st3 :
  SameUsage st1 st2 → SameUsage st2 st3 → SameUsage st1 st3.
Proof. intros H12 H23 ???. by rewrite H23, H12. Qed.

(** What is filled in a state that shrinks a well-formed one and holds the
    same usage sets is again tracked and free of double booking. *)
Lemma CellsTracked_shrink st st' :
  CellsTracked st → Shrinks st st' → SameUsage st st' → CellsTracked st'.
Proof. intros HT HS HU w sk sh sc a Hc. rewrite HU. eapply HT, HS, Hc. Qed.

Lemma NoDoubleBooking_shrink st st' :
  NoDoubleBooking (schedule st) → Shrinks st st' → NoDoubleBooking (schedule st').
Proof. intros HN HS w sh sk1 sc1 sk2 sc2 a H1 H2. eapply HN; by apply HS. Qed.

(** Assigning an actor whose usage set for the week and shift is empty. *)
Lemma CellsTracked_applyAssign st slot a :
  CellsTracked st → CellsTracked (applyAssign st slot a).
Proof.
  intros HT w sk sh sc b. rewrite schedule_applyAssign, usedSet_applyAssign.
  intros Hc. case_decide; [apply setAdd_nonempty|].
  apply cellOf_setCell_Some in Hc as [[E Hv]|[_ Hc]]; [|by eapply HT].
  injection E as <- <- <- <-. injection Hv as <-. naive_solver.
Qed.

Lemma NoDoubleBooking_applyAssign st slot a :
  CellsTracked st → NoDoubleBooking (schedule st) →
  usedSet st (wi slot) (shift slot) a = [] →
  NoDoubleBooking (schedule (applyAssign st slot a)).
Proof.
  intros HT HN Hfree w sh sk1 sc1 sk2 sc2 b. rewrite schedule_applyAssign.
  intros H1 H2.
  apply cellOf_setCell_Some in H1 as [[E1 Hv1]|[_ H1]];
    apply cellOf_setCell_Some in H2 as [[E2 Hv2]|[_ H2]].
  - injection E1 as <- <- <- <-. by injection E2 as <- <-.
  - injection E1 as <- <- <- <-. injection Hv1 as <-.
    by apply HT in H2.
  - injection E2 as <- <- <- <-. injection Hv2 as <-.
    by apply HT in H1.
  - by eapply HN.
Qed.

(** Undoing an assignment after a failed excursion that shrank the
    schedule and kept the usage sets. *)
Lemma undoAssign_restores st slot a st2 :
  usedSet st (wi slot) (shift slot) a = [] →
  Shrinks (applyAssign st slot a) st2 →
  SameUsage (applyAssign st slot a) st2 →
  Shrinks st (undoAssign st2 slot a) ∧ SameUsage st (undoAssign st2 slot a).
Proof.
  intros Hfree HS HU. split.
  - intros w sk sh sc b Hc. apply cellOf_undoAssign_Some in Hc as [Hne Hc].
    apply HS in Hc. rewrite schedule_applyAssign in Hc.
    apply cellOf_setCell_Some in Hc as [[E _]|[_ Hc]]; done.
  - intros w sh b. rewrite usedSet_undoAssign, HU, usedSet_applyAssign.
    case_decide as Hk; [|done].
    destruct Hk as (-> & -> & ->). rewrite Hfree. apply setDelete_setAdd_nil.
Qed.

(** *** Positions, filled slots and frames *)

Lemma Filled_pos sched s s' : posOf s = posOf s' → Filled sched s → Filled sched s'.
Proof. unfold Filled, posOf. intros [= -> -> -> ->]. done. Qed.

Lemma FrameOutside_refl rest st : FrameOutside rest st st.
Proof. by intros ?????. Qed.

Lemma FrameOutside_trans rest st1 st2 st3 :
  FrameOutside rest st1 st2 → FrameOutside rest st2 st3 → FrameOutside rest st1 st3.
Proof. intros H12 H23 w sk sh sc Hout. rewrite H23, H12; done. Qed.

Lemma FrameOutside_mono rest rest' st st' :
  (∀ s, s ∈ rest' → s ∈ rest) → FrameOutside rest' st st' → FrameOutside rest st st'.
Proof. intros Hsub HF w sk sh sc Hout. apply HF. intros s Hs. by apply Hout, Hsub. Qed.

Lemma FrameOutside_applyAssign rest st slot a :
  slot ∈ rest → FrameOutside rest st (applyAssign st slot a).
Proof.
  intros Hin w sk sh sc Hout. rewrite schedule_applyAssign.
  apply cellOf_setCell_other. by apply Hout.
Qed.

Lemma FrameOutside_undoAssign rest st slot a :
  slot ∈ rest → FrameOutside rest st (undoAssign st slot a).
Proof.
  intros Hin w sk sh sc Hout. rewrite schedule_undoAssign.
  apply cellOf_setCell_other. by apply Hout.
Qed.

Lemma SameDays_refl st : SameDays st st.
Proof. by intros ??. Qed.

Lemma SameDays_trans st1 st2 st3 : SameDays st1 st2 → SameDays st2 st3 → SameDays st1 st3.
Proof. intros H12 H23 w sk. etrans; [apply H23|apply H12]. Qed.

Lemma SameDays_applyAssign st slot a : SameDays st (applyAssign st slot a).
Proof. intros w sk. rewrite schedule_applyAssign. apply hasDay_setCell. Qed.

Lemma SameDays_undoAssign st slot a : SameDays st (undoAssign st slot a).
Proof. intros w sk. rewrite schedule_undoAssign. apply hasDay_setCell. Qed.

Lemma Filled_applyAssign st slot a :
  hasDay (schedule st) (wi slot) (slotKey slot) →
  Filled (schedule (applyAssign st slot a)) slot.
Proof.
  intros Hd. exists a. rewrite schedule_applyAssign. by apply cellOf_setCell_same.
Qed.

(** *** Folding over nested loops *)

Lemma foldl_pointwise {A B} (f g : A → B → A) (l : list B) (acc : A) :
  (∀ a x, f a x = g a x) → foldl f acc l = foldl g acc l.
Proof.
  intros Hfg. revert acc. induction l as [|x l IH]; intros acc; [done|].
  simpl. by rewrite Hfg, IH.
Qed.

Lemma foldl_bind {A B C} (step : A → C → A) (g : B → list C) (l : list B) (acc : A) :
  foldl (λ acc x, foldl step acc (g x)) acc l = foldl step acc (l ≫= g).
Proof.
  revert acc. induction l as [|x l IH]; intros acc; [done|].
  change ((x :: l) ≫= g) with (g x ++ (l ≫= g)). rewrite foldl_app. apply IH.
Qed.

Lemma bind_singleton {A B} (f : A → B) (l : list A) : (l ≫= λ x, [f x]) = f <$> l.
Proof. induction l as [|x l IH]; [done|]. by rewrite fmap_cons, <- IH. Qed.

Lemma concat_imap_perm {A B} (l : list A) :
  ∀ f g : nat → A → list B,
    (∀ i x, f i x ≡ₚ g i x) → concat (imap f l) ≡ₚ concat (imap g l).
Proof.
  induction l as [|x l IH]; intros f g Hfg; [done|].
  rewrite !imap_cons. simpl. apply Permutation_app; [apply Hfg|].
  apply IH. intros i y. apply Hfg.
Qed.

Lemma foldl_imap_concat {A B C D} (step : A → C → A) (l : list B) :
  ∀ (p : nat → B → D) (g : nat → B → list C) (h : A → D → A) (acc : A),
    (∀ acc i x, h acc (p i x) = foldl step acc (g i x)) →
    foldl h acc (imap p l) = foldl step acc (concat (imap g l)).
Proof.
  induction l as [|x l IH]; intros p g h acc Hh; [done|].
  rewrite !imap_cons. simpl. rewrite foldl_app, Hh.
  apply IH. intros acc' i y. apply Hh.
Qed.

Lemma countPos_perm l l' s : l ≡ₚ l' → countPos l s = countPos l' s.
Proof. intros Hp. unfold countPos. by rewrite Hp. Qed.

Lemma countPos_snoc l x s :
  countPos (l ++ [x]) s =
  (countPos l s + if decide (posOf x = posOf s) then 1 else 0)%nat.
Proof.
  unfold countPos. rewrite filter_app, length_app. f_equal.
  rewrite filter_cons, filter_nil. by case_decide.
Qed.

Lemma countDiag_snoc l d s :
  countDiag (l ++ [d]) s =
  (countDiag l s + if decide (diagPos d = posOf s) then 1 else 0)%nat.
Proof.
  unfold countDiag. rewrite filter_app, length_app. f_equal.
  rewrite filter_cons, filter_nil. by case_decide.
Qed.

Lemma countPos_elem l s : s ∈ l → (1 ≤ countPos l s)%nat.
Proof.
  intros Hin. unfold countPos.
  assert (s ∈ filter (λ s', posOf s' = posOf s) l) as Hf
    by (by apply list_elem_of_filter).
  destruct (filter _ l); [by apply not_elem_of_nil in Hf|simpl; lia].
Qed.

Lemma countDiag_pos errors s :
  (1 ≤ countDiag errors s)%nat → ∃ d, d ∈ errors ∧ diagPos d = posOf s.
Proof.
  unfold countDiag. intros Hc.
  destruct (filter _ errors) as [|d l] eqn:Hf; [simpl in Hc; lia|].
  assert (d ∈ filter (λ d, diagPos d = posOf s) errors) as Hd
    by (rewrite Hf; by left).
  apply list_elem_of_filter in Hd as [??]. eauto.
Qed.

(** ** Unfolding equations of the search *)

Section Unfold.
Context `{!Host}.
Variable weeks : list (list WeekDay).
Variable weekPlans : gmap nat WeekPlan.
Variable availability : gmap string (gmap string AvailValue).
Variable config : Config.

Lemma tryCandidates_cons rec slot relax a more st rem :
  tryCandidates availability config rec slot relax (a :: more) st rem =
  let st1 := applyAssign st slot a in
  if forwardOk availability config rem st1 relax then
    match rec rem st1 with
    | (true, st2, rem2) => (true, st2, rem2)
    | (false, st2, rem2) =>
        tryCandidates availability config rec slot relax more (undoAssign st2 slot a) rem2
    end
  else tryCandidates availability config rec slot relax more (undoAssign st1 slot a) rem.
Proof.
  simpl.
  destruct (forwardOk _ _ _ _ _); [|done].
  by destruct (rec rem _) as [[[] ?] ?].
Qed.

Lemma backtrack_S n rest st relax :
  backtrack weeks weekPlans availability config (S n) rest st relax =
  let state := bumpCount st in
  if (50000 <? backtrackCount state)%Z then (false, state, rest)
  else
    let mrvIdx := mrvScan availability config rest state relax in
    match swap rest 0 mrvIdx with
    | [] => (false, state, rest)
    | slot :: remaining =>
        match rankCandidates weeks weekPlans availability config
                (getEligible availability config slot state relax) (shift slot) state with
        | [] => (false, state, swap (slot :: remaining) 0 mrvIdx)
        | c :: cs =>
            let '(ok, st', remaining') :=
              tryCandidates availability config
                (λ r s, backtrack weeks weekPlans availability config n r s relax)
                slot relax (c :: cs) state remaining in
            if ok then (true, st', slot :: remaining')
            else (false, st', swap (slot :: remaining') 0 mrvIdx)
        end
    end.
Proof.
  simpl.
  destruct (50000 <? _)%Z; [done|].
  destruct (swap rest 0 _); [done|].
  by destruct (rankCandidates _ _ _ _ _ _ _).
Qed.
End Unfold.

Arguments tryCandidates : simpl never.
Arguments backtrack : simpl never.
Arguments applyAssign : simpl never.
Arguments undoAssign : simpl never.
Arguments fallbackStep : simpl never.
Arguments diagnosticFor : simpl never.

(** ** Reasoning rules for the search *)

Section Search.
Context `{!Host}.
Variable weeks : list (list WeekDay).
Variable weekPlans : gmap nat WeekPlan.
Variable availability : gmap string (gmap string AvailValue).
Variable config : Config.

#[local] Abbreviation getEligible := (Scheduler.getEligible availability config).
#[local] Abbreviation eligibleActor := (Scheduler.eligibleActor availability config).
#[local] Abbreviation rankCandidates :=
  (Scheduler.rankCandidates weeks weekPlans availability config).
#[local] Abbreviation tryCandidates := (Scheduler.tryCandidates availability config).
#[local] Abbreviation backtrack := (Scheduler.backtrack weeks weekPlans availability config).
#[local] Abbreviation allSlots := (Scheduler.allSlots weeks weekPlans config).
#[local] Abbreviation freshState := (Scheduler.freshState weeks weekPlans config).
#[local] Abbreviation attempt := (Scheduler.attempt weeks weekPlans availability config).
#[local] Abbreviation relaxLoop := (Scheduler.relaxLoop weeks weekPlans availability config).
#[local] Abbreviation fallback := (Scheduler.fallback weeks weekPlans availability config).
#[local] Abbreviation fallbackStep := (Scheduler.fallbackStep weeks weekPlans availability config).
#[local] Abbreviation generateSchedule :=
  (Scheduler.generateSchedule weeks weekPlans availability config).
#[local] Abbreviation fallbackOrder := (Spec.fallbackOrder weeks weekPlans availability config).
#[local] Abbreviation rankKey := (Spec.rankKey weeks weekPlans availability config).
#[local] Abbreviation rankedBefore := (Spec.rankedBefore weeks weekPlans availability config).

Lemma elem_of_getEligible slot st relax a :
  a ∈ getEligible slot st relax ↔
  a ∈ approvedFor config (scenario slot) ∧ eligibleActor slot st relax a = true.
Proof.
  unfold Scheduler.getEligible.
  by rewrite list_elem_of_In, filter_In, <- list_elem_of_In.
Qed.

Lemma elem_of_rankCandidates l sh st a :
  a ∈ rankCandidates l sh st ↔ a ∈ l.
Proof. unfold Scheduler.rankCandidates. by rewrite jsSort_perm. Qed.

Lemma eligibleActor_unused slot st relax a :
  eligibleActor slot st relax a = true →
  usedSet st (wi slot) (shift slot) a = [].
Proof.
  unfold Scheduler.eligibleActor. intros He.
  apply alreadyUsed_usedSet.
  destruct (negb _); [done|]. by destruct (alreadyUsed _ _ _).
Qed.

(** The candidate loop as a proof rule: [Inv] holds of the loop state
    between iterations, [Ok] of the state handed back on success. *)
Lemma tryCandidates_rule (rec : list Slot → State → bool * State * list Slot)
    slot relax (Inv Ok : State → list Slot → Prop) cands :
  (∀ st rem a, a ∈ cands → Inv st rem →
     Inv (undoAssign (applyAssign st slot a) slot a) rem ∧
     match rec rem (applyAssign st slot a) with
     | (true, st2, rem2) => Ok st2 rem2
     | (false, st2, rem2) => Inv (undoAssign st2 slot a) rem2
     end) →
  ∀ st rem, Inv st rem →
  match tryCandidates rec slot relax cands st rem with
  | (true, st', rem') => Ok st' rem'
  | (false, st', rem') => Inv st' rem'
  end.
Proof.
  induction cands as [|a more IH]; intros Hstep st rem HI; [done|].
  rewrite tryCandidates_cons. cbv zeta.
  destruct (Hstep st rem a) as [Hundo Hrec]; [by left|done|].
  assert (∀ st rem b, b ∈ more → Inv st rem →
     Inv (undoAssign (applyAssign st slot b) slot b) rem ∧
     match rec rem (applyAssign st slot b) with
     | (true, st2, rem2) => Ok st2 rem2
     | (false, st2, rem2) => Inv (undoAssign st2 slot b) rem2
     end) as Hmore.
  { intros ??? Hb. apply Hstep. by right. }
  destruct (forwardOk _ _ _ _ _); [|by apply IH].
  destruct (rec rem (applyAssign st slot a)) as [[[] st2] rem2]; [done|].
  by apply IH.
Qed.

(** The search hands back the slots it was given, possibly reordered. *)
Lemma backtrack_perm n relax rest st : (backtrack n rest st relax).2 ≡ₚ rest.
Proof.
  revert rest st. induction n as [|n IH]; intros rest st; [done|].
  rewrite backtrack_S. cbv zeta.
  destruct (50000 <? _)%Z; [done|].
  destruct (swap rest 0 _) as [|slot remaining] eqn:Hs; [done|].
  assert (slot :: remaining ≡ₚ rest) as Hp by (rewrite <- Hs; apply swap_perm).
  destruct (rankCandidates _ _ _) as [|c cs]; simpl.
  { by rewrite swap_perm. }
  pose proof (tryCandidates_rule (λ r s, backtrack n r s relax) slot relax
    (λ _ rem, rem ≡ₚ remaining) (λ _ rem, rem ≡ₚ remaining) (c :: cs)) as Hrule.
  cbv beta in Hrule.
  assert (∀ st0 rem a, a ∈ c :: cs → rem ≡ₚ remaining →
    rem ≡ₚ remaining ∧
    match backtrack n rem (applyAssign st0 slot a) relax with
    | (true, _, rem2) => rem2 ≡ₚ remaining
    | (false, _, rem2) => rem2 ≡ₚ remaining
    end) as Hstep.
  { intros st0 rem a _ Hrem. split; [done|].
    specialize (IH rem (applyAssign st0 slot a)).
    destruct (backtrack n rem _ relax) as [[[] ?] ?]; simpl in IH;
      by rewrite IH. }
  specialize (Hrule Hstep (bumpCount st) remaining (reflexivity _)).
  destruct (tryCandidates _ _ _ _ _ _) as [[[] st'] rem']; simpl.
  - by rewrite Hrule.
  - by rewrite swap_perm, Hrule.
Qed.

Ltac backtrack_cases slot remaining Hs c cs Hc :=
  rewrite backtrack_S; cbv zeta;
  destruct (50000 <? _)%Z eqn:Hbudget;
  [ | destruct (swap _ 0 _) as [|slot remaining] eqn:Hs;
      [ | destruct (Scheduler.rankCandidates _ _ _ _ _ _ _) as [|c cs] eqn:Hc ] ].

Lemma ranked_eligible slot st relax c cs a :
  rankCandidates (getEligible slot st relax) (shift slot) st = c :: cs →
  a ∈ c :: cs →
  a ∈ approvedFor config (scenario slot) ∧ eligibleActor slot st relax a = true.
Proof.
  intros Hc Ha. rewrite <- Hc in Ha.
  apply elem_of_rankCandidates in Ha. by apply elem_of_getEligible.
Qed.

(** *** The expansion counter *)

Lemma backtrackCount_applyAssign st slot a :
  backtrackCount (applyAssign st slot a) = backtrackCount st.
Proof. reflexivity. Qed.

Lemma backtrackCount_undoAssign st slot a :
  backtrackCount (undoAssign st slot a) = backtrackCount st.
Proof. reflexivity. Qed.

Lemma backtrack_count_mono n relax rest st :
  (backtrackCount st ≤ backtrackCount (backtrack n rest st relax).1.2)%Z.
Proof.
  revert rest st. induction n as [|n IH]; intros rest st; [done|].
  assert (backtrackCount st ≤ backtrackCount (bumpCount st))%Z as Hb by (simpl; lia).
  backtrack_cases slot remaining Hs c cs Hc; try done.
  pose proof (tryCandidates_rule (λ r s, backtrack n r s relax) slot relax
    (λ s _, (backtrackCount (bumpCount st) ≤ backtrackCount s)%Z)
    (λ s _, (backtrackCount (bumpCount st) ≤ backtrackCount s)%Z) (c :: cs)) as Hrule.
  cbv beta in Hrule.
  assert (∀ (st0 : State) (rem : list Slot) (a : string), a ∈ c :: cs →
    (backtrackCount (bumpCount st) ≤ backtrackCount st0)%Z →
    (backtrackCount (bumpCount st) ≤
       backtrackCount (undoAssign (applyAssign st0 slot a) slot a))%Z ∧
    match backtrack n rem (applyAssign st0 slot a) relax with
    | (true, st2, _) => (backtrackCount (bumpCount st) ≤ backtrackCount st2)%Z
    | (false, st2, _) =>
        (backtrackCount (bumpCount st) ≤ backtrackCount (undoAssign st2 slot a))%Z
    end) as Hstep.
  { intros st0 rem a _ Hle. split; [done|].
    specialize (IH rem (applyAssign st0 slot a)).
    rewrite backtrackCount_applyAssign in IH.
    destruct (backtrack n rem _ relax) as [[[] st2] rem2]; simpl in IH;
      rewrite ?backtrackCount_undoAssign; lia. }
  specialize (Hrule Hstep (bumpCount st) remaining (reflexivity _)).
  destruct (tryCandidates _ _ _ _ _ _) as [[[] st'] rem']; simpl in *; lia.
Qed.

Lemma backtrack_O rest st relax : backtrack 0 rest st relax = (true, st, rest).
Proof. reflexivity. Qed.

Lemma backtrack_success_count n relax rest st st' rest' :
  backtrack (S n) rest st relax = (true, st', rest') →
  (backtrackCount st' ≤ 50000)%Z.
Proof.
  revert rest st st' rest'. induction n as [|n IH]; intros rest st st' rest'.
  - backtrack_cases slot remaining Hs c cs Hc; try done.
    apply Z.ltb_ge in Hbudget.
    pose proof (tryCandidates_rule (λ r s, backtrack 0 r s relax) slot relax
      (λ s _, (backtrackCount s ≤ 50000)%Z)
      (λ s _, (backtrackCount s ≤ 50000)%Z) (c :: cs)) as Hrule.
    cbv beta in Hrule.
    assert (∀ (st0 : State) (rem : list Slot) (a : string), a ∈ c :: cs →
      (backtrackCount st0 ≤ 50000)%Z →
      (backtrackCount (undoAssign (applyAssign st0 slot a) slot a) ≤ 50000)%Z ∧
      match backtrack 0 rem (applyAssign st0 slot a) relax with
      | (true, st2, _) => (backtrackCount st2 ≤ 50000)%Z
      | (false, st2, _) => (backtrackCount (undoAssign st2 slot a) ≤ 50000)%Z
      end) as Hstep.
    { intros st0 rem a _ Hle. split; [done|]. by rewrite backtrack_O. }
    specialize (Hrule Hstep (bumpCount st) remaining Hbudget).
    destruct (tryCandidates _ _ _ _ _ _) as [[[] st1] rem1]; [|done].
    intros [= <- <-]. done.
  - backtrack_cases slot remaining Hs c cs Hc; try done.
    pose proof (tryCandidates_rule (λ r s, backtrack (S n) r s relax) slot relax
      (λ _ _, True) (λ s _, (backtrackCount s ≤ 50000)%Z) (c :: cs)) as Hrule.
    cbv beta in Hrule.
    assert (∀ (st0 : State) (rem : list Slot) (a : string), a ∈ c :: cs → True →
      True ∧
      match backtrack (S n) rem (applyAssign st0 slot a) relax with
      | (true, st2, _) => (backtrackCount st2 ≤ 50000)%Z
      | (false, _, _) => True
      end) as Hstep.
    { intros st0 rem a _ _. split; [done|].
      destruct (backtrack (S n) rem _ relax) as [[[] st2] rem2] eqn:E; [|done].
      by eapply IH. }
    specialize (Hrule Hstep (bumpCount st) remaining I).
    destruct (tryCandidates _ _ _ _ _ _) as [[[] st1] rem1]; [|done].
    intros [= <- <-]. done.
Qed.

(** *** Invariants kept by the search *)

Lemma backtrack_CellsSat (Q : nat → SlotKey → Shift → string → string → Prop) relax :
  (∀ slot st a, a ∈ approvedFor config (scenario slot) →
     eligibleActor slot st relax a = true →
     Q (wi slot) (slotKey slot) (shift slot) (scenario slot) a) →
  ∀ n rest st, CellsSat Q st → CellsSat Q (backtrack n rest st relax).1.2.
Proof.
  intros HQ n. induction n as [|n IH]; intros rest st Hst; [done|].
  assert (CellsSat Q (bumpCount st)) as Hb by done.
  backtrack_cases slot remaining Hs c cs Hc; try done.
  pose proof (tryCandidates_rule (λ r s, backtrack n r s relax) slot relax
    (λ s _, CellsSat Q s) (λ s _, CellsSat Q s) (c :: cs)) as Hrule.
  cbv beta in Hrule.
  assert (∀ (st0 : State) (rem : list Slot) (a : string), a ∈ c :: cs →
    CellsSat Q st0 →
    CellsSat Q (undoAssign (applyAssign st0 slot a) slot a) ∧
    match backtrack n rem (applyAssign st0 slot a) relax with
    | (true, st2, _) => CellsSat Q st2
    | (false, st2, _) => CellsSat Q (undoAssign st2 slot a)
    end) as Hstep.
  { intros st0 rem a Ha H0.
    destruct (ranked_eligible _ _ _ _ _ _ Hc Ha) as [Happ Hel].
    assert (CellsSat Q (applyAssign st0 slot a)) as H1.
    { apply CellsSat_applyAssign; [done|]. by eapply HQ. }
    split; [by apply CellsSat_undoAssign|].
    specialize (IH rem _ H1).
    destruct (backtrack n rem _ relax) as [[[] st2] rem2]; simpl in IH; [done|].
    by apply CellsSat_undoAssign. }
  specialize (Hrule Hstep (bumpCount st) remaining Hb).
  by destruct (tryCandidates _ _ _ _ _ _) as [[[] st'] rem'].
Qed.

(** A failed search leaves a state that shrinks the one it started from
    and holds the same usage sets; a successful one leaves a state that
    is tracked and free of double booking. *)
Lemma backtrack_booking relax n rest st :
  CellsTracked st → NoDoubleBooking (schedule st) →
  match backtrack n rest st relax with
  | (true, st', _) => CellsTracked st' ∧ NoDoubleBooking (schedule st')
  | (false, st', _) => Shrinks st st' ∧ SameUsage st st'
  end.
Proof.
  revert rest st. induction n as [|n IH]; intros rest st HT HN; [done|].
  assert (Shrinks st (bumpCount st) ∧ SameUsage st (bumpCount st)) as Hb.
  { split; [by intros ??????|by intros ???]. }
  backtrack_cases slot remaining Hs c cs Hc; try done.
  pose proof (tryCandidates_rule (λ r s, backtrack n r s relax) slot relax
    (λ s _, Shrinks st s ∧ SameUsage st s)
    (λ s _, CellsTracked s ∧ NoDoubleBooking (schedule s)) (c :: cs)) as Hrule.
  cbv beta in Hrule.
  assert (∀ (st0 : State) (rem : list Slot) (a : string), a ∈ c :: cs →
    Shrinks st st0 ∧ SameUsage st st0 →
    (Shrinks st (undoAssign (applyAssign st0 slot a) slot a) ∧
     SameUsage st (undoAssign (applyAssign st0 slot a) slot a)) ∧
    match backtrack n rem (applyAssign st0 slot a) relax with
    | (true, st2, _) => CellsTracked st2 ∧ NoDoubleBooking (schedule st2)
    | (false, st2, _) =>
        Shrinks st (undoAssign st2 slot a) ∧ SameUsage st (undoAssign st2 slot a)
    end) as Hstep.
  { intros st0 rem a Ha [HS0 HU0].
    destruct (ranked_eligible _ _ _ _ _ _ Hc Ha) as [_ Hel].
    apply eligibleActor_unused in Hel.
    assert (usedSet st0 (wi slot) (shift slot) a = []) as Hfree.
    { rewrite HU0. exact Hel. }
    assert (CellsTracked st0) as HT0 by (by eapply CellsTracked_shrink).
    assert (NoDoubleBooking (schedule st0)) as HN0
      by (by eapply NoDoubleBooking_shrink).
    assert (∀ st2, Shrinks (applyAssign st0 slot a) st2 →
                   SameUsage (applyAssign st0 slot a) st2 →
                   Shrinks st (undoAssign st2 slot a) ∧
                   SameUsage st (undoAssign st2 slot a)) as Hback.
    { intros st2 HS2 HU2.
      destruct (undoAssign_restores st0 slot a st2 Hfree HS2 HU2) as [HS3 HU3].
      split; [by eapply Shrinks_trans|by eapply SameUsage_trans]. }
    split.
    { apply Hback; [apply Shrinks_refl|apply SameUsage_refl]. }
    specialize (IH rem (applyAssign st0 slot a)
      (CellsTracked_applyAssign _ _ _ HT0)
      (NoDoubleBooking_applyAssign _ _ _ HT0 HN0 Hfree)).
    destruct (backtrack n rem _ relax) as [[[] st2] rem2]; [done|].
    destruct IH as [HS2 HU2]. by apply Hback. }
  specialize (Hrule Hstep (bumpCount st) remaining Hb).
  by destruct (tryCandidates _ _ _ _ _ _) as [[[] st'] rem'].
Qed.

(** The search writes only to the positions of the slots it is given;
    when it succeeds, each of them is filled. *)
Lemma backtrack_fills relax n rest st :
  length rest = n →
  (∀ s, s ∈ rest → hasDay (schedule st) (wi s) (slotKey s)) →
  match backtrack n rest st relax with
  | (ok, st', _) =>
      FrameOutside rest st st' ∧ SameDays st st' ∧
      (ok = true → ∀ s, s ∈ rest → Filled (schedule st') s)
  end.
Proof.
  revert rest st. induction n as [|n IH]; intros rest st Hlen Hdays.
  { apply nil_length_inv in Hlen as ->. rewrite backtrack_O.
    split; [apply FrameOutside_refl|]. split; [apply SameDays_refl|].
    intros _ s Hs. by apply not_elem_of_nil in Hs. }
  assert (FrameOutside rest st (bumpCount st) ∧ SameDays st (bumpCount st) ∧
          (false = true → ∀ s, s ∈ rest → Filled (schedule (bumpCount st)) s)) as Hb.
  { split; [by intros ?????|]. split; [by intros ??|done]. }
  backtrack_cases slot remaining Hs c cs Hc; try done.
  assert (slot :: remaining ≡ₚ rest) as Hp by (rewrite <- Hs; apply swap_perm).
  assert (slot ∈ rest) as Hslot by (rewrite <- Hp; by left).
  assert (length remaining = n) as Hlen'.
  { apply Permutation_length in Hp. simpl in Hp. lia. }
  pose proof (tryCandidates_rule (λ r s, backtrack n r s relax) slot relax
    (λ s rem, FrameOutside rest st s ∧ SameDays st s ∧ rem ≡ₚ remaining)
    (λ s _, FrameOutside rest st s ∧ SameDays st s ∧
            ∀ s0, s0 ∈ rest → Filled (schedule s) s0) (c :: cs)) as Hrule.
  cbv beta in Hrule.
  assert (∀ (st0 : State) (rem : list Slot) (a : string), a ∈ c :: cs →
    FrameOutside rest st st0 ∧ SameDays st st0 ∧ rem ≡ₚ remaining →
    (FrameOutside rest st (undoAssign (applyAssign st0 slot a) slot a) ∧
     SameDays st (undoAssign (applyAssign st0 slot a) slot a) ∧ rem ≡ₚ remaining) ∧
    match backtrack n rem (applyAssign st0 slot a) relax with
    | (true, st2, _) =>
        FrameOutside rest st st2 ∧ SameDays st st2 ∧
        ∀ s0, s0 ∈ rest → Filled (schedule st2) s0
    | (false, st2, rem2) =>
        FrameOutside rest st (undoAssign st2 slot a) ∧
        SameDays st (undoAssign st2 slot a) ∧ rem2 ≡ₚ remaining
    end) as Hstep.
  { intros st0 rem a _ (HF0 & HD0 & Hrem).
    assert (FrameOutside rest st (applyAssign st0 slot a)) as HF1.
    { eapply FrameOutside_trans; [done|]. by apply FrameOutside_applyAssign. }
    assert (SameDays st (applyAssign st0 slot a)) as HD1.
    { eapply SameDays_trans; [done|]. apply SameDays_applyAssign. }
    assert (∀ s, s ∈ rem → s ∈ rest) as Hsub.
    { intros s Hin. rewrite <- Hp, <- Hrem. by right. }
    split.
    { split; [|split; [|done]].
      - eapply FrameOutside_trans; [done|]. by apply FrameOutside_undoAssign.
      - eapply SameDays_trans; [done|]. apply SameDays_undoAssign. }
    pose proof (backtrack_perm n relax rem (applyAssign st0 slot a)) as Hperm.
    specialize (IH rem (applyAssign st0 slot a)).
    destruct (backtrack n rem _ relax) as [[ok st2] rem2]. simpl in Hperm.
    destruct IH as (HF2 & HD2 & Hfill).
    { apply Permutation_length in Hrem. lia. }
    { intros s Hin. apply HD1, Hdays, Hsub, Hin. }
    assert (FrameOutside rest st st2) as HF2'.
    { eapply FrameOutside_trans; [done|]. by eapply FrameOutside_mono. }
    assert (SameDays st st2) as HD2' by (by eapply SameDays_trans).
    destruct ok.
    - split; [done|]. split; [done|].
      intros s0 Hs0. rewrite <- Hp in Hs0.
      apply elem_of_cons in Hs0 as [->|Hs0].
      + destruct (decide (Exists (λ s', posOf s' = posOf slot) rem)) as [Hex|Hnex].
        * apply Exists_exists in Hex as (s' & Hin' & Hpos).
          eapply Filled_pos; [done|]. by apply Hfill.
        * destruct (Filled_applyAssign st0 slot a) as [b Hb'].
          { apply HD0, Hdays, Hslot. }
          exists b. rewrite <- Hb'. apply HF2.
          intros s' Hin' Hpos. apply Hnex, Exists_exists. by exists s'.
      + apply Hfill; [done|]. by rewrite Hrem.
    - split; [|split].
      + eapply FrameOutside_trans; [done|]. by apply FrameOutside_undoAssign.
      + eapply SameDays_trans; [done|]. apply SameDays_undoAssign.
      + by rewrite Hperm. }
  specialize (Hrule Hstep (bumpCount st) remaining).
  destruct (tryCandidates _ _ _ _ _ _) as [[[] st'] rem'].
  - destruct Hrule as (HF & HD & Hfill); [by destruct Hb as (? & ? & _)|].
    done.
  - destruct Hrule as (HF & HD & _); [by destruct Hb as (? & ? & _)|].
    done.
Qed.

(** *** The slot enumerator and the skeleton *)

Lemma elem_of_slotsOfDay w sk d s :
  s ∈ slotsOfDay config w sk d ↔
  wi s = w ∧ slotKey s = sk ∧ date s = d ∧ scenario s ∈ slotScenarios config sk.
Proof.
  unfold slotsOfDay. rewrite list_elem_of_bind. split.
  - intros (sh & Hin & _). apply list_elem_of_bind in Hin as (sc & Hin & Hsc).
    apply list_elem_of_singleton in Hin as ->. done.
  - intros (<- & <- & <- & Hsc). exists (shift s). split; [|destruct (shift s); set_solver].
    apply list_elem_of_bind. exists (scenario s). split; [|done].
    destruct s; set_solver.
Qed.

Lemma elem_of_slotsOfWeek w week s :
  s ∈ slotsOfWeek weekPlans config w week ↔
  wi s = w ∧
  activeDate (planFor weekPlans config w week (slotKey s)) = Some (date s) ∧
  scenario s ∈ slotScenarios config (slotKey s).
Proof.
  unfold slotsOfWeek. rewrite list_elem_of_bind. split.
  - intros (sk & Hin & _).
    destruct (activeDate _) as [d|] eqn:Hd; [|by apply not_elem_of_nil in Hin].
    apply elem_of_slotsOfDay in Hin as (? & <- & <- & ?). done.
  - intros (Hw & Hd & Hsc). exists (slotKey s).
    split; [|destruct (slotKey s); set_solver].
    rewrite Hd. by apply elem_of_slotsOfDay.
Qed.

Lemma elem_of_allSlots s :
  s ∈ allSlots ↔
  ∃ week, weeks !! wi s = Some week ∧
    activeDate (planFor weekPlans config (wi s) week (slotKey s)) = Some (date s) ∧
    scenario s ∈ slotScenarios config (slotKey s).
Proof.
  unfold Scheduler.allSlots. rewrite elem_of_concat. split.
  - intros (l & Hs & Hl). apply elem_of_lookup_imap in Hl as (w & week & -> & Hw).
    apply elem_of_slotsOfWeek in Hs as (<- & ? & ?). eauto.
  - intros (week & Hw & Hd & Hsc). exists (slotsOfWeek weekPlans config (wi s) week).
    split; [by apply elem_of_slotsOfWeek|].
    by apply elem_of_lookup_imap_2.
Qed.

Lemma lookup_nullCells l sc v : nullCells l !! sc = Some v → v = None.
Proof.
  unfold nullCells. intros Hl. apply elem_of_list_to_map_2 in Hl.
  apply list_elem_of_fmap in Hl as (x & [= _ ->] & _). done.
Qed.

Lemma lookup_nullCells_elem l sc : sc ∈ l → nullCells l !! sc = Some None.
Proof.
  unfold nullCells. intros Hin. apply elem_of_list_to_map_1'.
  - intros y Hy. apply list_elem_of_fmap in Hy as (x & [= _ ->] & _). done.
  - apply list_elem_of_fmap. by exists sc.
Qed.

Lemma lookup_skeleton w :
  skeleton weeks weekPlans config !! w =
  weekSkeleton weekPlans config w <$> weeks !! w.
Proof. unfold skeleton. by rewrite lookup_map_seq_0, list_lookup_imap. Qed.

Lemma cellOf_skeleton w sk sh sc v :
  cellOf (skeleton weeks weekPlans config) w sk sh sc = Some v → v = None.
Proof.
  unfold cellOf. rewrite lookup_skeleton.
  destruct (weeks !! w) as [week|]; simpl; [|done].
  unfold weekSkeleton. destruct (activeDate _); simpl; [|done].
  destruct sh; simpl; apply lookup_nullCells.
Qed.

Lemma cellOf_skeleton_slot s :
  s ∈ allSlots →
  cellOf (skeleton weeks weekPlans config)
    (wi s) (slotKey s) (shift s) (scenario s) = Some None.
Proof.
  intros (week & Hw & Hd & Hsc)%elem_of_allSlots.
  unfold cellOf. rewrite lookup_skeleton, Hw. simpl.
  unfold weekSkeleton. rewrite Hd. simpl.
  destruct (shift s); simpl; by apply lookup_nullCells_elem.
Qed.

Lemma freshState_CellsSat Q : CellsSat Q freshState.
Proof. intros w sk sh sc a Hc. by apply cellOf_skeleton in Hc. Qed.

Lemma freshState_CellsTracked : CellsTracked freshState.
Proof. intros w sk sh sc a Hc. by apply cellOf_skeleton in Hc. Qed.

Lemma freshState_NoDoubleBooking : NoDoubleBooking (schedule freshState).
Proof. intros w sh sk1 sc1 sk2 sc2 a Hc. by apply cellOf_skeleton in Hc. Qed.

Lemma freshState_hasDay s :
  s ∈ allSlots → hasDay (schedule freshState) (wi s) (slotKey s).
Proof. intros Hs. eapply cellOf_hasDay. by apply cellOf_skeleton_slot. Qed.

(** *** The greedy fallback as one loop over slots *)

Lemma fallback_flat : fallback = foldl fallbackStep (freshState, []) fallbackOrder.
Proof.
  unfold Scheduler.fallback, Spec.fallbackOrder.
  apply foldl_imap_concat. intros acc w week.
  unfold fallbackWeek. simpl fst. simpl snd.
  rewrite <- foldl_bind. apply foldl_pointwise. intros acc' sk.
  unfold fallbackDay. destruct (activeDate _) as [d|]; [|done].
  rewrite <- foldl_bind. apply foldl_pointwise. intros acc'' sh.
  unfold fallbackShift. by rewrite foldl_fmap.
Qed.

Lemma fallbackOrder_perm : fallbackOrder ≡ₚ allSlots.
Proof.
  unfold Spec.fallbackOrder, Scheduler.allSlots.
  apply concat_imap_perm. intros w week.
  assert (∀ sk d,
    (shift ← SHIFTS;
     (λ scenario, {| wi := w; slotKey := sk; shift := shift;
                     scenario := scenario; date := d |})
       <$> scenarioOrder config sk (dayAvailOf availability d) shift)
    ≡ₚ slotsOfDay config w sk d) as Hday.
  { intros sk d. unfold slotsOfDay, SHIFTS. simpl.
    rewrite !bind_singleton. unfold scenarioOrder.
    by rewrite !jsSort_perm. }
  unfold slotsOfWeek, SLOT_KEYS. simpl.
  repeat (apply Permutation_app; [destruct (activeDate _); [apply Hday|done]|]).
  done.
Qed.

Lemma fallback_rule (P : list Slot → State * list Diagnostic → Prop) l acc0 :
  P [] acc0 →
  (∀ done acc s, s ∈ l → P done acc → P (done ++ [s]) (fallbackStep acc s)) →
  P l (foldl fallbackStep acc0 l).
Proof.
  induction l as [|s l IH] using rev_ind; intros H0 Hstep; [done|].
  rewrite foldl_snoc. apply Hstep; [set_solver|].
  apply IH; [done|]. intros done acc s' Hs'. apply Hstep. set_solver.
Qed.

(** One step either records a diagnostic for a slot without strict
    candidates or assigns a strictly eligible actor. *)
Lemma fallbackStep_cases st errors s :
  (getEligible s st 0 = [] ∧
   fallbackStep (st, errors) s = (st, errors ++ [diagnosticFor availability config s st])) ∨
  (∃ a, a ∈ approvedFor config (scenario s) ∧ eligibleActor s st 0 a = true ∧
        fallbackStep (st, errors) s = (applyAssign st s a, errors)).
Proof.
  unfold Scheduler.fallbackStep.
  destruct (rankCandidates _ _ _) as [|c cs] eqn:Hc.
  - left. split; [|done]. by apply jsSort_nil_inv in Hc.
  - right. exists c.
    destruct (ranked_eligible _ _ _ _ _ c Hc) as [??]; [by left|]. done.
Qed.

Lemma fallback_CellsSat (Q : nat → SlotKey → Shift → string → string → Prop) :
  (∀ slot st a, a ∈ approvedFor config (scenario slot) →
     eligibleActor slot st 0 a = true →
     Q (wi slot) (slotKey slot) (shift slot) (scenario slot) a) →
  CellsSat Q fallback.1.
Proof.
  intros HQ. rewrite fallback_flat.
  apply (fallback_rule (λ _ acc, CellsSat Q acc.1)); [apply freshState_CellsSat|].
  intros _ [st errors] s _ Hst. simpl in Hst.
  destruct (fallbackStep_cases st errors s) as [[_ ->]|(a & Ha & He & ->)]; [done|].
  simpl. apply CellsSat_applyAssign; [done|]. by eapply HQ.
Qed.

Lemma fallback_booking :
  CellsTracked fallback.1 ∧ NoDoubleBooking (schedule fallback.1).
Proof.
  rewrite fallback_flat.
  apply (fallback_rule
    (λ _ acc, CellsTracked acc.1 ∧ NoDoubleBooking (schedule acc.1))).
  { split; [apply freshState_CellsTracked|apply freshState_NoDoubleBooking]. }
  intros _ [st errors] s _ [HT HN]. simpl in *.
  destruct (fallbackStep_cases st errors s) as [[_ ->]|(a & Ha & He & ->)]; [done|].
  simpl. split; [by apply CellsTracked_applyAssign|].
  apply NoDoubleBooking_applyAssign; [done..|]. by eapply eligibleActor_unused.
Qed.

(** Every diagnostic was built for a slot that had no strict candidate
    in the state at hand. *)
Lemma fallback_diagnostics d :
  d ∈ fallback.2 →
  ∃ slot st, slot ∈ allSlots ∧ getEligible slot st 0 = [] ∧
             d = diagnosticFor availability config slot st.
Proof.
  rewrite fallback_flat. revert d.
  apply (fallback_rule (λ _ acc, ∀ d, d ∈ acc.2 →
    ∃ slot st, slot ∈ allSlots ∧ getEligible slot st 0 = [] ∧
               d = diagnosticFor availability config slot st)).
  { intros d Hd. by apply not_elem_of_nil in Hd. }
  intros _ [st errors] s Hs IH d. simpl in IH.
  destruct (fallbackStep_cases st errors s) as [[He ->]|(a & _ & _ & ->)];
    simpl; [|apply IH].
  rewrite elem_of_app, list_elem_of_singleton. intros [Hd| ->]; [by apply IH|].
  exists s, st. split; [|done]. by rewrite <- fallbackOrder_perm.
Qed.

(** The bookkeeping of the fallback, position by position: a filled
    position has fewer diagnostics than visits, an unfilled one is as
    the skeleton left it and has one diagnostic per visit. *)
Lemma fallback_counts s :
  (Filled (schedule fallback.1) s ∧
   (countDiag fallback.2 s < countPos allSlots s)%nat) ∨
  (cellOf (schedule fallback.1) (wi s) (slotKey s) (shift s) (scenario s) =
     cellOf (schedule freshState) (wi s) (slotKey s) (shift s) (scenario s) ∧
   countDiag fallback.2 s = countPos allSlots s).
Proof.
  rewrite <- (countPos_perm _ _ s fallbackOrder_perm). rewrite fallback_flat.
  revert s.
  apply (fallback_rule (λ done acc, SameDays freshState acc.1 ∧ ∀ s,
    (Filled (schedule acc.1) s ∧ (countDiag acc.2 s < countPos done s)%nat) ∨
    (cellOf (schedule acc.1) (wi s) (slotKey s) (shift s) (scenario s) =
       cellOf (schedule freshState) (wi s) (slotKey s) (shift s) (scenario s) ∧
     countDiag acc.2 s = countPos done s))).
  { split; [apply SameDays_refl|]. intros s. by right. }
  intros done [st errors] s0 Hs0 [HD IH]. simpl in HD, IH.
  assert (hasDay (schedule st) (wi s0) (slotKey s0)) as Hday.
  { apply HD, freshState_hasDay. by rewrite <- fallbackOrder_perm. }
  destruct (fallbackStep_cases st errors s0) as [[_ ->]|(a & _ & _ & ->)]; simpl.
  - split; [done|]. intros s. rewrite countPos_snoc, countDiag_snoc.
    change (diagPos (diagnosticFor availability config s0 st)) with (posOf s0).
    destruct (IH s) as [[? ?]|[? ?]]; [left|right]; split; try done; lia.
  - split; [eapply SameDays_trans; [done|apply SameDays_applyAssign]|].
    intros s. rewrite countPos_snoc.
    case_decide as Hpos.
    + left. split.
      * eapply Filled_pos; [done|]. by apply Filled_applyAssign.
      * destruct (IH s) as [[? ?]|[? ?]]; lia.
    + unfold Filled. rewrite !cellOf_setCell_other by done.
      rewrite Nat.add_0_r. apply IH.
Qed.

(** *** The relaxation loop *)

Lemma generateSchedule_cases :
  (∃ relax st rest,
     relax ∈ [0; 1; 2; 3]%nat ∧ attempt relax = (true, st, rest) ∧
     generateSchedule = {| r_schedule := schedule st; r_errors := [] |}) ∨
  ((∀ relax, relax ∈ [0; 1; 2; 3]%nat → (attempt relax).1.1 = false) ∧
   generateSchedule =
     {| r_schedule := schedule fallback.1; r_errors := fallback.2 |}).
Proof.
  unfold Scheduler.generateSchedule, Scheduler.relaxLoop.
  destruct (attempt 0) as [[[] st0] r0] eqn:E0.
  { left. exists 0%nat, st0, r0. split; [set_solver|done]. }
  destruct (attempt 1) as [[[] st1] r1] eqn:E1.
  { left. exists 1%nat, st1, r1. split; [set_solver|done]. }
  destruct (attempt 2) as [[[] st2] r2] eqn:E2.
  { left. exists 2%nat, st2, r2. split; [set_solver|done]. }
  destruct (attempt 3) as [[[] st3] r3] eqn:E3.
  { left. exists 3%nat, st3, r3. split; [set_solver|done]. }
  right. split; [|done]. intros relax Hr.
  repeat (apply elem_of_cons in Hr as [->|Hr]; [by rewrite ?E0, ?E1, ?E2, ?E3|]).
  by apply not_elem_of_nil in Hr.
Qed.

(** *** What every returned schedule satisfies *)

Lemma generateSchedule_CellsSat (Q : nat → SlotKey → Shift → string → string → Prop) :
  (∀ relax slot st a, a ∈ approvedFor config (scenario slot) →
     eligibleActor slot st relax a = true →
     Q (wi slot) (slotKey slot) (shift slot) (scenario slot) a) →
  ∀ w sk sh sc a,
    cellOf (r_schedule generateSchedule) w sk sh sc = Some (Some a) → Q w sk sh sc a.
Proof.
  intros HQ.
  destruct generateSchedule_cases as [(relax & st & rest & _ & Ha & Hg)|[_ Hg]];
    rewrite Hg; simpl.
  - pose proof (backtrack_CellsSat Q relax (HQ relax) (length allSlots) allSlots
                  freshState (freshState_CellsSat Q)) as Hs.
    unfold Scheduler.attempt in Ha. rewrite Ha in Hs. exact Hs.
  - apply fallback_CellsSat, HQ.
Qed.

Lemma generateSchedule_booking : NoDoubleBooking (r_schedule generateSchedule).
Proof.
  destruct generateSchedule_cases as [(relax & st & rest & _ & Ha & Hg)|[_ Hg]];
    rewrite Hg; simpl.
  - pose proof (backtrack_booking relax (length allSlots) allSlots freshState
                  freshState_CellsTracked freshState_NoDoubleBooking) as Hs.
    unfold Scheduler.attempt in Ha. rewrite Ha in Hs. apply Hs.
  - apply fallback_booking.
Qed.

(** A successful attempt fills every enumerated slot. *)
Lemma attempt_fills relax st rest s :
  attempt relax = (true, st, rest) → s ∈ allSlots → Filled (schedule st) s.
Proof.
  intros Ha Hs.
  pose proof (backtrack_fills relax (length allSlots) allSlots freshState eq_refl
                freshState_hasDay) as Hf.
  unfold Scheduler.attempt in Ha. rewrite Ha in Hf.
  destruct Hf as (_ & _ & Hf). by apply Hf.
Qed.

(** Position by position: a filled position has fewer diagnostics than
    the enumerator emitted slots for it; an unfilled one is [null] and
    has exactly one diagnostic per emitted slot. *)
Lemma generateSchedule_counts s :
  s ∈ allSlots →
  (Filled (r_schedule generateSchedule) s ∧
   (countDiag (r_errors generateSchedule) s < countPos allSlots s)%nat) ∨
  (cellOf (r_schedule generateSchedule) (wi s) (slotKey s) (shift s) (scenario s)
     = Some None ∧
   countDiag (r_errors generateSchedule) s = countPos allSlots s).
Proof.
  intros Hs.
  destruct generateSchedule_cases as [(relax & st & rest & _ & Ha & Hg)|[_ Hg]];
    rewrite Hg; simpl.
  - left. split; [by eapply attempt_fills|].
    apply countPos_elem in Hs. unfold countDiag. rewrite filter_nil. simpl. lia.
  - destruct (fallback_counts s) as [?|[Hc ?]]; [by left|right].
    split; [|done]. rewrite Hc. by apply cellOf_skeleton_slot.
Qed.

(** C2. In the schedule returned by [generateSchedule], whichever path
    produced it, no person is assigned to more than one scenario within
    the same week and shift, across all training days of that week: two
    filled cells of one week and shift that hold the same person are the
    same cell. *)
Theorem generateSchedule_no_double_booking w sh sk1 sc1 sk2 sc2 a :
  cellOf (r_schedule generateSchedule) w sk1 sh sc1 = Some (Some a) →
  cellOf (r_schedule generateSchedule) w sk2 sh sc2 = Some (Some a) →
  sk1 = sk2 ∧ sc1 = sc2.
Proof. apply generateSchedule_booking. Qed.

(** C3. If [generateSchedule] returns an empty error list, no person
    holds two different scenarios of a [same_shift] conflict rule within
    the same week and shift. *)
Theorem generateSchedule_conflicts_respected rule w sh sk1 sc1 sk2 sc2 a :
  r_errors generateSchedule = [] →
  rule ∈ conflicts config →
  scope rule = "same_shift" →
  sc1 ∈ actor_cannot_play rule →
  sc2 ∈ actor_cannot_play rule →
  sc1 ≠ sc2 →
  ¬ (cellOf (r_schedule generateSchedule) w sk1 sh sc1 = Some (Some a) ∧
     cellOf (r_schedule generateSchedule) w sk2 sh sc2 = Some (Some a)).
Proof.
  intros _ _ _ _ _ Hne [H1 H2].
  destruct (generateSchedule_booking w sh sk1 sc1 sk2 sc2 a H1 H2) as [_ ?].
  done.
Qed.

(** *** A position is emitted once when its scenario is listed once *)

Lemma filter_none {A} (P : A → Prop) `{!∀ x, Decision (P x)} (l : list A) :
  (∀ x, x ∈ l → ¬ P x) → filter P l = [].
Proof.
  induction l as [|x l IH]; intros Hl; [done|].
  rewrite filter_cons, decide_False by (apply Hl; by left).
  apply IH. intros y Hy. apply Hl. by right.
Qed.

Lemma countPos_app l1 l2 s : countPos (l1 ++ l2) s = (countPos l1 s + countPos l2 s)%nat.
Proof. unfold countPos. by rewrite filter_app, length_app. Qed.

Lemma countPos_none l s : (∀ x, x ∈ l → posOf x ≠ posOf s) → countPos l s = 0%nat.
Proof. intros Hl. unfold countPos. by rewrite filter_none. Qed.

Lemma count_once (l : list string) x :
  NoDup l → x ∈ l → length (filter (λ y, y = x) l) = 1%nat.
Proof.
  induction 1 as [|y l Hy Hl IH]; intros Hx; [by apply not_elem_of_nil in Hx|].
  rewrite filter_cons. destruct (decide (y = x)) as [->|Hne].
  - simpl. rewrite filter_none; [done|]. by intros z Hz ->.
  - apply IH. by apply elem_of_cons in Hx as [->|Hx].
Qed.

Lemma countPos_scenarios w sk sh d (l : list string) s :
  countPos (l ≫= λ sc, [ {| wi := w; slotKey := sk; shift := sh;
                             scenario := sc; date := d |} ]) s =
  if decide (w = wi s ∧ sk = slotKey s ∧ sh = shift s)
  then length (filter (λ sc, sc = scenario s) l) else 0%nat.
Proof.
  induction l as [|sc l IH].
  { by case_decide. }
  change ((sc :: l) ≫= ?f) with (f sc ++ (l ≫= f)).
  rewrite countPos_app, IH. unfold countPos at 1.
  rewrite filter_cons, filter_nil. unfold posOf at 1. simpl.
  case_decide as Hk.
  - destruct Hk as (-> & -> & ->). rewrite filter_cons.
    destruct (decide (sc = scenario s)) as [->|Hne].
    + by rewrite decide_True.
    + rewrite decide_False; [done|]. intros [=]. done.
  - rewrite decide_False; [done|]. intros [=]. naive_solver.
Qed.

Lemma countPos_slotsOfDay w sk d s :
  countPos (slotsOfDay config w sk d) s =
  if decide (w = wi s ∧ sk = slotKey s)
  then length (filter (λ sc, sc = scenario s) (slotScenarios config sk)) else 0%nat.
Proof.
  unfold slotsOfDay, SHIFTS.
  change ([AM; PM] ≫= ?f) with (f AM ++ f PM ++ []).
  rewrite !countPos_app, !countPos_scenarios.
  destruct (shift s) eqn:Hsh; repeat case_decide; try done; try lia; naive_solver.
Qed.

Lemma countPos_slotsOfWeek w week s :
  s ∈ slotsOfWeek weekPlans config w week →
  countPos (slotsOfWeek weekPlans config w week) s =
  length (filter (λ sc, sc = scenario s) (slotScenarios config (slotKey s))).
Proof.
  intros (<- & Hd & _)%elem_of_slotsOfWeek.
  unfold slotsOfWeek, SLOT_KEYS.
  change ([slot1; slot2; slot3] ≫= ?f) with (f slot1 ++ f slot2 ++ f slot3 ++ []).
  rewrite !countPos_app.
  assert (∀ sk,
    countPos match activeDate (planFor weekPlans config (wi s) week sk) with
             | Some d => slotsOfDay config (wi s) sk d
             | None => []
             end s =
    if decide (sk = slotKey s)
    then length (filter (λ sc, sc = scenario s) (slotScenarios config sk))
    else 0%nat) as Hday.
  { intros sk. case_decide as Hsk.
    - subst sk. rewrite Hd, countPos_slotsOfDay. by rewrite decide_True.
    - destruct (activeDate (planFor weekPlans config (wi s) week sk)); [|done].
      rewrite countPos_slotsOfDay. rewrite decide_False; [done|]. naive_solver. }
  rewrite !Hday. change (countPos [] s) with 0%nat.
  destruct (slotKey s); repeat case_decide; try done; lia.
Qed.

Lemma countPos_other_week w week s :
  w ≠ wi s → countPos (slotsOfWeek weekPlans config w week) s = 0%nat.
Proof.
  intros Hw. apply countPos_none. intros x (Hx & _)%elem_of_slotsOfWeek [=]. congruence.
Qed.

Lemma countPos_weeks (l : list (list WeekDay)) s :
  ∀ (f : nat → list WeekDay → list Slot) n,
    (∀ i x, i ≠ n → countPos (f i x) s = 0%nat) →
    countPos (concat (imap f l)) s =
    from_option (λ x, countPos (f n x) s) 0%nat (l !! n).
Proof.
  induction l as [|x l IH]; intros f n Hf; [done|].
  rewrite imap_cons. simpl concat. rewrite countPos_app.
  destruct n as [|n]; simpl.
  - rewrite (IH (f ∘ S) (length l)).
    + rewrite lookup_ge_None_2 by done. simpl. lia.
    + intros i y _. apply Hf. lia.
  - rewrite Hf by lia. rewrite (IH (f ∘ S) n); [done|].
    intros i y Hi. apply Hf. lia.
Qed.

Lemma countPos_allSlots s :
  s ∈ allSlots →
  countPos allSlots s =
  length (filter (λ sc, sc = scenario s) (slotScenarios config (slotKey s))).
Proof.
  intros (week & Hw & Hd & Hsc)%elem_of_allSlots.
  unfold Scheduler.allSlots.
  rewrite (countPos_weeks weeks s _ (wi s))
    by (intros; by apply countPos_other_week).
  rewrite Hw. simpl. apply countPos_slotsOfWeek. by apply elem_of_slotsOfWeek.
Qed.


(** *** The strict filter and its explanation *)

Lemma eligibleActor_strict_pm slot st a ac r :
  eligibleActor slot st 0 a = true →
  shift slot = PM →
  actorConstraints config !! a = Some ac →
  maxPMRatio ac = Some r →
  Qeq_bool r 0 = false.
Proof.
  unfold Scheduler.eligibleActor, pmCapBlocks. intros He Hsh Hac Hr.
  rewrite Hsh, Hac in He. simpl in He. rewrite Hr in He.
  destruct (Qeq_bool r 0); [|done].
  repeat (match type of He with (if ?b then _ else _) = _ => destruct b end;
          try done).
Qed.

(** [explainElim] finds a reason exactly when the strict filter rejects. *)
Lemma explainElim_None actor slot st :
  explainElim availability config actor slot st = None ↔
  eligibleActor slot st 0 actor = true.
Proof.
  unfold explainElim, Scheduler.eligibleActor, pmCapBlocks.
  change (0 <? 3)%nat with true. change (0 <? 2)%nat with true.
  change (0 <? 1)%nat with true. cbv zeta. rewrite !andb_true_l.
  destruct (negb (isAvailableForShift _ _)).
  { by destruct (normalizeAvail _). }
  destruct (alreadyUsed _ _ _); [done|].
  destruct (dayNotAllowed _ _), (hasConflict _ _ _ _ _), (shift slot),
    (actorConstraints config !! actor ≫= maxPMRatio) as [r|]; try done;
    destruct (Qeq_bool r 0), (pmRatioReached st actor r); done.
Qed.

Lemma explainElim_truthy actor slot st r :
  explainElim availability config actor slot st = Some r → String.eqb r "" = false.
Proof.
  unfold explainElim. intros He.
  repeat (match type of He with
          | (if ?b then _ else _) = _ => destruct b
          | match ?x with _ => _ end = _ => destruct x
          end; try discriminate);
    injection He as <-; try done; by destruct s.
Qed.

Lemma filter_nil_inv {A} (f : A → bool) l x :
  List.filter f l = [] → x ∈ l → f x = false.
Proof.
  intros Hf Hx. destruct (f x) eqn:E; [|done].
  assert (x ∈ List.filter f l) as Hin
    by (rewrite list_elem_of_In, filter_In, <- list_elem_of_In; done).
  rewrite Hf in Hin. by apply not_elem_of_nil in Hin.
Qed.

Lemma eliminationsFor_all approved slot st :
  (∀ a, a ∈ approved → eligibleActor slot st 0 a = false) →
  (eliminationsFor availability config approved slot st).*1 = approved.
Proof.
  unfold eliminationsFor. induction approved as [|a l IH]; intros Hall; [done|].
  change ((a :: l) ≫= ?f) with (f a ++ (l ≫= f)).
  rewrite fmap_app, IH by (intros; apply Hall; by right).
  destruct (explainElim availability config a slot st) as [r|] eqn:He.
  - rewrite (explainElim_truthy _ _ _ _ He). done.
  - apply explainElim_None in He. rewrite Hall in He; [done|by left].
Qed.

(** The diagnostic built for a slot without strict candidates. *)
Lemma diagnosticFor_blocked slot st :
  getEligible slot st 0 = [] →
  let d := diagnosticFor availability config slot st in
  (eliminations d).*1 = approvedActors d ∧
  suggestion d =
    "All " +:+ pretty (length (approvedActors d)) +:+ " approved actor" +:+
    plural (Z.of_nat (length (approvedActors d))) +:+
    " blocked. Approve more actors for " +:+ d_scenario d +:+
    " or adjust availability.".
Proof.
  intros He. simpl.
  assert ((eliminationsFor availability config (approvedFor config (scenario slot))
             slot st).*1 = approvedFor config (scenario slot)) as Hel.
  { apply eliminationsFor_all. intros a Ha. by eapply filter_nil_inv. }
  unfold diagnosticFor. simpl. split; [done|].
  unfold suggestionFor.
  rewrite <- (length_fmap fst), Hel, Z.sub_diag. done.
Qed.

(** C4, as amended.  When the strict attempt (relaxation level 0)
    succeeds, or when all four attempts fail and the greedy fallback
    runs, a person whose [maxPMRatio] is 0 appears in no PM cell. *)
Theorem generateSchedule_pm_zero_strict P ac r w sk sc :
  actorConstraints config !! P = Some ac →
  maxPMRatio ac = Some r →
  Qeq r 0 →
  (attempt 0).1.1 = true ∨
    (∀ relax, relax ∈ [0; 1; 2; 3]%nat → (attempt relax).1.1 = false) →
  cellOf (r_schedule generateSchedule) w sk PM sc ≠ Some (Some P).
Proof.
  intros Hac Hr Hz Hpath Hcell. apply Qeq_bool_iff in Hz.
  set (Q := λ (_ : nat) (_ : SlotKey) (sh : Shift) (_ a : string), sh = PM → a ≠ P).
  assert (∀ slot st a, a ∈ approvedFor config (scenario slot) →
            eligibleActor slot st 0 a = true →
            Q (wi slot) (slotKey slot) (shift slot) (scenario slot) a) as HQ.
  { intros slot st a _ He Hsh ->.
    rewrite (eligibleActor_strict_pm slot st P ac r He Hsh Hac Hr) in Hz. done. }
  assert (CellsSat Q {| schedule := r_schedule generateSchedule; wa := ∅;
                        usageCount := ∅; pmCount := ∅; backtrackCount := 0 |}) as Hs.
  { unfold Scheduler.generateSchedule, Scheduler.relaxLoop.
    pose proof (backtrack_CellsSat Q 0 HQ (length allSlots) allSlots
                  freshState (freshState_CellsSat Q)) as H0.
    fold (attempt 0) in H0.
    destruct Hpath as [Hok|Hfail].
    - destruct (attempt 0) as [[ok st] rest]. simpl in Hok. subst ok. exact H0.
    - rewrite (surjective_pairing (attempt 0)), (surjective_pairing (attempt 0).1).
      rewrite (Hfail 0%nat) by set_solver.
      rewrite (surjective_pairing (attempt 1)), (surjective_pairing (attempt 1).1).
      rewrite (Hfail 1%nat) by set_solver.
      rewrite (surjective_pairing (attempt 2)), (surjective_pairing (attempt 2).1).
      rewrite (Hfail 2%nat) by set_solver.
      rewrite (surjective_pairing (attempt 3)), (surjective_pairing (attempt 3).1).
      rewrite (Hfail 3%nat) by set_solver.
      apply (fallback_CellsSat Q HQ). }
  by apply (Hs w sk PM sc P Hcell).
Qed.

Lemma generateSchedule_diagnostics d :
  d ∈ r_errors generateSchedule →
  ∃ slot st, slot ∈ allSlots ∧ getEligible slot st 0 = [] ∧
             d = diagnosticFor availability config slot st.
Proof.
  destruct generateSchedule_cases as [(relax & st & rest & _ & Ha & Hg)|[_ Hg]];
    rewrite Hg; simpl.
  - intros Hd. by apply not_elem_of_nil in Hd.
  - apply fallback_diagnostics.
Qed.



(** *** The budget *)

Lemma backtrack_count_visit n relax :
  (∀ rest st, (backtrackCount st ≤ backtrackCount (backtrack n rest st relax).1.2)%Z) →
  ∀ rest st,
    (backtrackCount st + 1 ≤ backtrackCount (backtrack (S n) rest st relax).1.2)%Z.
Proof.
  intros IH rest st.
  assert (backtrackCount st + 1 ≤ backtrackCount (bumpCount st))%Z as Hb by done.
  backtrack_cases slot remaining Hs c cs Hc; try done.
  pose proof (tryCandidates_rule (λ r s, backtrack n r s relax) slot relax
    (λ s _, (backtrackCount (bumpCount st) ≤ backtrackCount s)%Z)
    (λ s _, (backtrackCount (bumpCount st) ≤ backtrackCount s)%Z) (c :: cs)) as Hrule.
  cbv beta in Hrule.
  assert (∀ (st0 : State) (rem : list Slot) (a : string), a ∈ c :: cs →
    (backtrackCount (bumpCount st) ≤ backtrackCount st0)%Z →
    (backtrackCount (bumpCount st) ≤
       backtrackCount (undoAssign (applyAssign st0 slot a) slot a))%Z ∧
    match backtrack n rem (applyAssign st0 slot a) relax with
    | (true, st2, _) => (backtrackCount (bumpCount st) ≤ backtrackCount st2)%Z
    | (false, st2, _) =>
        (backtrackCount (bumpCount st) ≤ backtrackCount (undoAssign st2 slot a))%Z
    end) as Hstep.
  { intros st0 rem a _ Hle. split; [done|].
    specialize (IH rem (applyAssign st0 slot a)).
    rewrite backtrackCount_applyAssign in IH.
    destruct (backtrack n rem _ relax) as [[[] st2] rem2]; simpl in IH;
      rewrite ?backtrackCount_undoAssign; lia. }
  specialize (Hrule Hstep (bumpCount st) remaining (reflexivity _)).
  destruct (tryCandidates _ _ _ _ _ _) as [[[] st'] rem']; simpl in *; lia.
Qed.

Lemma backtrack_last_count relax rest st :
  backtrackCount (backtrack 1 rest st relax).1.2 = (backtrackCount st + 1)%Z.
Proof.
  backtrack_cases slot remaining Hs c cs Hc; try done.
  pose proof (tryCandidates_rule (λ r s, backtrack 0 r s relax) slot relax
    (λ s _, backtrackCount s = (backtrackCount st + 1)%Z)
    (λ s _, backtrackCount s = (backtrackCount st + 1)%Z) (c :: cs)) as Hrule.
  cbv beta in Hrule.
  assert (∀ (st0 : State) (rem : list Slot) (a : string), a ∈ c :: cs →
    backtrackCount st0 = (backtrackCount st + 1)%Z →
    backtrackCount (undoAssign (applyAssign st0 slot a) slot a)
      = (backtrackCount st + 1)%Z ∧
    match backtrack 0 rem (applyAssign st0 slot a) relax with
    | (true, st2, _) => backtrackCount st2 = (backtrackCount st + 1)%Z
    | (false, st2, _) =>
        backtrackCount (undoAssign st2 slot a) = (backtrackCount st + 1)%Z
    end) as Hstep.
  { intros st0 rem a _ Hle. split; [done|]. by rewrite backtrack_O. }
  specialize (Hrule Hstep (bumpCount st) remaining (reflexivity _)).
  by destruct (tryCandidates _ _ _ _ _ _) as [[[] st'] rem'].
Qed.

Lemma backtrack_over_budget n relax rest st :
  (50000 ≤ backtrackCount st)%Z →
  backtrack (S n) rest st relax = (false, bumpCount st, rest).
Proof.
  intros Hle. rewrite backtrack_S. cbv zeta.
  destruct (50000 <? _)%Z eqn:E; [done|].
  apply Z.ltb_ge in E. simpl in E. lia.
Qed.

Lemma backtrack_exceeded_fails n relax rest st :
  (50000 < backtrackCount (backtrack (S n) rest st relax).1.2)%Z →
  (backtrack (S n) rest st relax).1.1 = false.
Proof.
  intros Hc.
  destruct (backtrack (S n) rest st relax) as [[[] st'] rest'] eqn:E; [|done].
  apply backtrack_success_count in E. simpl in Hc. lia.
Qed.

(** C6.  Each relaxation level starts from a fresh state whose counter
    is 0; a call on an unassigned position adds one to the counter
    before anything else (a call past the last position adds nothing),
    and when that makes the counter exceed 50,000 the call fails on the
    spot; an attempt whose counter has exceeded 50,000 has failed; and
    the solver returns the first level that succeeds, or the greedy
    fallback when levels 0 to 3 all fail. *)
Theorem backtrack_budget :
  backtrackCount freshState = 0%Z ∧
  (∀ relax, attempt relax = backtrack (length allSlots) allSlots freshState relax) ∧
  (∀ rest st relax, backtrack 0 rest st relax = (true, st, rest)) ∧
  (∀ n rest st relax,
     (backtrackCount st + 1 ≤ backtrackCount (backtrack (S n) rest st relax).1.2)%Z) ∧
  (∀ rest st relax,
     backtrackCount (backtrack 1 rest st relax).1.2 = (backtrackCount st + 1)%Z) ∧
  (∀ n rest st relax,
     (50000 ≤ backtrackCount st)%Z →
     backtrack (S n) rest st relax = (false, bumpCount st, rest)) ∧
  (∀ n rest st relax,
     (50000 < backtrackCount (backtrack (S n) rest st relax).1.2)%Z →
     (backtrack (S n) rest st relax).1.1 = false) ∧
  (∀ relax,
     (50000 < backtrackCount (attempt relax).1.2)%Z → (attempt relax).1.1 = false) ∧
  generateSchedule =
    (if (attempt 0).1.1
     then {| r_schedule := schedule (attempt 0).1.2; r_errors := [] |}
     else if (attempt 1).1.1
     then {| r_schedule := schedule (attempt 1).1.2; r_errors := [] |}
     else if (attempt 2).1.1
     then {| r_schedule := schedule (attempt 2).1.2; r_errors := [] |}
     else if (attempt 3).1.1
     then {| r_schedule := schedule (attempt 3).1.2; r_errors := [] |}
     else {| r_schedule := schedule fallback.1; r_errors := fallback.2 |}).
Proof.
  split; [done|]. split; [done|]. split; [done|].
  split; [intros; apply backtrack_count_visit; intros; apply backtrack_count_mono|].
  split; [intros; apply backtrack_last_count|].
  split; [intros; by apply backtrack_over_budget|].
  split; [intros; by apply backtrack_exceeded_fails|].
  split.
  - intros relax. unfold Scheduler.attempt.
    destruct (length allSlots) as [|n]; [simpl; lia|].
    apply backtrack_exceeded_fails.
  - unfold Scheduler.generateSchedule, Scheduler.relaxLoop.
    destruct (attempt 0) as [[[] ?] ?]; [done|].
    destruct (attempt 1) as [[[] ?] ?]; [done|].
    destruct (attempt 2) as [[[] ?] ?]; [done|].
    by destruct (attempt 3) as [[[] ?] ?].
Qed.

(** *** Ranking *)

Lemma keyLe_total k1 k2 : ¬ keyLe k1 k2 → keyLe k2 k1.
Proof. unfold keyLe. lia. Qed.

Lemma keyLe_trans k1 k2 k3 : keyLe k1 k2 → keyLe k2 k3 → keyLe k1 k3.
Proof. unfold keyLe. lia. Qed.

Lemma compareCandidates_le sh st a b ka kb :
  rankKey sh st a = Some ka → rankKey sh st b = Some kb →
  (sortValue (compareCandidates weeks weekPlans availability config sh st a b) <=? 0)%Z
    = true ↔ keyLe ka kb.
Proof.
  unfold Spec.rankKey, compareCandidates, keyLe. intros Ha Hb.
  destruct (usageCount st !! a) as [ua|]; [|done].
  destruct (usageCount st !! b) as [ub|]; [|done].
  destruct (Scheduler.eligibleCount _ _ _ _ !! a) as [ea|]; [|done].
  destruct (Scheduler.eligibleCount _ _ _ _ !! b) as [eb|]; [|done].
  simpl in *. injection Ha as <-. injection Hb as <-. simpl.
  rewrite Z.leb_le.
  destruct (ua - ub =? 0)%Z eqn:Eu; simpl.
  - apply Z.eqb_eq in Eu.
    case_bool_decide; simpl.
    + destruct (prefersAM config a =? prefersAM config b)%Z eqn:Ep; simpl.
      * apply Z.eqb_eq in Ep. lia.
      * apply Z.eqb_neq in Ep. lia.
    + lia.
  - apply Z.eqb_neq in Eu. lia.
Qed.

Lemma rankedBefore_trans sh st a b c :
  rankedBefore sh st a b → rankedBefore sh st b c → rankedBefore sh st a c.
Proof.
  intros (ka & kb & Ha & Hb & Hab) (kb' & kc & Hb' & Hc & Hbc).
  assert (kb' = kb) as -> by congruence.
  exists ka, kc. eauto using keyLe_trans.
Qed.

Lemma insertBy_sorted sh st x l :
  (∀ y, y ∈ x :: l → is_Some (rankKey sh st y)) →
  StronglySorted (rankedBefore sh st) l →
  StronglySorted (rankedBefore sh st)
    (insertBy (compareCandidates weeks weekPlans availability config sh st) x l).
Proof.
  intros Hkeys Hsorted. induction Hsorted as [|y l Hl IH Hy]; simpl.
  { repeat constructor. }
  destruct (Hkeys x) as [kx Hkx]; [by left|].
  destruct (Hkeys y) as [ky Hky]; [set_solver|].
  destruct (sortValue _ <=? 0)%Z eqn:E.
  - assert (rankedBefore sh st x y) as Hxy.
    { exists kx, ky. by rewrite <- (compareCandidates_le sh st x y). }
    constructor; [by constructor|].
    constructor; [done|].
    eapply Forall_impl; [exact Hy|]. intros z Hz. by eapply rankedBefore_trans.
  - assert (rankedBefore sh st y x) as Hyx.
    { exists ky, kx. split; [done|]. split; [done|]. apply keyLe_total.
      rewrite <- (compareCandidates_le sh st x y) by done. by rewrite E. }
    constructor.
    + apply IH. intros z Hz. apply Hkeys. set_solver.
    + rewrite insertBy_perm. by constructor.
Qed.

Lemma insertBy_stable sh st (P : string → Prop) `{!∀ a, Decision (P a)} x l :
  (∀ y, y ∈ l → P x → P y →
     (sortValue (compareCandidates weeks weekPlans availability config sh st x y)
        <=? 0)%Z = true) →
  filter P (insertBy (compareCandidates weeks weekPlans availability config sh st) x l)
    = filter P (x :: l).
Proof.
  induction l as [|y l IH]; intros Htie; simpl; [done|].
  destruct (sortValue _ <=? 0)%Z eqn:E; [done|].
  rewrite filter_cons, IH by (intros; apply Htie; set_solver).
  rewrite !filter_cons.
  destruct (decide (P x)) as [Hx|?], (decide (P y)) as [Hy|?]; try done.
  rewrite Htie in E; [done|by left|done..].
Qed.

Lemma StronglySorted_lookup {A} (R : A → A → Prop) l i j a b :
  StronglySorted R l → (i < j)%nat → l !! i = Some a → l !! j = Some b → R a b.
Proof.
  intros Hs. revert i j. induction Hs as [|x l Hl IH Hx]; intros i j Hij Hi Hj.
  { done. }
  destruct j as [|j]; [lia|]. simpl in Hj.
  destruct i as [|i]; simpl in Hi.
  - injection Hi as <-. eapply Forall_forall in Hx; [done|].
    by eapply list_elem_of_lookup_2.
  - eapply (IH i j); [lia|done..].
Qed.

End Search.


(** C8.  [normalizeAvail] sends [true] and ["both"] to both, ["am"] to
    morning-only, ["pm"] to evening-only and every other value, among them
    [false], [null], [undefined] and unrecognized strings, to unavailable;
    [isAvailableForShift] holds exactly when the normalized value is both
    or is the one naming the requested shift. *)
Theorem normalizeAvail_isAvailableForShift_spec :
  normalizeAvail (AvBool true) = NBoth ∧
  normalizeAvail (AvStr "both") = NBoth ∧
  normalizeAvail (AvStr "am") = NAm ∧
  normalizeAvail (AvStr "pm") = NPm ∧
  normalizeAvail (AvBool false) = NFalse ∧
  normalizeAvail AvNull = NFalse ∧
  normalizeAvail AvUndefined = NFalse ∧
  (∀ val, val ≠ AvBool true → val ≠ AvStr "both" → val ≠ AvStr "am" →
          val ≠ AvStr "pm" → normalizeAvail val = NFalse) ∧
  (∀ val sh,
     isAvailableForShift val sh = true ↔
     normalizeAvail val = NBoth ∨ normalizeAvail val = normOfShift sh).
Proof.
  repeat split; try reflexivity.
  - intros val H1 H2 H3 H4. unfold normalizeAvail.
    assert (isTrue val = false) as -> by (destruct val as [[]| | | |]; done).
    assert (∀ s, val ≠ AvStr s → isStr val s = false) as E.
    { intros s Hs. destruct (isStr val s) eqn:Hv; [|done].
      apply isStr_true in Hv. done. }
    rewrite !E; done.
  - unfold isAvailableForShift.
    destruct (normalizeAvail val), sh; simpl; intros ?; try done; auto.
  - unfold isAvailableForShift.
    destruct (normalizeAvail val), sh; simpl; intros [?|?]; done.
Qed.

(** * The theorems at concrete inputs *)

Lemma slotX_enumerated config sh :
  defaultDays config slot1 = "Tuesday" →
  "X" ∈ slotScenarios config slot1 →
  slotX sh ∈ allSlots [marchWeek] ∅ config.
Proof.
  intros Hday Hsc. apply elem_of_allSlots. exists marchWeek.
  split; [done|]. split; [|done].
  unfold planFor. rewrite lookup_empty. unfold getDefaultWeekPlan.
  change (slotKey (slotX sh)) with slot1. unfold default. cbv beta. by rewrite Hday.
Qed.



Lemma generateSchedule_no_double_booking_witness :
  cellOf (r_schedule (generateSchedule [marchWeek] ∅ (availTuesday ["P"; "R"]) cfgPair))
    0 slot1 AM "X" = Some (Some "P") ∧
  (slot1 = slot1 ∧ "X" = "X").
Proof.
  assert (cellOf (r_schedule (generateSchedule [marchWeek] ∅
            (availTuesday ["P"; "R"]) cfgPair)) 0 slot1 AM "X" = Some (Some "P")) as Hc
    by (vm_compute; reflexivity).
  split; [exact Hc|].
  exact (generateSchedule_no_double_booking [marchWeek] ∅ (availTuesday ["P"; "R"])
           cfgPair 0 AM slot1 "X" slot1 "X" "P" Hc Hc).
Defined.

Lemma generateSchedule_conflicts_respected_witness :
  r_errors (generateSchedule [marchWeek] ∅ (availTuesday ["P"; "R"]) cfgConflict) = [] ∧
  ¬ (cellOf (r_schedule (generateSchedule [marchWeek] ∅ (availTuesday ["P"; "R"])
               cfgConflict)) 0 slot1 AM "X" = Some (Some "P") ∧
     cellOf (r_schedule (generateSchedule [marchWeek] ∅ (availTuesday ["P"; "R"])
               cfgConflict)) 0 slot1 AM "Y" = Some (Some "P")).
Proof.
  split; [vm_compute; reflexivity|].
  apply (generateSchedule_conflicts_respected [marchWeek] ∅ (availTuesday ["P"; "R"])
           cfgConflict {| scope := "same_shift"; actor_cannot_play := ["X"; "Y"] |}
           0 AM slot1 "X" slot1 "Y" "P").
  - vm_compute. reflexivity.
  - simpl. apply list_elem_of_singleton. reflexivity.
  - reflexivity.
  - simpl. set_solver.
  - simpl. set_solver.
  - discriminate.
Defined.

(** C4.  The only approved person has [maxPMRatio] 0; level 0 fails,
    level 1 ignores the cap and puts that person in the PM cell. *)
Lemma pm_zero_assigned_evening :
  actorConstraints cfgSolo !! "P" = Some pmZero ∧
  maxPMRatio pmZero = Some 0%Q ∧
  cellOf (r_schedule (generateSchedule [marchWeek] ∅ (availTuesday ["P"]) cfgSolo))
    0 slot1 PM "X" = Some (Some "P").
Proof. repeat split; vm_compute; reflexivity. Qed.

Lemma generateSchedule_pm_zero_strict_witness :
  (attempt [marchWeek] ∅ (availTuesday ["P"; "R"]) cfgPair 0).1.1 = true ∧
  cellOf (r_schedule (generateSchedule [marchWeek] ∅ (availTuesday ["P"; "R"]) cfgPair))
    0 slot1 PM "X" ≠ Some (Some "P").
Proof.
  assert ((attempt [marchWeek] ∅ (availTuesday ["P"; "R"]) cfgPair 0).1.1 = true) as Hok
    by (vm_compute; reflexivity).
  split; [exact Hok|].
  apply (generateSchedule_pm_zero_strict [marchWeek] ∅ (availTuesday ["P"; "R"])
           cfgPair "P" pmZero 0%Q 0 slot1 "X").
  - vm_compute. reflexivity.
  - reflexivity.
  - reflexivity.
  - left. exact Hok.
Defined.


Lemma backtrack_budget_witness :
  (50000 ≤ backtrackCount spentState)%Z ∧
  backtrack [marchWeek] ∅ (availTuesday ["P"]) cfgSolo 1 [slotX AM] spentState 0 =
    (false, bumpCount spentState, [slotX AM]).
Proof.
  split; [vm_compute; discriminate|].
  destruct (backtrack_budget [marchWeek] ∅ (availTuesday ["P"]) cfgSolo)
    as (_ & _ & _ & _ & _ & Hover & _).
  apply Hover. vm_compute. discriminate.
Defined.


Lemma normalizeAvail_isAvailableForShift_spec_witness :
  normalizeAvail (AvNum 3) = NFalse ∧
  (isAvailableForShift (AvStr "am") AM = true ↔
   normalizeAvail (AvStr "am") = NBoth ∨ normalizeAvail (AvStr "am") = normOfShift AM).
Proof.
  destruct normalizeAvail_isAvailableForShift_spec
    as (_ & _ & _ & _ & _ & _ & _ & Hother & Havail).
  split; [apply Hother; discriminate|apply Havail].
Defined.




(** * Further properties *)

(** ** More on the slot array *)

Lemma swap_swap {A} (l : list A) i j : swap (swap l i j) i j = l.
Proof.
  unfold swap at 2.
  destruct (l !! i) as [x|] eqn:Hi; [|unfold swap; by rewrite Hi].
  destruct (l !! j) as [y|] eqn:Hj; [|unfold swap; by rewrite Hi, Hj].
  pose proof (lookup_lt_Some _ _ _ Hi) as Hli.
  pose proof (lookup_lt_Some _ _ _ Hj) as Hlj.
  destruct (decide (i = j)) as [->|Hne].
  - assert (x = y) as -> by congruence.
    rewrite list_insert_insert_eq, list_insert_id by done.
    unfold swap. rewrite Hj. by rewrite list_insert_insert_eq, list_insert_id.
  - unfold swap.
    rewrite (list_lookup_insert_ne _ j i) by done.
    rewrite list_lookup_insert_eq by done.
    rewrite list_lookup_insert_eq by (by rewrite length_insert).
    apply list_eq. intros k.
    destruct (decide (k = j)) as [->|Hkj].
    { rewrite list_lookup_insert_eq by (by rewrite !length_insert). done. }
    rewrite list_lookup_insert_ne by done.
    destruct (decide (k = i)) as [->|Hki].
    { rewrite list_lookup_insert_eq by (by rewrite !length_insert). done. }
    by rewrite !list_lookup_insert_ne by done.
Qed.

Lemma swap_head {A} (l : list A) k x rest y :
  swap l 0 k = x :: rest → l !! k = Some y → x = y.
Proof.
  unfold swap. intros Hs Hk. rewrite Hk in Hs.
  destruct l as [|z l]; [done|]. simpl in Hs.
  destruct k as [|k]; simpl in *; congruence.
Qed.

Lemma swap_nil_inv {A} (l : list A) i j : swap l i j = [] → l = [].
Proof.
  intros Hs. apply Permutation_nil_r. rewrite <- Hs. symmetry. apply swap_perm.
Qed.

(** ** The search depends on the candidate filter only *)

Section Congruence.
Context `{!Host}.
Variable weeks : list (list WeekDay).
Variable weekPlans : gmap nat WeekPlan.
Variable availability : gmap string (gmap string AvailValue).
Variables (c1 c2 : Config) (r1 r2 : nat).
Hypothesis Hel : ∀ slot st,
  getEligible availability c1 slot st r1 = getEligible availability c2 slot st r2.
Hypothesis Hrank : ∀ l sh st,
  rankCandidates weeks weekPlans availability c1 l sh st =
  rankCandidates weeks weekPlans availability c2 l sh st.

Lemma mrvLoop_cong st i l idx cnt :
  mrvLoop availability c1 st r1 i l idx cnt = mrvLoop availability c2 st r2 i l idx cnt.
Proof.
  revert i idx cnt. induction l as [|s l IH]; intros i idx cnt; [done|].
  simpl. rewrite Hel. destruct (match cnt with Some _ => _ | None => _ end); apply IH.
Qed.

Lemma forwardOk_cong rem st :
  forwardOk availability c1 rem st r1 = forwardOk availability c2 rem st r2.
Proof.
  unfold forwardOk. induction rem as [|s rem IH]; [done|].
  simpl. by rewrite Hel, IH.
Qed.

Lemma tryCandidates_cong rec1 rec2 slot cands :
  (∀ rem st, rec1 rem st = rec2 rem st) →
  ∀ st rem,
    tryCandidates availability c1 rec1 slot r1 cands st rem =
    tryCandidates availability c2 rec2 slot r2 cands st rem.
Proof.
  intros Hrec. induction cands as [|a more IH]; intros st rem; [done|].
  rewrite !tryCandidates_cons. cbv zeta.
  rewrite forwardOk_cong, Hrec.
  destruct (forwardOk _ _ _ _ _); [|apply IH].
  destruct (rec2 rem _) as [[[] st2] rem2]; [done|apply IH].
Qed.

Lemma backtrack_cong n rest st :
  backtrack weeks weekPlans availability c1 n rest st r1 =
  backtrack weeks weekPlans availability c2 n rest st r2.
Proof.
  revert rest st. induction n as [|n IH]; intros rest st; [done|].
  rewrite !backtrack_S. cbv zeta.
  destruct (50000 <? _)%Z; [done|].
  unfold mrvScan. rewrite mrvLoop_cong.
  destruct (swap rest 0 _) as [|slot remaining]; [done|].
  rewrite Hel, Hrank.
  destruct (rankCandidates _ _ _ c2 _ _ _) as [|c cs]; [done|].
  by rewrite (tryCandidates_cong _ (λ r s, backtrack weeks weekPlans availability c2 n r s r2)).
Qed.
End Congruence.

(** ** Further facts about the search *)

Section SearchFacts.
Context `{!Host}.
Variable weeks : list (list WeekDay).
Variable weekPlans : gmap nat WeekPlan.
Variable availability : gmap string (gmap string AvailValue).
Variable config : Config.

#[local] Abbreviation getEligible := (Scheduler.getEligible availability config).
#[local] Abbreviation eligibleActor := (Scheduler.eligibleActor availability config).
#[local] Abbreviation rankCandidates :=
  (Scheduler.rankCandidates weeks weekPlans availability config).
#[local] Abbreviation tryCandidates := (Scheduler.tryCandidates availability config).
#[local] Abbreviation backtrack := (Scheduler.backtrack weeks weekPlans availability config).
#[local] Abbreviation allSlots := (Scheduler.allSlots weeks weekPlans config).
#[local] Abbreviation freshState := (Scheduler.freshState weeks weekPlans config).
#[local] Abbreviation attempt := (Scheduler.attempt weeks weekPlans availability config).
#[local] Abbreviation relaxLoop := (Scheduler.relaxLoop weeks weekPlans availability config).
#[local] Abbreviation fallback := (Scheduler.fallback weeks weekPlans availability config).
#[local] Abbreviation fallbackStep := (Scheduler.fallbackStep weeks weekPlans availability config).
#[local] Abbreviation generateSchedule :=
  (Scheduler.generateSchedule weeks weekPlans availability config).
#[local] Abbreviation fallbackOrder := (Spec.fallbackOrder weeks weekPlans availability config).
#[local] Abbreviation explainElim := (Scheduler.explainElim availability config).
#[local] Abbreviation mrvScan := (Scheduler.mrvScan availability config).

Ltac backtrack_cases slot remaining Hs c cs Hc :=
  rewrite backtrack_S; cbv zeta;
  destruct (50000 <? _)%Z eqn:Hbudget;
  [ | destruct (swap _ 0 _) as [|slot remaining] eqn:Hs;
      [ | destruct (Scheduler.rankCandidates _ _ _ _ _ _ _) as [|c cs] eqn:Hc ] ].

(** *** The conflict rules *)

Lemma eligibleActor_withConflicts rules slot st relax a :
  Scheduler.eligibleActor availability (withConflicts config rules) slot st relax a =
  eligibleActor slot st relax a.
Proof.
  unfold Scheduler.eligibleActor. cbv zeta.
  destruct (negb _); [done|].
  destruct (alreadyUsed _ _ _) eqn:Hu; [done|].
  by rewrite !hasConflict_unused by done.
Qed.

Lemma getEligible_withConflicts rules slot st relax :
  Scheduler.getEligible availability (withConflicts config rules) slot st relax =
  getEligible slot st relax.
Proof.
  unfold Scheduler.getEligible.
  change (approvedFor (withConflicts config rules) (scenario slot))
    with (approvedFor config (scenario slot)).
  induction (approvedFor config (scenario slot)) as [|a l IH]; [done|].
  simpl. by rewrite eligibleActor_withConflicts, IH.
Qed.

Lemma explainElim_withConflicts rules actor slot st :
  Scheduler.explainElim availability (withConflicts config rules) actor slot st =
  explainElim actor slot st.
Proof.
  unfold Scheduler.explainElim. cbv zeta.
  destruct (negb _); [done|].
  destruct (alreadyUsed _ _ _) eqn:Hu; [done|].
  by rewrite !hasConflict_unused by done.
Qed.

Lemma fallbackStep_withConflicts rules acc slot :
  Scheduler.fallbackStep weeks weekPlans availability (withConflicts config rules) acc slot =
  fallbackStep acc slot.
Proof.
  unfold Scheduler.fallbackStep. destruct acc as [st errors].
  rewrite getEligible_withConflicts.
  change (Scheduler.rankCandidates weeks weekPlans availability (withConflicts config rules))
    with rankCandidates.
  destruct (rankCandidates _ _ _); [|done].
  do 2 f_equal. unfold diagnosticFor. cbv zeta.
  change (approvedFor (withConflicts config rules) (scenario slot))
    with (approvedFor config (scenario slot)).
  assert (eliminationsFor availability (withConflicts config rules)
            (approvedFor config (scenario slot)) slot st =
          eliminationsFor availability config
            (approvedFor config (scenario slot)) slot st) as ->; [|done].
  unfold eliminationsFor.
  induction (approvedFor config (scenario slot)) as [|a l IH]; [done|].
  change ((a :: l) ≫= ?f) with (f a ++ (l ≫= f)).
  by rewrite IH, explainElim_withConflicts.
Qed.

(** X: the conflict rules have no influence on the result. *)
Theorem generateSchedule_ignores_conflicts rules :
  Scheduler.generateSchedule weeks weekPlans availability (withConflicts config rules) =
  generateSchedule.
Proof.
  assert (∀ relax,
    Scheduler.attempt weeks weekPlans availability (withConflicts config rules) relax =
    attempt relax) as Hatt.
  { intros relax. unfold Scheduler.attempt.
    change (Scheduler.allSlots weeks weekPlans (withConflicts config rules)) with allSlots.
    change (Scheduler.freshState weeks weekPlans (withConflicts config rules))
      with freshState.
    apply backtrack_cong; [|done].
    intros slot st. apply getEligible_withConflicts. }
  assert (Scheduler.fallback weeks weekPlans availability (withConflicts config rules) =
          fallback) as Hfb.
  { rewrite !fallback_flat.
    change (Spec.fallbackOrder weeks weekPlans availability (withConflicts config rules))
      with fallbackOrder.
    change (Scheduler.freshState weeks weekPlans (withConflicts config rules))
      with freshState.
    apply foldl_pointwise. intros acc s. apply fallbackStep_withConflicts. }
  unfold Scheduler.generateSchedule, Scheduler.relaxLoop.
  by rewrite !Hatt, Hfb.
Qed.

(** *** Relaxation levels *)

Lemma eligibleActor_level3 slot st a :
  eligibleActor slot st 3 a = eligibleActor slot st 2 a.
Proof.
  unfold Scheduler.eligibleActor. cbv zeta.
  destruct (negb _); [done|].
  destruct (alreadyUsed _ _ _) eqn:Hu; [done|].
  by rewrite !hasConflict_unused by done.
Qed.

(** X: the pass at level 3 repeats the pass at level 2. *)
Theorem attempt_level3 : attempt 3 = attempt 2.
Proof.
  unfold Scheduler.attempt. apply backtrack_cong; [|done].
  intros slot st. unfold Scheduler.getEligible.
  induction (approvedFor config (scenario slot)) as [|a l IH]; [done|].
  simpl. by rewrite eligibleActor_level3, IH.
Qed.

(** X: no elimination reason is the conflict text. *)
Theorem explainElim_never_conflict actor slot st :
  explainElim actor slot st ≠ Some "Conflict rule with already-assigned scenario".
Proof.
  unfold Scheduler.explainElim. cbv zeta.
  destruct (negb _).
  { destruct (normalizeAvail _); simpl; discriminate. }
  destruct (alreadyUsed _ _ _) eqn:Hu.
  { destruct (shift slot); simpl; discriminate. }
  rewrite !hasConflict_unused by done.
  destruct (dayNotAllowed _ _); [simpl; discriminate|].
  destruct (shift slot); [done|].
  destruct (_ ≫= maxPMRatio) as [r|]; [|done].
  destruct (Qeq_bool r 0); [simpl; discriminate|].
  destruct (pmRatioReached _ _ _); [simpl; discriminate|done].
Qed.

(** *** The choice of the next slot *)

Lemma mrvLoop_spec st relax l : ∀ pre idx c x,
  pre !! idx = Some x →
  length (getEligible x st relax) = c →
  (∀ j y, pre !! j = Some y →
     (c ≤ length (getEligible y st relax))%nat ∧
     ((j < idx)%nat → (c < length (getEligible y st relax))%nat)) →
  ∃ z, (pre ++ l) !! mrvLoop availability config st relax (length pre) l idx (Some c)
         = Some z ∧
       ∀ j y, (pre ++ l) !! j = Some y →
         (length (getEligible z st relax) ≤ length (getEligible y st relax))%nat ∧
         ((j < mrvLoop availability config st relax (length pre) l idx (Some c))%nat →
          (length (getEligible z st relax) < length (getEligible y st relax))%nat).
Proof.
  induction l as [|s l IH]; intros pre idx c x Hx Hc Hmin.
  - simpl. rewrite app_nil_r. exists x. split; [done|]. by rewrite Hc.
  - simpl.
    pose proof (lookup_lt_Some _ _ _ Hx) as Hidx.
    replace (pre ++ s :: l) with ((pre ++ [s]) ++ l) by (by rewrite <- app_assoc).
    replace (S (length pre)) with (length (pre ++ [s]))
      by (rewrite length_app; simpl; lia).
    destruct (length (getEligible s st relax) <? c)%nat eqn:Hlt.
    + apply Nat.ltb_lt in Hlt.
      apply (IH (pre ++ [s]) (length pre) _ s).
      * by rewrite lookup_app_r, Nat.sub_diag by lia.
      * done.
      * intros j y Hy. apply lookup_snoc_Some in Hy as [[Hj Hy]|[-> <-]].
        -- destruct (Hmin j y Hy). lia.
        -- lia.
    + apply Nat.ltb_ge in Hlt.
      apply (IH (pre ++ [s]) idx c x).
      * by rewrite lookup_app_l.
      * done.
      * intros j y Hy. apply lookup_snoc_Some in Hy as [[Hj Hy]|[-> <-]].
        -- by apply Hmin.
        -- lia.
Qed.

(** X: the slot chosen for expansion is the first with the fewest candidates. *)
Theorem mrvScan_first_minimum rest st relax :
  rest ≠ [] →
  ∃ z, rest !! mrvScan rest st relax = Some z ∧
       ∀ j y, rest !! j = Some y →
         (length (getEligible z st relax) ≤ length (getEligible y st relax))%nat ∧
         ((j < mrvScan rest st relax)%nat →
          (length (getEligible z st relax) < length (getEligible y st relax))%nat).
Proof.
  destruct rest as [|s l]; [done|]. intros _.
  unfold Scheduler.mrvScan. simpl.
  apply (mrvLoop_spec st relax l [s] 0%nat _ s); [done..|].
  intros [|j] y Hy; [|done]. injection Hy as <-. lia.
Qed.

Lemma getEligible_bumpCount slot st relax :
  getEligible slot (bumpCount st) relax = getEligible slot st relax.
Proof. reflexivity. Qed.

(** X: a slot without candidates ends the call after one expansion,
    with the array and the state (counter apart) untouched. *)
Theorem backtrack_dead_end n rest st relax s :
  s ∈ rest → getEligible s st relax = [] →
  backtrack (S n) rest st relax = (false, bumpCount st, rest).
Proof.
  intros Hs He.
  backtrack_cases slot remaining Hsw c cs Hc; [done| |by rewrite <- Hsw, swap_swap|].
  { apply swap_nil_inv in Hsw. subst. by apply not_elem_of_nil in Hs. }
  exfalso.
  destruct (mrvScan_first_minimum rest (bumpCount st) relax) as (z & Hz & Hmin).
  { intros ->. by apply not_elem_of_nil in Hs. }
  pose proof (swap_head _ _ _ _ _ Hsw Hz) as ->.
  apply list_elem_of_lookup in Hs as [j Hj].
  destruct (Hmin j s Hj) as [Hle _].
  rewrite !getEligible_bumpCount in Hle. rewrite He in Hle. simpl in Hle.
  assert (getEligible z (bumpCount st) relax = []) as Hz0.
  { rewrite getEligible_bumpCount. apply nil_length_inv. lia. }
  by rewrite Hz0 in Hc.
Qed.

(** *** Undoing *)

Lemma alter_pred_succ (m : gmap string Z) a :
  alter Z.pred a (alter Z.succ a m) = m.
Proof.
  apply map_eq. intros k.
  destruct (decide (k = a)) as [->|Hk].
  - rewrite !lookup_alter_eq. destruct (m !! a) as [z|]; simpl; [|done].
    f_equal. lia.
  - by rewrite !lookup_alter_ne.
Qed.

Lemma tallies_undo_apply st0 slot a st2 :
  usageCount st2 = usageCount (applyAssign st0 slot a) →
  pmCount st2 = pmCount (applyAssign st0 slot a) →
  usageCount (undoAssign st2 slot a) = usageCount st0 ∧
  pmCount (undoAssign st2 slot a) = pmCount st0.
Proof.
  unfold undoAssign, applyAssign. simpl. intros -> ->.
  split; [apply alter_pred_succ|].
  destruct (shift slot); [done|apply alter_pred_succ].
Qed.

(** X: a failed call leaves the slot array in its order, the tallies and
    the usage sets as they were, and fills no new cell. *)
Theorem backtrack_failure_restores n rest st relax st' rest' :
  backtrack n rest st relax = (false, st', rest') →
  rest' = rest ∧ usageCount st' = usageCount st ∧ pmCount st' = pmCount st ∧
  SameUsage st st' ∧ Shrinks st st'.
Proof.
  revert rest st st' rest'.
  induction n as [|n IH]; intros rest st st' rest'; [done|].
  backtrack_cases slot remaining Hs c cs Hc.
  - intros [= <- <-]. split; [done|]. split; [done|]. split; [done|].
    split; [by intros ???|by intros ??????].
  - intros [= <- <-]. split; [done|]. split; [done|]. split; [done|].
    split; [by intros ???|by intros ??????].
  - intros [= <- <-]. split; [by rewrite <- Hs, swap_swap|].
    split; [done|]. split; [done|].
    split; [by intros ???|by intros ??????].
  - pose proof (tryCandidates_rule availability config
      (λ r s, backtrack n r s relax) slot relax
      (λ s rem, rem = remaining ∧ usageCount s = usageCount st ∧
                pmCount s = pmCount st ∧ SameUsage st s ∧ Shrinks st s)
      (λ _ _, True) (c :: cs)) as Hrule.
    cbv beta in Hrule.
    assert (∀ (st0 : State) (rem : list Slot) (a : string), a ∈ c :: cs →
      rem = remaining ∧ usageCount st0 = usageCount st ∧
        pmCount st0 = pmCount st ∧ SameUsage st st0 ∧ Shrinks st st0 →
      (rem = remaining ∧
       usageCount (undoAssign (applyAssign st0 slot a) slot a) = usageCount st ∧
       pmCount (undoAssign (applyAssign st0 slot a) slot a) = pmCount st ∧
       SameUsage st (undoAssign (applyAssign st0 slot a) slot a) ∧
       Shrinks st (undoAssign (applyAssign st0 slot a) slot a)) ∧
      match backtrack n rem (applyAssign st0 slot a) relax with
      | (true, _, _) => True
      | (false, st2, rem2) =>
          rem2 = remaining ∧ usageCount (undoAssign st2 slot a) = usageCount st ∧
          pmCount (undoAssign st2 slot a) = pmCount st ∧
          SameUsage st (undoAssign st2 slot a) ∧ Shrinks st (undoAssign st2 slot a)
      end) as Hstep.
    { intros st0 rem a Ha (-> & HU0 & HP0 & HS0 & HK0).
      destruct (ranked_eligible weeks weekPlans availability config
                  _ _ _ _ _ _ Hc Ha) as [_ Hel].
      apply eligibleActor_unused in Hel.
      assert (usedSet st0 (wi slot) (shift slot) a = []) as Hfree.
      { rewrite HS0. exact Hel. }
      assert (∀ st2 rem2, rem2 = remaining →
                usageCount st2 = usageCount (applyAssign st0 slot a) →
                pmCount st2 = pmCount (applyAssign st0 slot a) →
                SameUsage (applyAssign st0 slot a) st2 →
                Shrinks (applyAssign st0 slot a) st2 →
                rem2 = remaining ∧ usageCount (undoAssign st2 slot a) = usageCount st ∧
                pmCount (undoAssign st2 slot a) = pmCount st ∧
                SameUsage st (undoAssign st2 slot a) ∧
                Shrinks st (undoAssign st2 slot a)) as Hback.
      { intros st2 rem2 -> HU2 HP2 HS2 HK2.
        destruct (tallies_undo_apply st0 slot a st2 HU2 HP2) as [-> ->].
        destruct (undoAssign_restores st0 slot a st2 Hfree HK2 HS2) as [HK3 HS3].
        split; [done|]. split; [done|]. split; [done|].
        split; [by eapply SameUsage_trans|by eapply Shrinks_trans]. }
      split.
      { apply Hback; [done..|apply SameUsage_refl|apply Shrinks_refl]. }
      destruct (backtrack n remaining _ relax) as [[[] st2] rem2] eqn:E; [done|].
      apply IH in E as (-> & HU2 & HP2 & HS2 & HK2). by apply Hback. }
    specialize (Hrule Hstep (bumpCount st) remaining).
    destruct (tryCandidates _ _ _ _ _ _) as [[[] st1] rem1]; [done|].
    intros [= <- <-].
    destruct Hrule as (-> & HU & HP & HS & HK).
    { split; [done|]. split; [done|]. split; [done|].
      split; [by intros ???|by intros ??????]. }
    split; [by rewrite <- Hs, swap_swap|]. done.
Qed.

(** *** Relaxation levels widen the candidate lists *)

Lemma eligibleActor_mono slot st r r' a :
  (r ≤ r')%nat → eligibleActor slot st r a = true → eligibleActor slot st r' a = true.
Proof.
  unfold Scheduler.eligibleActor. cbv zeta. intros Hle.
  destruct (negb _); [done|].
  destruct (alreadyUsed _ _ _) eqn:Hu; [done|].
  rewrite !hasConflict_unused by done. rewrite !andb_false_r.
  destruct r as [|[|r]], r' as [|[|r']]; try lia;
    cbn [Nat.ltb Nat.leb andb];
    repeat (match goal with
            | |- context [if ?b then _ else _] => destruct b
            end); done.
Qed.

Lemma filter_sublist_impl {A} (f g : A → bool) l :
  (∀ x, f x = true → g x = true) → List.filter f l `sublist_of` List.filter g l.
Proof.
  intros Hfg. induction l as [|x l IH]; [done|]. simpl.
  destruct (f x) eqn:Hf.
  - rewrite (Hfg x Hf). by apply sublist_skip.
  - destruct (g x); [by apply sublist_cons|done].
Qed.

(** X: raising the relaxation level only adds candidates. *)
Theorem getEligible_relax_mono slot st r r' :
  (r ≤ r')%nat → getEligible slot st r `sublist_of` getEligible slot st r'.
Proof.
  intros Hle. apply filter_sublist_impl. intros a. by apply eligibleActor_mono.
Qed.

(** X: assignment followed by its undo. *)
Theorem undoAssign_applyAssign st slot a relax :
  eligibleActor slot st relax a = true →
  cellOf (schedule st) (wi slot) (slotKey slot) (shift slot) (scenario slot) = Some None →
  (∀ w sk sh sc,
     cellOf (schedule (undoAssign (applyAssign st slot a) slot a)) w sk sh sc =
     cellOf (schedule st) w sk sh sc) ∧
  (∀ w sh b, usedSet (undoAssign (applyAssign st slot a) slot a) w sh b =
             usedSet st w sh b) ∧
  usageCount (undoAssign (applyAssign st slot a) slot a) = usageCount st ∧
  pmCount (undoAssign (applyAssign st slot a) slot a) = pmCount st ∧
  backtrackCount (undoAssign (applyAssign st slot a) slot a) = backtrackCount st.
Proof.
  intros Hel Hcell.
  apply eligibleActor_unused in Hel.
  split; [|split].
  - intros w sk sh sc. rewrite schedule_undoAssign, schedule_applyAssign.
    destruct (decide ((wi slot, slotKey slot, shift slot, scenario slot) = (w, sk, sh, sc)))
      as [E|Hne].
    + injection E as <- <- <- <-. rewrite Hcell.
      apply cellOf_setCell_same. apply hasDay_setCell. by eapply cellOf_hasDay.
    + by rewrite !cellOf_setCell_other by done.
  - intros w sh b. rewrite usedSet_undoAssign, usedSet_applyAssign.
    case_decide as Hk; [|done]. destruct Hk as (-> & -> & ->).
    rewrite Hel. apply setDelete_setAdd_nil.
  - destruct (tallies_undo_apply st slot a (applyAssign st slot a) eq_refl eq_refl)
      as [-> ->]. done.
Qed.

(** *** Invariants of the whole run *)

Lemma SameShape_refl s : SameShape s s.
Proof. by split; [|split]. Qed.

Lemma SameShape_trans s1 s2 s3 : SameShape s1 s2 → SameShape s2 s3 → SameShape s1 s3.
Proof.
  intros (Ha & Hb & Hc) (Ha' & Hb' & Hc'). split; [|split].
  - intros w. etrans; [apply Ha'|apply Ha].
  - intros w sk. by rewrite Hb', Hb.
  - intros w sk sh sc. etrans; [apply Hc'|apply Hc].
Qed.

Lemma SameShape_setCell sched w sk sh sc v :
  is_Some (cellOf sched w sk sh sc) → SameShape sched (setCell sched w sk sh sc v).
Proof.
  intros Hcell. split; [|split].
  - intros w'. unfold setCell.
    destruct (decide (w = w')) as [<-|Hw]; [|by rewrite lookup_alter_ne].
    rewrite lookup_alter_eq. by rewrite fmap_is_Some.
  - intros w' sk'. unfold dayOf, setCell.
    destruct (decide (w = w')) as [<-|Hw]; [|by rewrite lookup_alter_ne].
    rewrite lookup_alter_eq.
    destruct (sched !! w) as [ws|]; simpl; [|done].
    destruct (decide (sk = sk')) as [<-|Hsk]; [|by rewrite fn_lookup_insert_ne].
    rewrite fn_lookup_insert. destruct (ws sk) as [d|]; simpl; [|done].
    by destruct sh.
  - intros w' sk' sh' sc'.
    destruct (decide ((w, sk, sh, sc) = (w', sk', sh', sc'))) as [E|Hne].
    + injection E as <- <- <- <-.
      rewrite cellOf_setCell_same; [by split|].
      destruct Hcell as [c Hc]. by eapply cellOf_hasDay.
    + by rewrite cellOf_setCell_other.
Qed.

(** A property of states that the counter does not affect, that holds
    when a candidate is assigned to a slot of the list and when an
    assignment to such a slot is undone, holds after the search. *)
Lemma backtrack_invariant (P : State → Prop) relax :
  (∀ st, P st → P (bumpCount st)) →
  ∀ n rest st,
    (∀ st st1 slot a, slot ∈ rest → a ∈ approvedFor config (scenario slot) →
       eligibleActor slot st1 relax a = true → P st → P (applyAssign st slot a)) →
    (∀ st slot a, slot ∈ rest → P st → P (undoAssign st slot a)) →
    P st → P (backtrack n rest st relax).1.2.
Proof.
  intros Hbump n. induction n as [|n IH]; intros rest st Happ Hundo Hst; [done|].
  apply Hbump in Hst.
  backtrack_cases slot remaining Hs c cs Hc; try done.
  assert (slot :: remaining ≡ₚ rest) as Hp by (rewrite <- Hs; apply swap_perm).
  assert (slot ∈ rest) as Hslot by (rewrite <- Hp; by left).
  pose proof (tryCandidates_rule availability config
    (λ r s, backtrack n r s relax) slot relax
    (λ s rem, P s ∧ rem ≡ₚ remaining) (λ s _, P s) (c :: cs)) as Hrule.
  cbv beta in Hrule.
  assert (∀ (st0 : State) (rem : list Slot) (a : string), a ∈ c :: cs →
    P st0 ∧ rem ≡ₚ remaining →
    (P (undoAssign (applyAssign st0 slot a) slot a) ∧ rem ≡ₚ remaining) ∧
    match backtrack n rem (applyAssign st0 slot a) relax with
    | (true, st2, _) => P st2
    | (false, st2, rem2) => P (undoAssign st2 slot a) ∧ rem2 ≡ₚ remaining
    end) as Hstep.
  { intros st0 rem a Ha [H0 Hrem].
    destruct (ranked_eligible weeks weekPlans availability config
                _ _ _ _ _ _ Hc Ha) as [Hap Hel].
    assert (P (applyAssign st0 slot a)) as H1 by (by eapply Happ).
    split; [split; [by apply Hundo|done]|].
    assert (∀ s, s ∈ rem → s ∈ rest) as Hsub.
    { intros s Hin. rewrite <- Hp, <- Hrem. by right. }
    pose proof (backtrack_perm weeks weekPlans availability config
                  n relax rem (applyAssign st0 slot a)) as Hperm.
    specialize (IH rem (applyAssign st0 slot a)).
    destruct (backtrack n rem _ relax) as [[ok st2] rem2]. simpl in *.
    assert (P st2) as H2.
    { apply IH; [|by eauto|done]. intros ?????. by eauto. }
    destruct ok; [done|]. split; [by apply Hundo|by rewrite Hperm]. }
  specialize (Hrule Hstep (bumpCount st) remaining (conj Hst (reflexivity _))).
  destruct (tryCandidates _ _ _ _ _ _) as [[[] st'] rem']; simpl; [done|apply Hrule].
Qed.

Lemma fallback_invariant (P : State → Prop) :
  (∀ st st1 slot a, slot ∈ allSlots → a ∈ approvedFor config (scenario slot) →
     eligibleActor slot st1 0 a = true → P st → P (applyAssign st slot a)) →
  P freshState → P fallback.1.
Proof.
  intros Happ H0. rewrite fallback_flat.
  apply (fallback_rule weeks weekPlans availability config (λ _ acc, P acc.1));
    [done|].
  intros _ [st errors] s Hs Hst. simpl in Hst.
  destruct (fallbackStep_cases weeks weekPlans availability config st errors s)
    as [[_ ->]|(a & Ha & He & ->)]; [done|].
  simpl. eapply Happ; [|done..].
  by rewrite <- (fallbackOrder_perm weeks weekPlans availability config).
Qed.

(** The returned schedule is the schedule of a state reached from the
    fresh one by assigning candidates to enumerated slots and undoing. *)
Lemma generateSchedule_invariant (P : State → Prop) :
  (∀ st, P st → P (bumpCount st)) →
  (∀ relax st st1 slot a, slot ∈ allSlots → a ∈ approvedFor config (scenario slot) →
     eligibleActor slot st1 relax a = true → P st → P (applyAssign st slot a)) →
  (∀ st slot a, slot ∈ allSlots → P st → P (undoAssign st slot a)) →
  P freshState →
  ∃ st, r_schedule generateSchedule = schedule st ∧ P st.
Proof.
  intros Hbump Happ Hundo H0.
  destruct (generateSchedule_cases weeks weekPlans availability config)
    as [(relax & st & rest & _ & Ha & Hg)|[_ Hg]]; rewrite Hg; simpl.
  - exists st. split; [done|].
    pose proof (backtrack_invariant P relax Hbump (length allSlots) allSlots
                  freshState (Happ relax) Hundo H0) as Hs.
    unfold Scheduler.attempt in Ha. by rewrite Ha in Hs.
  - exists fallback.1. split; [done|]. apply fallback_invariant; [|done]. apply Happ.
Qed.

Lemma cellOf_skeleton_is_Some w sk sh sc :
  is_Some (cellOf (skeleton weeks weekPlans config) w sk sh sc) ↔
  ∃ week d, weeks !! w = Some week ∧
    activeDate (planFor weekPlans config w week sk) = Some d ∧
    sc ∈ slotScenarios config sk.
Proof.
  unfold cellOf. rewrite lookup_skeleton.
  destruct (weeks !! w) as [week|]; simpl; [|split; [by intros []|by intros (?&?&?&_)]].
  unfold weekSkeleton.
  destruct (activeDate _) as [d|] eqn:Hd; simpl;
    [|split; [by intros []|intros (?&?&[= <-]&?&_); congruence]].
  assert (is_Some (nullCells (slotScenarios config sk) !! sc) ↔
          sc ∈ slotScenarios config sk) as Hnull.
  { split.
    - intros [v Hv]. unfold nullCells in Hv. apply elem_of_list_to_map_2 in Hv.
      apply list_elem_of_fmap in Hv as (x & [= -> _] & Hx). done.
    - intros Hin. exists None. by apply lookup_nullCells_elem. }
  destruct sh; simpl; rewrite Hnull; split; try (intros ?; by eauto);
    by intros (?&?&_&_&?).
Qed.

Lemma generateSchedule_SameShape :
  SameShape (skeleton weeks weekPlans config) (r_schedule generateSchedule).
Proof.
  destruct (generateSchedule_invariant
    (λ st, SameShape (skeleton weeks weekPlans config) (schedule st)))
    as (st & -> & Hst); [done| | |apply SameShape_refl|done].
  - intros _ st _ slot a Hs _ _ Hst. eapply SameShape_trans; [done|].
    rewrite schedule_applyAssign. apply SameShape_setCell.
    destruct Hst as (_ & _ & Hc). apply Hc.
    rewrite cellOf_skeleton_slot; [by eexists|done].
  - intros st slot a Hs Hst. eapply SameShape_trans; [done|].
    rewrite schedule_undoAssign. apply SameShape_setCell.
    destruct Hst as (_ & _ & Hc). apply Hc.
    rewrite cellOf_skeleton_slot; [by eexists|done].
Qed.

(** X: the shape of the returned schedule. *)
Theorem generateSchedule_shape :
  (∀ w, is_Some (r_schedule generateSchedule !! w) ↔ (w < length weeks)%nat) ∧
  (∀ w sk, dr_date <$> dayOf (r_schedule generateSchedule) w sk =
           weeks !! w ≫= λ week, activeDate (planFor weekPlans config w week sk)) ∧
  (∀ w sk sh sc, is_Some (cellOf (r_schedule generateSchedule) w sk sh sc) ↔
     ∃ week d, weeks !! w = Some week ∧
       activeDate (planFor weekPlans config w week sk) = Some d ∧
       sc ∈ slotScenarios config sk).
Proof.
  destruct generateSchedule_SameShape as (Ha & Hb & Hc).
  split; [|split].
  - intros w. rewrite Ha, lookup_skeleton, fmap_is_Some. apply lookup_lt_is_Some.
  - intros w sk. rewrite Hb. unfold dayOf. rewrite lookup_skeleton.
    destruct (weeks !! w) as [week|]; simpl; [|done].
    unfold weekSkeleton. by destruct (activeDate _).
  - intros w sk sh sc. rewrite Hc. apply cellOf_skeleton_is_Some.
Qed.

Lemma eligibleActor_available slot st relax a :
  eligibleActor slot st relax a = true →
  isAvailableForShift (availOf (dayAvailOf availability (date slot)) a) (shift slot) = true.
Proof.
  unfold Scheduler.eligibleActor. cbv zeta.
  by destruct (isAvailableForShift _ _).
Qed.

(** Whoever is placed was an eligible candidate for an enumerated slot
    of that position, in some state and at some level. *)
Lemma placed_was_candidate w sk sh sc a :
  cellOf (r_schedule generateSchedule) w sk sh sc = Some (Some a) →
  ∃ s st relax, s ∈ allSlots ∧ posOf s = (w, sk, sh, sc) ∧
    a ∈ approvedFor config (scenario s) ∧ eligibleActor s st relax a = true.
Proof.
  destruct (generateSchedule_invariant (CellsSat (λ w sk sh sc a,
    ∃ s st relax, s ∈ allSlots ∧ posOf s = (w, sk, sh, sc) ∧
      a ∈ approvedFor config (scenario s) ∧ eligibleActor s st relax a = true)))
    as (st & -> & Hst).
  - done.
  - intros relax st st1 slot b Hs Hb He Hst.
    apply CellsSat_applyAssign; [done|]. by exists slot, st1, relax.
  - intros st slot b _ Hst. by apply CellsSat_undoAssign.
  - apply freshState_CellsSat.
  - apply Hst.
Qed.

(** X: whoever is placed is approved for the scenario and available for
    the shift on the date of the day slot. *)
Theorem generateSchedule_approved_available w sk sh sc a :
  cellOf (r_schedule generateSchedule) w sk sh sc = Some (Some a) →
  a ∈ approvedFor config sc ∧
  ∃ week d, weeks !! w = Some week ∧
    activeDate (planFor weekPlans config w week sk) = Some d ∧
    isAvailableForShift (availOf (dayAvailOf availability d) a) sh = true.
Proof.
  intros (s & st & relax & Hs & Hpos & Hap & Hel)%placed_was_candidate.
  injection Hpos as <- <- <- <-. split; [done|].
  apply elem_of_allSlots in Hs as (week & Hw & Hd & _).
  exists week, (date s). split; [done|]. split; [done|].
  by eapply eligibleActor_available.
Qed.

(** X: the diagnostics are empty exactly when every slot is filled. *)
Theorem generateSchedule_errors_empty :
  (r_errors generateSchedule = [] →
   ∀ s, s ∈ allSlots → Filled (r_schedule generateSchedule) s) ∧
  ((∀ sk, NoDup (slotScenarios config sk)) →
   (∀ s, s ∈ allSlots → Filled (r_schedule generateSchedule) s) →
   r_errors generateSchedule = []).
Proof.
  split.
  - intros He s Hs.
    destruct (generateSchedule_counts weeks weekPlans availability config s Hs)
      as [[? _]|[_ Hc]]; [done|].
    apply countPos_elem in Hs. rewrite He in Hc. unfold countDiag in Hc.
    rewrite filter_nil in Hc. simpl in Hc. lia.
  - intros Hnd Hfill.
    destruct (r_errors generateSchedule) as [|d l] eqn:He; [done|]. exfalso.
    destruct (generateSchedule_diagnostics weeks weekPlans availability config d)
      as (slot & st & Hs & _ & Hd); [rewrite He; by left|].
    assert (countPos allSlots slot = 1%nat) as Hone.
    { rewrite countPos_allSlots by done. apply count_once; [done|].
      apply elem_of_allSlots in Hs as (_ & _ & _ & Hsc). done. }
    destruct (generateSchedule_counts weeks weekPlans availability config slot Hs)
      as [[_ Hc]|[Hc _]].
    + rewrite He in Hc. unfold countDiag in Hc. rewrite filter_cons in Hc.
      rewrite decide_True in Hc by (by rewrite Hd). simpl in Hc. lia.
    + destruct (Hfill slot Hs) as [a Ha]. congruence.
Qed.

(** *** A slot nobody can take *)

Lemma filter_all_false {A} (f : A → bool) l :
  (∀ x, x ∈ l → f x = false) → List.filter f l = [].
Proof.
  induction l as [|x l IH]; intros Hl; [done|].
  simpl. rewrite (Hl x) by (by left). apply IH. intros y Hy. apply Hl. by right.
Qed.

Lemma getEligible_unavailable s st relax :
  (∀ a, a ∈ approvedFor config (scenario s) →
     isAvailableForShift (availOf (dayAvailOf availability (date s)) a) (shift s) = false) →
  getEligible s st relax = [].
Proof.
  intros Hno. apply filter_all_false. intros a Ha.
  unfold Scheduler.eligibleActor. cbv zeta. by rewrite (Hno a Ha).
Qed.

(** X: one slot without an approved person available for its shift
    makes every search pass stop at its first expansion; the result is
    the greedy one, with the slot [null] and a diagnostic for it. *)
Theorem generateSchedule_impossible_slot s :
  s ∈ allSlots →
  (∀ a, a ∈ approvedFor config (scenario s) →
     isAvailableForShift (availOf (dayAvailOf availability (date s)) a) (shift s) = false) →
  (∀ relax, attempt relax = (false, bumpCount freshState, allSlots)) ∧
  generateSchedule = {| r_schedule := schedule fallback.1; r_errors := fallback.2 |} ∧
  cellOf (r_schedule generateSchedule) (wi s) (slotKey s) (shift s) (scenario s)
    = Some None ∧
  ∃ d, d ∈ r_errors generateSchedule ∧ diagPos d = posOf s.
Proof.
  intros Hs Hno.
  assert (∀ relax, attempt relax = (false, bumpCount freshState, allSlots)) as Hatt.
  { intros relax. unfold Scheduler.attempt.
    destruct (length allSlots) as [|n] eqn:Hlen.
    { apply nil_length_inv in Hlen. rewrite Hlen in Hs.
      by apply not_elem_of_nil in Hs. }
    apply (backtrack_dead_end n allSlots freshState relax s Hs).
    by apply getEligible_unavailable. }
  split; [done|]. split.
  { unfold Scheduler.generateSchedule, Scheduler.relaxLoop. by rewrite !Hatt. }
  destruct (generateSchedule_counts weeks weekPlans availability config s Hs)
    as [[[a Ha] _]|[Hc Hn]].
  - exfalso.
    apply placed_was_candidate in Ha as (s' & st & relax & Hs' & Hpos & Hap & Hel).
    apply eligibleActor_available in Hel.
    apply elem_of_allSlots in Hs as (week & Hw & Hd & _).
    apply elem_of_allSlots in Hs' as (week' & Hw' & Hd' & _).
    injection Hpos as Ew Ek Eh Ec. rewrite Ew in Hw'. rewrite Ew, Ek in Hd'.
    rewrite Hw in Hw'. injection Hw' as <-. rewrite Hd in Hd'. injection Hd' as Ed.
    rewrite Ec in Hap. rewrite Eh, <- Ed in Hel.
    rewrite (Hno a Hap) in Hel. done.
  - split; [done|]. apply countDiag_pos. rewrite Hn. by apply countPos_elem.
Qed.

(** *** The order of scenarios in the fallback *)

Lemma insertBy_key_sorted {A} (k : A → Z) x l :
  StronglySorted (λ a b, (k a ≤ k b)%Z) l →
  StronglySorted (λ a b, (k a ≤ k b)%Z) (insertBy (λ a b, Some (k a - k b)%Z) x l).
Proof.
  induction 1 as [|y l Hl IH Hy]; simpl.
  { by repeat constructor. }
  destruct (_ <=? 0)%Z eqn:Hle.
  - apply Z.leb_le in Hle. constructor; [by constructor|].
    constructor; [lia|]. eapply Forall_impl; [done|]. simpl. intros z Hz. lia.
  - apply Z.leb_gt in Hle. constructor; [done|].
    rewrite insertBy_perm. constructor; [lia|done].
Qed.

Lemma insertBy_key_stable {A} (k : A → Z) x l v :
  filter (λ a, k a = v) (insertBy (λ a b, Some (k a - k b)%Z) x l) =
  filter (λ a, k a = v) (x :: l).
Proof.
  induction l as [|y l IH]; simpl; [done|].
  destruct (_ <=? 0)%Z eqn:Hle; [done|].
  apply Z.leb_gt in Hle. simpl in Hle.
  rewrite filter_cons, IH, !filter_cons.
  repeat case_decide; try done; lia.
Qed.

(** X: the fallback takes the scenarios of a shift by ascending number
    of approved and available people, ties in configured order. *)
Theorem scenarioOrder_spec sk dayAvail sh :
  scenarioOrder config sk dayAvail sh ≡ₚ slotScenarios config sk ∧
  StronglySorted
    (λ a b, (candidateCount a dayAvail (scenarioActors config) sh ≤
             candidateCount b dayAvail (scenarioActors config) sh)%Z)
    (scenarioOrder config sk dayAvail sh) ∧
  ∀ v, filter (λ sc, candidateCount sc dayAvail (scenarioActors config) sh = v)
         (scenarioOrder config sk dayAvail sh) =
       filter (λ sc, candidateCount sc dayAvail (scenarioActors config) sh = v)
         (slotScenarios config sk).
Proof.
  unfold scenarioOrder. split; [apply jsSort_perm|].
  unfold jsSort. split.
  - induction (slotScenarios config sk) as [|x l IH]; simpl; [constructor|].
    by apply (insertBy_key_sorted
                (λ sc, candidateCount sc dayAvail (scenarioActors config) sh)).
  - intros v. induction (slotScenarios config sk) as [|x l IH]; simpl; [done|].
    rewrite (insertBy_key_stable
               (λ sc, candidateCount sc dayAvail (scenarioActors config) sh)).
    by rewrite !filter_cons, IH.
Qed.

(** *** Counting candidates *)

Lemma filter_length_impl {A} (f g : A → bool) l :
  (∀ x, f x = true → g x = true) →
  (length (List.filter f l) ≤ length (List.filter g l))%nat.
Proof. intros Hfg. apply sublist_length. by apply filter_sublist_impl. Qed.

Lemma candidateCount_approvedFor sc dayAvail sh :
  candidateCount sc dayAvail (scenarioActors config) sh =
  Z.of_nat (length (List.filter
    (λ actor, isAvailableForShift (availOf dayAvail actor) sh) (approvedFor config sc))).
Proof.
  unfold candidateCount, approvedFor.
  by destruct (scenarioActors config !! sc).
Qed.

(** X: [candidateCount] bounds the candidates of a slot in every state
    and at every level, and is their number in the fresh state once the
    day and evening constraints are relaxed. *)
Theorem candidateCount_bound slot st relax :
  (Z.of_nat (length (getEligible slot st relax)) ≤
   candidateCount (scenario slot) (dayAvailOf availability (date slot))
     (scenarioActors config) (shift slot))%Z ∧
  ((2 ≤ relax)%nat →
   Z.of_nat (length (getEligible slot freshState relax)) =
   candidateCount (scenario slot) (dayAvailOf availability (date slot))
     (scenarioActors config) (shift slot)).
Proof.
  rewrite candidateCount_approvedFor. split.
  - apply inj_le. apply filter_length_impl. intros a. apply eligibleActor_available.
  - intros Hr. do 2 f_equal. unfold Scheduler.getEligible.
    induction (approvedFor config (scenario slot)) as [|a l IH]; [done|].
    simpl. rewrite IH. 
    assert (eligibleActor slot freshState relax a =
            isAvailableForShift (availOf (dayAvailOf availability (date slot)) a)
              (shift slot)) as ->; [|done].
    unfold Scheduler.eligibleActor. cbv zeta.
    destruct (isAvailableForShift _ _); [|done]. simpl negb. cbv iota.
    assert (alreadyUsed (weekAssignOf freshState (wi slot)) (shift slot) a = false)
      as Hu by (by destruct (shift slot)).
    rewrite Hu, hasConflict_unused by done. rewrite andb_false_r.
    destruct relax as [|[|relax]]; [lia..|done].
Qed.

(** *** The fairness tally *)

Lemma tally_lookup (l : list string) (m : gmap string Z) a :
  foldl (λ m actor, alter Z.succ actor m) m l !! a =
  (λ z, (z + Z.of_nat (length (filter (λ b, b = a) l)))%Z) <$> m !! a.
Proof.
  revert m. induction l as [|x l IH]; intros m; simpl.
  { destruct (m !! a); simpl; [f_equal; lia|done]. }
  rewrite IH, filter_cons. destruct (decide (x = a)) as [->|Hne].
  - rewrite lookup_alter_eq. destruct (m !! a); simpl; [f_equal; lia|done].
  - by rewrite lookup_alter_ne.
Qed.

Lemma lookup_zeroTally a :
  zeroTally config !! a = if decide (a ∈ actors config) then Some 0%Z else None.
Proof.
  unfold zeroTally. case_decide as Ha.
  - apply elem_of_list_to_map_1'.
    + intros y Hy. apply list_elem_of_fmap in Hy as (x & [= _ ->] & _). done.
    + apply list_elem_of_fmap. by exists a.
  - apply not_elem_of_list_to_map_1. rewrite <- list_fmap_compose.
    intros Hin. apply list_elem_of_fmap in Hin as (x & -> & Hx). done.
Qed.


(** *** The weekday constraint *)

Lemma eligibleActor_allowed_day slot st relax a :
  (relax < 2)%nat → eligibleActor slot st relax a = true →
  dayNotAllowed (actorConstraints config !! a) (date slot) = false.
Proof.
  unfold Scheduler.eligibleActor. cbv zeta. intros Hr.
  destruct (negb _); [done|].
  destruct (alreadyUsed _ _ _) eqn:Hu; [done|].
  rewrite hasConflict_unused by done. rewrite andb_false_r.
  replace (relax <? 2)%nat with true by (symmetry; by apply Nat.ltb_lt).
  simpl. by destruct (dayNotAllowed _ _).
Qed.

(** X: the allowed weekdays of a person are respected unless the search
    needed level 2 or 3. *)
Theorem generateSchedule_allowed_days w sk sh sc a days :
  (attempt 0).1.1 = true ∨ (attempt 1).1.1 = true ∨
    ((attempt 2).1.1 = false ∧ (attempt 3).1.1 = false) →
  cellOf (r_schedule generateSchedule) w sk sh sc = Some (Some a) →
  actorConstraints config !! a ≫= allowedDays = Some days → days ≠ [] →
  ∃ week d name, weeks !! w = Some week ∧
    activeDate (planFor weekPlans config w week sk) = Some d ∧
    weekdayName d = Some name ∧ name ∈ days.
Proof.
  intros Hlevel Hcell Hdays Hne.
  set (Q := λ (w : nat) (sk : SlotKey) (_ : Shift) (_ a : string),
    ∃ week d, weeks !! w = Some week ∧
      activeDate (planFor weekPlans config w week sk) = Some d ∧
      dayNotAllowed (actorConstraints config !! a) d = false).
  assert (∀ relax, (relax < 2)%nat →
    ∀ st st1 slot b, slot ∈ allSlots → b ∈ approvedFor config (scenario slot) →
      eligibleActor slot st1 relax b = true →
      CellsSat Q st → CellsSat Q (applyAssign st slot b)) as Happ.
  { intros relax Hr st st1 slot b Hs _ He Hst.
    apply CellsSat_applyAssign; [done|].
    apply elem_of_allSlots in Hs as (week & Hw & Hd & _).
    exists week, (date slot). split; [done|]. split; [done|].
    by eapply eligibleActor_allowed_day. }
  assert (∀ relax, (relax < 2)%nat →
    CellsSat Q (backtrack (length allSlots) allSlots freshState relax).1.2) as Hbt.
  { intros relax Hr. apply backtrack_invariant; [done|by apply Happ| |].
    - intros st slot b _ Hst. by apply CellsSat_undoAssign.
    - apply freshState_CellsSat. }
  assert (CellsSat Q fallback.1) as Hfb.
  { apply fallback_invariant; [apply (Happ 0%nat); lia|apply freshState_CellsSat]. }
  assert (Q w sk sh sc a) as (week & d & Hw & Hd & Hday).
  { revert Hcell. unfold Scheduler.generateSchedule, Scheduler.relaxLoop.
    pose proof (Hbt 0%nat ltac:(lia)) as H0. pose proof (Hbt 1%nat ltac:(lia)) as H1.
    unfold Scheduler.attempt in *.
    destruct (backtrack _ _ _ 0) as [[[] st0] r0]; [apply H0|].
    destruct (backtrack _ _ _ 1) as [[[] st1] r1]; [apply H1|].
    destruct (backtrack _ _ _ 2) as [[[] st2] r2]; [simpl in Hlevel; naive_solver|].
    destruct (backtrack _ _ _ 3) as [[[] st3] r3]; [simpl in Hlevel; naive_solver|].
    apply Hfb. }
  exists week, d. unfold dayNotAllowed in Hday. rewrite Hdays in Hday.
  apply andb_false_iff in Hday as [Hlen|Hin].
  { apply Nat.ltb_ge in Hlen. destruct days; [done|simpl in Hlen; lia]. }
  apply negb_false_iff in Hin.
  destruct (weekdayName d) as [name|]; [|done].
  exists name. apply bool_decide_eq_true in Hin. done.
Qed.
End SearchFacts.

(** ** The further facts at concrete inputs *)

Lemma generateSchedule_approved_available_witness :
  cellOf (r_schedule (generateSchedule [marchWeek] ∅ (availTuesday ["P"; "R"]) cfgPair))
    0 slot1 AM "X" = Some (Some "P") ∧
  "P" ∈ approvedFor cfgPair "X" ∧
  ∃ week d, [marchWeek] !! 0%nat = Some week ∧
    activeDate (planFor ∅ cfgPair 0 week slot1) = Some d ∧
    isAvailableForShift
      (availOf (dayAvailOf (availTuesday ["P"; "R"]) d) "P") AM = true.
Proof.
  assert (cellOf (r_schedule (generateSchedule [marchWeek] ∅
            (availTuesday ["P"; "R"]) cfgPair)) 0 slot1 AM "X" = Some (Some "P")) as Hc
    by (vm_compute; reflexivity).
  split; [exact Hc|].
  exact (generateSchedule_approved_available [marchWeek] ∅ (availTuesday ["P"; "R"])
           cfgPair 0 slot1 AM "X" "P" Hc).
Defined.

(** The only approved person may not work evenings: no candidate at
    level 0, one at level 1. *)
Lemma getEligible_relax_mono_witness :
  (0 ≤ 1)%nat ∧
  getEligible (availTuesday ["P"]) cfgSolo (slotX PM)
    (freshState [marchWeek] ∅ cfgSolo) 0 = [] ∧
  getEligible (availTuesday ["P"]) cfgSolo (slotX PM)
    (freshState [marchWeek] ∅ cfgSolo) 1 = ["P"] ∧
  getEligible (availTuesday ["P"]) cfgSolo (slotX PM)
    (freshState [marchWeek] ∅ cfgSolo) 0
  `sublist_of`
  getEligible (availTuesday ["P"]) cfgSolo (slotX PM)
    (freshState [marchWeek] ∅ cfgSolo) 1.
Proof.
  assert (0 ≤ 1)%nat as Hle by lia.
  split; [exact Hle|]. split; [vm_compute; reflexivity|].
  split; [vm_compute; reflexivity|].
  exact (getEligible_relax_mono (availTuesday ["P"]) cfgSolo (slotX PM)
           (freshState [marchWeek] ∅ cfgSolo) 0 1 Hle).
Defined.

(** The evening slot has no strict candidate and stands second; it is
    the one chosen. *)
Lemma mrvScan_first_minimum_witness :
  [slotX AM; slotX PM] ≠ [] ∧
  mrvScan (availTuesday ["P"]) cfgSolo [slotX AM; slotX PM]
    (freshState [marchWeek] ∅ cfgSolo) 0 = 1%nat ∧
  ∃ z, [slotX AM; slotX PM] !!
         mrvScan (availTuesday ["P"]) cfgSolo [slotX AM; slotX PM]
           (freshState [marchWeek] ∅ cfgSolo) 0 = Some z ∧
       ∀ j y, [slotX AM; slotX PM] !! j = Some y →
         (length (getEligible (availTuesday ["P"]) cfgSolo z
                    (freshState [marchWeek] ∅ cfgSolo) 0) ≤
          length (getEligible (availTuesday ["P"]) cfgSolo y
                    (freshState [marchWeek] ∅ cfgSolo) 0))%nat ∧
         ((j < mrvScan (availTuesday ["P"]) cfgSolo [slotX AM; slotX PM]
                 (freshState [marchWeek] ∅ cfgSolo) 0)%nat →
          (length (getEligible (availTuesday ["P"]) cfgSolo z
                     (freshState [marchWeek] ∅ cfgSolo) 0) <
           length (getEligible (availTuesday ["P"]) cfgSolo y
                     (freshState [marchWeek] ∅ cfgSolo) 0))%nat).
Proof.
  assert ([slotX AM; slotX PM] ≠ []) as Hne by discriminate.
  split; [exact Hne|]. split; [vm_compute; reflexivity|].
  exact (mrvScan_first_minimum (availTuesday ["P"]) cfgSolo [slotX AM; slotX PM]
           (freshState [marchWeek] ∅ cfgSolo) 0 Hne).
Defined.

Lemma backtrack_dead_end_witness :
  slotX PM ∈ [slotX AM; slotX PM] ∧
  getEligible (availTuesday ["P"]) cfgSolo (slotX PM)
    (freshState [marchWeek] ∅ cfgSolo) 0 = [] ∧
  backtrack [marchWeek] ∅ (availTuesday ["P"]) cfgSolo 2 [slotX AM; slotX PM]
    (freshState [marchWeek] ∅ cfgSolo) 0 =
  (false, bumpCount (freshState [marchWeek] ∅ cfgSolo), [slotX AM; slotX PM]).
Proof.
  assert (slotX PM ∈ [slotX AM; slotX PM]) as Hin by (right; left).
  assert (getEligible (availTuesday ["P"]) cfgSolo (slotX PM)
            (freshState [marchWeek] ∅ cfgSolo) 0 = []) as He by (vm_compute; reflexivity).
  split; [exact Hin|]. split; [exact He|].
  exact (backtrack_dead_end [marchWeek] ∅ (availTuesday ["P"]) cfgSolo 1
           [slotX AM; slotX PM] (freshState [marchWeek] ∅ cfgSolo) 0 (slotX PM) Hin He).
Defined.

(** Two scenarios in one shift and one person available: the search
    assigns, fails the forward check, undoes and gives up. *)
Lemma backtrack_failure_restores_witness :
  (soloSearch).1.1 = false ∧ backtrackCount (soloSearch).1.2 = 1%Z ∧
  (soloSearch).2 = allSlots [marchWeek] ∅ cfgConflict ∧
  usageCount (soloSearch).1.2 = usageCount (freshState [marchWeek] ∅ cfgConflict) ∧
  pmCount (soloSearch).1.2 = pmCount (freshState [marchWeek] ∅ cfgConflict) ∧
  SameUsage (freshState [marchWeek] ∅ cfgConflict) (soloSearch).1.2 ∧
  Shrinks (freshState [marchWeek] ∅ cfgConflict) (soloSearch).1.2.
Proof.
  assert ((soloSearch).1.1 = false) as Hok by (vm_compute; reflexivity).
  assert (backtrack [marchWeek] ∅ (availTuesday ["P"]) cfgConflict 4
            (allSlots [marchWeek] ∅ cfgConflict)
            (freshState [marchWeek] ∅ cfgConflict) 0 =
          (false, (soloSearch).1.2, (soloSearch).2)) as E.
  { change (soloSearch = (false, (soloSearch).1.2, (soloSearch).2)).
    revert Hok. generalize soloSearch. intros [[ok s] r]. simpl. by intros ->. }
  split; [exact Hok|]. split; [vm_compute; reflexivity|].
  exact (backtrack_failure_restores [marchWeek] ∅ (availTuesday ["P"]) cfgConflict
           4 (allSlots [marchWeek] ∅ cfgConflict)
           (freshState [marchWeek] ∅ cfgConflict) 0
           (soloSearch).1.2 (soloSearch).2 E).
Defined.

Lemma undoAssign_applyAssign_witness :
  eligibleActor (availTuesday ["P"]) cfgSolo (slotX AM) soloFresh 0 "P" = true ∧
  cellOf (schedule soloFresh) 0 slot1 AM "X" = Some None ∧
  (∀ w sk sh sc,
     cellOf (schedule (undoAssign (applyAssign soloFresh (slotX AM) "P") (slotX AM) "P"))
       w sk sh sc = cellOf (schedule soloFresh) w sk sh sc) ∧
  (∀ w sh b,
     usedSet (undoAssign (applyAssign soloFresh (slotX AM) "P") (slotX AM) "P") w sh b =
     usedSet soloFresh w sh b) ∧
  usageCount (undoAssign (applyAssign soloFresh (slotX AM) "P") (slotX AM) "P") =
    usageCount soloFresh ∧
  pmCount (undoAssign (applyAssign soloFresh (slotX AM) "P") (slotX AM) "P") =
    pmCount soloFresh ∧
  backtrackCount (undoAssign (applyAssign soloFresh (slotX AM) "P") (slotX AM) "P") =
    backtrackCount soloFresh.
Proof.
  assert (eligibleActor (availTuesday ["P"]) cfgSolo (slotX AM) soloFresh 0 "P" = true)
    as He by (vm_compute; reflexivity).
  assert (cellOf (schedule soloFresh) 0 slot1 AM "X" = Some None) as Hc
    by (vm_compute; reflexivity).
  split; [exact He|]. split; [exact Hc|].
  exact (undoAssign_applyAssign (availTuesday ["P"]) cfgSolo soloFresh (slotX AM) "P" 0
           He Hc).
Defined.

(** Nobody is marked available: the one approved person cannot take the
    slot. *)
Lemma generateSchedule_impossible_slot_witness :
  slotX AM ∈ allSlots [marchWeek] ∅ cfgSolo ∧
  approvedFor cfgSolo "X" = ["P"] ∧
  (∀ relax, attempt [marchWeek] ∅ (availTuesday []) cfgSolo relax =
     (false, bumpCount (freshState [marchWeek] ∅ cfgSolo),
      allSlots [marchWeek] ∅ cfgSolo)) ∧
  generateSchedule [marchWeek] ∅ (availTuesday []) cfgSolo =
    {| r_schedule := schedule (fallback [marchWeek] ∅ (availTuesday []) cfgSolo).1;
       r_errors := (fallback [marchWeek] ∅ (availTuesday []) cfgSolo).2 |} ∧
  cellOf (r_schedule (generateSchedule [marchWeek] ∅ (availTuesday []) cfgSolo))
    0 slot1 AM "X" = Some None ∧
  ∃ d, d ∈ r_errors (generateSchedule [marchWeek] ∅ (availTuesday []) cfgSolo) ∧
       diagPos d = posOf (slotX AM).
Proof.
  assert (slotX AM ∈ allSlots [marchWeek] ∅ cfgSolo) as Hin
    by (apply slotX_enumerated; [done|]; simpl; set_solver).
  split; [exact Hin|]. split; [reflexivity|].
  apply (generateSchedule_impossible_slot [marchWeek] ∅ (availTuesday []) cfgSolo
           (slotX AM) Hin).
  intros a Ha. change (a ∈ ["P"]) in Ha.
  apply list_elem_of_singleton in Ha as ->. reflexivity.
Defined.

Lemma generateSchedule_errors_empty_witness :
  r_errors (generateSchedule [marchWeek] ∅ (availTuesday ["P"; "R"]) cfgPair) = [] ∧
  ∀ s, s ∈ allSlots [marchWeek] ∅ cfgPair →
       Filled (r_schedule (generateSchedule [marchWeek] ∅ (availTuesday ["P"; "R"])
                 cfgPair)) s.
Proof.
  assert (r_errors (generateSchedule [marchWeek] ∅ (availTuesday ["P"; "R"]) cfgPair)
          = []) as He by (vm_compute; reflexivity).
  split; [exact He|].
  exact (proj1 (generateSchedule_errors_empty [marchWeek] ∅ (availTuesday ["P"; "R"])
                  cfgPair) He).
Defined.

Lemma candidateCount_bound_witness :
  (2 ≤ 3)%nat ∧
  Z.of_nat (length (getEligible (availTuesday ["P"; "R"]) cfgPair (slotX PM)
                      (freshState [marchWeek] ∅ cfgPair) 3)) =
  candidateCount "X" (dayAvailOf (availTuesday ["P"; "R"]) "2026-03-10")
    (scenarioActors cfgPair) PM.
Proof.
  assert (2 ≤ 3)%nat as Hle by lia.
  split; [exact Hle|].
  exact (proj2 (candidateCount_bound [marchWeek] ∅ (availTuesday ["P"; "R"]) cfgPair
                  (slotX PM) (freshState [marchWeek] ∅ cfgPair) 3) Hle).
Defined.

Lemma generateSchedule_allowed_days_witness :
  (attempt [marchWeek] ∅ (availTuesday ["P"; "R"]) cfgTuesdays 0).1.1 = true ∧
  cellOf (r_schedule (generateSchedule [marchWeek] ∅ (availTuesday ["P"; "R"])
                        cfgTuesdays)) 0 slot1 AM "X" = Some (Some "P") ∧
  actorConstraints cfgTuesdays !! "P" ≫= allowedDays = Some ["Tuesday"] ∧
  ["Tuesday"] ≠ [] ∧
  ∃ week d name, [marchWeek] !! 0%nat = Some week ∧
    activeDate (planFor ∅ cfgTuesdays 0 week slot1) = Some d ∧
    weekdayName d = Some name ∧ name ∈ ["Tuesday"].
Proof.
  assert ((attempt [marchWeek] ∅ (availTuesday ["P"; "R"]) cfgTuesdays 0).1.1 = true)
    as Hok by (vm_compute; reflexivity).
  assert (cellOf (r_schedule (generateSchedule [marchWeek] ∅ (availTuesday ["P"; "R"])
            cfgTuesdays)) 0 slot1 AM "X" = Some (Some "P")) as Hc
    by (vm_compute; reflexivity).
  assert (actorConstraints cfgTuesdays !! "P" ≫= allowedDays = Some ["Tuesday"]) as Hd
    by (vm_compute; reflexivity).
  assert (["Tuesday"] ≠ []) as Hne by discriminate.
  split; [exact Hok|]. split; [exact Hc|]. split; [exact Hd|]. split; [exact Hne|].
  exact (generateSchedule_allowed_days [marchWeek] ∅ (availTuesday ["P"; "R"])
           cfgTuesdays 0 slot1 AM "X" "P" ["Tuesday"] (or_introl Hok) Hc Hd Hne).
Defined.

(** ** Actor statistics *)

Lemma sumCounts_bump (m : gmap string Z) k :
  sumCounts (<[k := (default 0 (m !! k) + 1)%Z]> m) = (sumCounts m + 1)%Z.
Proof.
  unfold sumCounts.
  destruct (m !! k) as [v|] eqn:Hk; simpl.
  - rewrite <- insert_delete_eq.
    rewrite map_fold_insert_L; [|intros; lia|apply lookup_delete_eq].
    rewrite (map_fold_delete_L _ _ k v m); [lia|intros; lia|done].
  - rewrite map_fold_insert_L; [lia|intros; lia|done].
Qed.

Lemma countEntry_placement stats w sk sh entry :
  Stats.countEntry stats entry =
  foldl (λ st p, Stats.countEntry st (p.1.2, Some p.2)) stats
        (entryPlacement w sk sh entry).
Proof.
  unfold Stats.countEntry, entryPlacement. destruct entry as [sc [a|]]; simpl; [|done].
  destruct (String.eqb a "") eqn:Ha; simpl; [done|]. by rewrite Ha.
Qed.

(** The nested loops as one loop over the placements. *)
Lemma getActorStats_flat weeks weekPlans sched config :
  Stats.getActorStats weeks weekPlans (Some sched) config =
  foldl (λ st p, Stats.countEntry st (p.1.2, Some p.2))
        (list_to_map ((λ actor, (actor, Stats.emptyStat)) <$> actors config))
        (placements sched (length weeks)).
Proof.
  unfold Stats.getActorStats, placements. cbv zeta.
  rewrite <- foldl_bind. apply foldl_pointwise. intros st w.
  unfold Stats.countWeek. destruct (sched !! w) as [ws|]; [|done].
  rewrite <- foldl_bind. apply foldl_pointwise. intros st' sk.
  unfold Stats.countDay. destruct (ws sk) as [d|]; [|done].
  rewrite <- foldl_bind. apply foldl_pointwise. intros st'' sh.
  unfold Stats.countShift. rewrite <- foldl_bind.
  apply foldl_pointwise. intros st3 e. apply countEntry_placement.
Qed.

Lemma elem_of_entryPlacement w sk sh entry p :
  p ∈ entryPlacement w sk sh entry ↔
  p = (w, sk, sh, entry.1, p.2) ∧ entry.2 = Some p.2 ∧ p.2 ≠ "".
Proof.
  unfold entryPlacement. destruct entry as [sc [a|]]; simpl.
  - destruct (String.eqb a "") eqn:Ha.
    + apply String.eqb_eq in Ha as ->. split; [by intros ?%not_elem_of_nil|].
      intros (_ & [= <-] & ?). done.
    + apply String.eqb_neq in Ha. rewrite list_elem_of_singleton. split.
      * intros ->. done.
      * intros (-> & [= ->] & _). done.
  - split; [by intros ?%not_elem_of_nil|]. by intros (_ & ? & _).
Qed.

Lemma elem_of_placements sched n w sk sh sc a :
  (w, sk, sh, sc, a) ∈ placements sched n ↔
  (w < n)%nat ∧ cellOf sched w sk sh sc = Some (Some a) ∧ a ≠ "".
Proof.
  unfold placements, cellOf. rewrite list_elem_of_bind. split.
  - intros (w' & Hin & Hw').
    apply elem_of_seq in Hw'.
    destruct (sched !! w') as [ws|] eqn:Hws; [|by apply not_elem_of_nil in Hin].
    apply list_elem_of_bind in Hin as (sk' & Hin & _).
    destruct (ws sk') as [d|] eqn:Hd; [|by apply not_elem_of_nil in Hin].
    apply list_elem_of_bind in Hin as (sh' & Hin & _).
    apply list_elem_of_bind in Hin as ([sc' v] & Hin & He).
    apply elem_of_entryPlacement in Hin as ([= -> -> -> ->] & Hv & Ha).
    simpl in *. subst v. apply elem_of_map_to_list in He.
    rewrite Hws. simpl. rewrite Hd. simpl. split; [lia|done].
  - intros (Hw & Hc & Ha). exists w. split; [|apply elem_of_seq; lia].
    destruct (sched !! w) as [ws|]; simpl in Hc; [|done].
    apply list_elem_of_bind. exists sk. split; [|destruct sk; set_solver].
    destruct (ws sk) as [d|]; simpl in Hc; [|done].
    apply list_elem_of_bind. exists sh. split; [|destruct sh; set_solver].
    apply list_elem_of_bind. exists (sc, Some a). split.
    + by apply elem_of_entryPlacement.
    + by apply elem_of_map_to_list.
Qed.

Lemma NoDup_placements sched n : NoDup (placements sched n).
Proof.
  unfold placements. apply NoDup_bind; [| |apply NoDup_seq].
  - intros w1 w2 p _ _ H1 H2.
    assert (∀ w, p ∈ match sched !! w with
                     | None => []
                     | Some ws =>
                         sk ← SLOT_KEYS;
                         match ws sk with
                         | None => []
                         | Some d =>
                             sh ← SHIFTS;
                             map_to_list (shiftCells d sh) ≫= entryPlacement w sk sh
                         end
                     end → p.1.1.1.1 = w) as Hw.
    { intros w Hin. destruct (sched !! w) as [ws|]; [|by apply not_elem_of_nil in Hin].
      apply list_elem_of_bind in Hin as (sk & Hin & _).
      destruct (ws sk) as [d|]; [|by apply not_elem_of_nil in Hin].
      apply list_elem_of_bind in Hin as (sh & Hin & _).
      apply list_elem_of_bind in Hin as (e & Hin & _).
      apply elem_of_entryPlacement in Hin as (-> & _). done. }
    by rewrite <- (Hw w1 H1), <- (Hw w2 H2).
  - intros w _. destruct (sched !! w) as [ws|]; [|constructor].
    apply NoDup_bind; [| |by apply (bool_decide_unpack _)].
    + intros sk1 sk2 p _ _ H1 H2.
      assert (∀ sk, p ∈ match ws sk with
                       | None => []
                       | Some d =>
                           sh ← SHIFTS;
                           map_to_list (shiftCells d sh) ≫= entryPlacement w sk sh
                       end → p.1.1.1.2 = sk) as Hsk.
      { intros sk Hin. destruct (ws sk) as [d|]; [|by apply not_elem_of_nil in Hin].
        apply list_elem_of_bind in Hin as (sh & Hin & _).
        apply list_elem_of_bind in Hin as (e & Hin & _).
        apply elem_of_entryPlacement in Hin as (-> & _). done. }
      by rewrite <- (Hsk sk1 H1), <- (Hsk sk2 H2).
    + intros sk _. destruct (ws sk) as [d|]; [|constructor].
      apply NoDup_bind; [| |by apply (bool_decide_unpack _)].
      * intros sh1 sh2 p _ _ H1 H2.
        apply list_elem_of_bind in H1 as (e1 & H1 & _).
        apply list_elem_of_bind in H2 as (e2 & H2 & _).
        apply elem_of_entryPlacement in H1 as (E1 & _).
        apply elem_of_entryPlacement in H2 as (E2 & _).
        rewrite E1 in E2. by injection E2.
      * intros sh _. apply NoDup_bind; [| |apply NoDup_map_to_list].
        -- intros [sc1 v1] [sc2 v2] p He1 He2 H1 H2.
           apply elem_of_entryPlacement in H1 as (E1 & Hv1 & _).
           apply elem_of_entryPlacement in H2 as (E2 & Hv2 & _).
           simpl in *. rewrite E1 in E2. injection E2 as ->. congruence.
        -- intros e _. unfold entryPlacement. destruct (e.2) as [a|]; [|constructor].
           destruct (String.eqb a ""); [constructor|apply NoDup_singleton].
Qed.

(** What one counted placement does to the entry of a name. *)
Lemma countEntry_lookup stats sc b a :
  b ≠ "" →
  Stats.countEntry stats (sc, Some b) !! a =
  if decide (a = b)
  then Some {| Stats.total := (totalOf stats a + 1)%Z;
               Stats.scenarios :=
                 <[sc := (scenarioCountOf stats a sc + 1)%Z]>
                   (Stats.scenarios (default Stats.emptyStat (stats !! a))) |}
  else stats !! a.
Proof.
  intros Hb. unfold Stats.countEntry. simpl.
  destruct (String.eqb b "") eqn:E; [by apply String.eqb_eq in E|].
  case_decide as Hab.
  - subst. by rewrite lookup_insert_eq.
  - by rewrite lookup_insert_ne.
Qed.

Lemma placements_count (l : list (nat * SlotKey * Shift * string * string)) stats a :
  Forall (λ p, p.2 ≠ "") l →
  totalOf (foldl (λ st p, Stats.countEntry st (p.1.2, Some p.2)) stats l) a =
    (totalOf stats a + Z.of_nat (length (filter (λ p, p.2 = a) l)))%Z ∧
  (∀ sc,
    scenarioCountOf (foldl (λ st p, Stats.countEntry st (p.1.2, Some p.2)) stats l) a sc =
    (scenarioCountOf stats a sc +
     Z.of_nat (length (filter (λ p, p.1.2 = sc) (filter (λ p, p.2 = a) l))))%Z) ∧
  (is_Some (foldl (λ st p, Stats.countEntry st (p.1.2, Some p.2)) stats l !! a) ↔
   is_Some (stats !! a) ∨ filter (λ p, p.2 = a) l ≠ []).
Proof.
  intros Hl. revert stats. induction Hl as [|p l Hp Hl IH]; intros stats; simpl.
  { rewrite filter_nil. simpl. split; [lia|]. split; [intros; lia|]. naive_solver. }
  destruct (IH (Stats.countEntry stats (p.1.2, Some p.2))) as (IHt & IHs & IHe).
  rewrite IHt, IHe. rewrite filter_cons.
  unfold totalOf, scenarioCountOf in *.
  split; [|split].
  - rewrite countEntry_lookup by done.
    destruct (decide (a = p.2)) as [->|Hne].
    + rewrite decide_True by done. simpl. unfold totalOf. lia.
    + rewrite decide_False by done. lia.
  - intros sc. rewrite IHs. rewrite countEntry_lookup by done.
    destruct (decide (a = p.2)) as [->|Hne].
    + rewrite decide_True by done. simpl. rewrite filter_cons.
      unfold scenarioCountOf.
      destruct (decide (p.1.2 = sc)) as [<-|Hsc].
      * rewrite lookup_insert_eq. simpl. lia.
      * rewrite lookup_insert_ne by done. lia.
    + rewrite decide_False by done. lia.
  - rewrite countEntry_lookup by done.
    destruct (decide (a = p.2)) as [->|Hne].
    + rewrite decide_True by done. split; [intros _; by right|intros _; left; by eexists].
    + rewrite decide_False by done. done.
Qed.

Lemma lookup_initial_stats config a :
  (list_to_map ((λ actor, (actor, Stats.emptyStat)) <$> actors config)
     : gmap string Stats.ActorStat) !! a =
  if decide (a ∈ actors config) then Some Stats.emptyStat else None.
Proof.
  case_decide as Ha.
  - apply elem_of_list_to_map_1'.
    + intros y Hy. apply list_elem_of_fmap in Hy as (x & [= _ ->] & _). done.
    + apply list_elem_of_fmap. by exists a.
  - apply not_elem_of_list_to_map_1. rewrite <- list_fmap_compose.
    intros Hin. apply list_elem_of_fmap in Hin as (x & -> & Hx). done.
Qed.

Lemma Forall_placements sched n : Forall (λ p, p.2 ≠ "") (placements sched n).
Proof.
  apply Forall_forall. intros [[[[w sk] sh] sc] a] Hp.
  by apply elem_of_placements in Hp as (_ & _ & ?).
Qed.

(** X: the totals count cells. *)
Theorem getActorStats_counts weeks weekPlans sched config a :
  a ≠ "" →
  ∃ cells : list (nat * SlotKey * Shift * string),
    NoDup cells ∧
    (∀ w sk sh sc, (w, sk, sh, sc) ∈ cells ↔
       (w < length weeks)%nat ∧ cellOf sched w sk sh sc = Some (Some a)) ∧
    totalOf (Stats.getActorStats weeks weekPlans (Some sched) config) a =
      Z.of_nat (length cells) ∧
    (∀ sc, scenarioCountOf (Stats.getActorStats weeks weekPlans (Some sched) config) a sc
           = Z.of_nat (length (filter (λ c, c.2 = sc) cells))) ∧
    (is_Some (Stats.getActorStats weeks weekPlans (Some sched) config !! a) ↔
     a ∈ actors config ∨ cells ≠ []).
Proof.
  intros Ha.
  exists ((λ p, p.1) <$> filter (λ p, p.2 = a) (placements sched (length weeks))).
  rewrite getActorStats_flat.
  destruct (placements_count (placements sched (length weeks))
              (list_to_map ((λ actor, (actor, Stats.emptyStat)) <$> actors config)) a
              (Forall_placements _ _)) as (Ht & Hs & He).
  split; [|split; [|split; [|split]]].
  - apply NoDup_fmap_2_strong; [|apply NoDup_filter, NoDup_placements].
    intros [c1 a1] [c2 a2] [E1 _]%list_elem_of_filter [E2 _]%list_elem_of_filter.
    simpl in *. congruence.
  - intros w sk sh sc. rewrite list_elem_of_fmap. split.
    + intros ([c b] & E & [Eb Hin]%list_elem_of_filter). simpl in *. subst b c.
      apply elem_of_placements in Hin as (? & ? & _). done.
    + intros [Hw Hc]. exists (w, sk, sh, sc, a). split; [done|].
      apply list_elem_of_filter. split; [done|]. by apply elem_of_placements.
  - rewrite Ht, length_fmap. unfold totalOf. rewrite lookup_initial_stats.
    case_decide; simpl; lia.
  - intros sc. rewrite Hs. unfold scenarioCountOf. rewrite lookup_initial_stats.
    assert (length (filter (λ c : nat * SlotKey * Shift * string, c.2 = sc)
                      ((λ p, p.1) <$> filter (λ p, p.2 = a)
                         (placements sched (length weeks)))) =
            length (filter (λ p : nat * SlotKey * Shift * string * string, p.1.2 = sc)
                      (filter (λ p, p.2 = a) (placements sched (length weeks))))) as ->.
    { generalize (filter (λ p, p.2 = a) (placements sched (length weeks))).
      intros l. induction l as [|p l IH]; [done|].
      rewrite fmap_cons, !filter_cons. simpl.
      destruct (decide (p.1.2 = sc)); simpl; by rewrite IH. }
    case_decide; simpl; rewrite lookup_empty; simpl; lia.
  - rewrite He, lookup_initial_stats.
    assert (filter (λ p, p.2 = a) (placements sched (length weeks)) ≠ [] ↔
            (λ p : nat * SlotKey * Shift * string * string, p.1) <$>
              filter (λ p, p.2 = a) (placements sched (length weeks)) ≠ []) as <-.
    { by destruct (filter _ _). }
    case_decide; split; intros [?|?]; try by (left + right).
Qed.

(** X: each total is the sum of the per-scenario counts. *)
Theorem getActorStats_total_is_sum weeks weekPlans schedule config a s :
  Stats.getActorStats weeks weekPlans schedule config !! a = Some s →
  Stats.total s = sumCounts (Stats.scenarios s).
Proof.
  assert (∀ (l : list (nat * SlotKey * Shift * string * string)) stats,
    (∀ a s, stats !! a = Some s → Stats.total s = sumCounts (Stats.scenarios s)) →
    ∀ a s, foldl (λ st p, Stats.countEntry st (p.1.2, Some p.2)) stats l !! a = Some s →
           Stats.total s = sumCounts (Stats.scenarios s)) as Hfold.
  { induction l as [|p l IH]; intros stats Hst; [done|]. simpl. apply IH.
    intros b t. unfold Stats.countEntry. simpl.
    destruct (String.eqb p.2 ""); [apply Hst|].
    destruct (decide (b = p.2)) as [->|Hne].
    - rewrite lookup_insert_eq. intros [= <-]. simpl. rewrite sumCounts_bump.
      f_equal. destruct (stats !! p.2) as [t|] eqn:Ht; simpl; [by eapply Hst|done].
    - rewrite lookup_insert_ne by done. apply Hst. }
  assert (∀ b t,
    (list_to_map ((λ actor, (actor, Stats.emptyStat)) <$> actors config)
       : gmap string Stats.ActorStat) !! b = Some t →
    Stats.total t = sumCounts (Stats.scenarios t)) as Hinit.
  { intros b t. rewrite lookup_initial_stats. case_decide; [|done].
    intros [= <-]. done. }
  destruct schedule as [sched|].
  - rewrite getActorStats_flat. by apply Hfold.
  - apply Hinit.
Qed.

Section ActorStats.
Context `{!Host}.
Variable weeks : list (list WeekDay).
Variable weekPlans : gmap nat WeekPlan.
Variable availability : gmap string (gmap string AvailValue).
Variable config : Config.

(** X: nobody is counted more than twice per week. *)
Theorem getActorStats_generated_bound a :
  (totalOf (Stats.getActorStats weeks weekPlans
              (Some (r_schedule (generateSchedule weeks weekPlans availability config)))
              config) a ≤ 2 * Z.of_nat (length weeks))%Z.
Proof.
  destruct (decide (a = "")) as [->|Ha].
  { rewrite getActorStats_flat.
    destruct (placements_count
      (placements (r_schedule (generateSchedule weeks weekPlans availability config))
         (length weeks))
      (list_to_map ((λ actor, (actor, Stats.emptyStat)) <$> actors config)) ""
      (Forall_placements _ _)) as (-> & _).
    rewrite filter_none.
    - unfold totalOf. rewrite lookup_initial_stats. case_decide; simpl; lia.
    - intros p Hp. eapply Forall_forall in Hp; [|apply Forall_placements]. done. }
  rewrite getActorStats_flat.
  destruct (placements_count
    (placements (r_schedule (generateSchedule weeks weekPlans availability config))
       (length weeks))
    (list_to_map ((λ actor, (actor, Stats.emptyStat)) <$> actors config)) a
    (Forall_placements _ _)) as (-> & _).
  pose proof (generateSchedule_booking weeks weekPlans availability config) as Hbook.
  pose proof (NoDup_filter (λ p, p.2 = a) _
    (NoDup_placements (r_schedule (generateSchedule weeks weekPlans availability config))
       (length weeks))) as Hnd.
  assert (∀ p, p ∈ filter (λ p, p.2 = a)
                 (placements (r_schedule (generateSchedule weeks weekPlans availability
                    config)) (length weeks)) →
    p.2 = a ∧ (p.1.1.1.1 < length weeks)%nat ∧
    cellOf (r_schedule (generateSchedule weeks weekPlans availability config))
      p.1.1.1.1 p.1.1.1.2 p.1.1.2 p.1.2 = Some (Some a)) as Hcells.
  { intros [[[[w sk] sh] sc] b] [Eb Hin]%list_elem_of_filter. simpl in *. subst b.
    apply elem_of_placements in Hin as (? & ? & _). done. }
  revert Hnd Hcells.
  generalize (filter (λ p, p.2 = a)
    (placements (r_schedule (generateSchedule weeks weekPlans availability config))
       (length weeks))).
  intros cells Hnd Hcells.
  assert (NoDup ((λ p : nat * SlotKey * Shift * string * string,
                    (p.1.1.1.1, p.1.1.2)) <$> cells)) as Hnd'.
  { apply NoDup_fmap_2_strong; [|done].
    intros [[[[w1 sk1] sh1] sc1] a1] [[[[w2 sk2] sh2] sc2] a2] H1 H2. simpl.
    intros [= <- <-].
    apply Hcells in H1 as (E1 & _ & H1). apply Hcells in H2 as (E2 & _ & H2).
    simpl in *. subst a1 a2.
    destruct (Hbook _ _ _ _ _ _ _ H1 H2) as [-> ->]. done. }
  assert (length cells ≤ length (w ← seq 0 (length weeks); [(w, AM); (w, PM)]))%nat
    as Hle.
  { rewrite <- (length_fmap (λ p : nat * SlotKey * Shift * string * string,
                               (p.1.1.1.1, p.1.1.2))).
    apply submseteq_length, NoDup_submseteq; [done|].
    intros [w sh] Hin.
    apply list_elem_of_fmap in Hin as (p & [= -> ->] & Hin).
    apply Hcells in Hin as (_ & Hw & _).
    apply list_elem_of_bind. exists p.1.1.1.1.
    split; [destruct p.1.1.2; set_solver|]. apply elem_of_seq. lia. }
  assert (∀ n k, length (w ← seq k n; [(w, AM); (w, PM)]) = (2 * n)%nat) as Hlen.
  { induction n as [|n IH]; intros k; [done|]. simpl. rewrite IH. lia. }
  rewrite Hlen in Hle. unfold totalOf. rewrite lookup_initial_stats.
  case_decide; simpl; lia.
Qed.
End ActorStats.

(** ** The weeks of a month *)

Lemma weekdayIndex_succ y m d :
  weekdayIndex y m (S d) = (S (weekdayIndex y m d) `mod` 7)%nat.
Proof.
  unfold weekdayIndex. cbv zeta.
  generalize (default 0 ([0; 3; 2; 5; 0; 3; 5; 1; 4; 6; 2; 4]%nat !! (m - 1)))%nat.
  generalize (if (m <? 3)%nat then (y - 1)%nat else y). intros y' t.
  replace (y' + y' / 4 - y' / 100 + y' / 400 + t + S d)%nat
    with (S (y' + y' / 4 - y' / 100 + y' / 400 + t + d))%nat by lia.
  generalize (y' + y' / 4 - y' / 100 + y' / 400 + t + d)%nat. intros n.
  change (S n) with (1 + n)%nat.
  change (S (n `mod` 7)) with (1 + n `mod` 7)%nat.
  by rewrite Nat.Div0.add_mod_idemp_r.
Qed.

Lemma weekdayIndex_lt y m d : (weekdayIndex y m d < 7)%nat.
Proof. unfold weekdayIndex. cbv zeta. apply Nat.mod_upper_bound. lia. Qed.

Lemma StronglySorted_snoc {A} (R : A → A → Prop) l y :
  StronglySorted R l → Forall (λ x, R x y) l → StronglySorted R (l ++ [y]).
Proof.
  induction 1 as [|x l Hl IH Hx]; intros Hy; simpl.
  { by repeat constructor. }
  apply Forall_cons in Hy as [Hxy Hy]. constructor; [by apply IH|].
  apply Forall_app. split; [done|]. by repeat constructor.
Qed.

Section Calendar.
Variables (year month : nat).

Lemma openBound_next k :
  (2 ≤ weekdayIndex year (month + 1) (S k) ≤ 5)%nat →
  (openBound year month k < weekdayIndex year (month + 1) (S k))%nat.
Proof.
  destruct k as [|k]; [simpl; lia|].
  rewrite (weekdayIndex_succ _ _ (S k)). unfold openBound. cbv zeta.
  pose proof (weekdayIndex_lt year (month + 1) (S k)) as Hlt.
  generalize dependent (weekdayIndex year (month + 1) (S k)). intros w Hlt.
  do 7 (destruct w as [|w]; [vm_compute; lia|]). lia.
Qed.

Lemma WeekOK_single d dw :
  (1 ≤ dw ≤ 5)%nat → WeekOK [weekDayOf year month d dw].
Proof.
  intros Hdw. split; [done|]. split; [by repeat constructor|].
  repeat constructor; simpl; [lia..|].
  do 6 (destruct dw as [|dw]; [try lia; try reflexivity|]). lia.
Qed.

Lemma WeekOK_snoc cur d dw :
  (1 ≤ dw ≤ 5)%nat →
  cur = [] ∨ WeekOK cur →
  Forall (λ wd, (dow wd < Z.of_nat dw)%Z) cur →
  WeekOK (cur ++ [weekDayOf year month d dw]).
Proof.
  intros Hdw [->|Hok] Hlt; [by apply WeekOK_single|].
  pose proof (WeekOK_single d dw Hdw) as Hok1.
  unfold WeekOK in *. destruct Hok as (Hne & Hs & Hf). destruct Hok1 as (_ & _ & Hf1).
  split; [by destruct cur|]. split.
  - by apply StronglySorted_snoc.
  - apply Forall_app. done.
Qed.

Lemma businessDays_snoc k :
  businessDays year month (seq 1 (S k)) =
  businessDays year month (seq 1 k) ++
  (if (1 <=? weekdayIndex year (month + 1) (S k))%nat &&
      (weekdayIndex year (month + 1) (S k) <=? 5)%nat
   then [weekDayOf year month (S k) (weekdayIndex year (month + 1) (S k))] else []).
Proof.
  unfold businessDays. rewrite seq_S, bind_app. simpl. by rewrite app_nil_r.
Qed.

Lemma dayStep_inv k acc :
  LoopInv year month k acc → LoopInv year month (S k) (dayStep year month acc (S k)).
Proof.
  destruct acc as [weeks cur]. intros (Hw & Hc & Hb & Hcat). simpl in *.
  unfold LoopInv. rewrite businessDays_snoc, <- Hcat.
  pose proof (openBound_next k) as Hnext.
  unfold dayStep. cbv zeta. cbn [fst snd].
  assert (openBound year month (S k) =
          if (1 <=? weekdayIndex year (month + 1) (S k))%nat &&
             (weekdayIndex year (month + 1) (S k) <=? 5)%nat
          then weekdayIndex year (month + 1) (S k) else 5%nat) as -> by done.
  pose proof (weekdayIndex_lt year (month + 1) (S k)) as Hlt.
  generalize dependent (weekdayIndex year (month + 1) (S k)). intros w Hnext Hlt.
  assert (Forall (λ wd, (dow wd ≤ 5)%Z) cur) as H5.
  { destruct Hc as [->|Hok]; [constructor|].
    unfold WeekOK in Hok. destruct Hok as (_ & _ & Hf).
    eapply Forall_impl; [exact Hf|]. simpl. intros ? [? _]. lia. }
  destruct (decide (w = 1)) as [->|Hw1].
  - (* Monday *)
    simpl. destruct cur as [|x cur]; simpl.
    + split; [done|]. split; [right; apply WeekOK_single; lia|].
      split; [repeat constructor; simpl; lia|]. by rewrite !app_nil_r.
    + destruct Hc as [?|Hc]; [done|].
      split; [apply Forall_app; split; [done|]; constructor; [done|constructor]|].
      split; [right; apply WeekOK_single; lia|].
      split; [repeat constructor; simpl; lia|].
      rewrite concat_app. simpl. by rewrite app_nil_r, <- !app_assoc.
  - replace ((w =? 1)%nat && (0 <? length cur)%nat) with false
      by (symmetry; apply andb_false_iff; left; by apply Nat.eqb_neq).
    cbn [fst snd].
    destruct ((1 <=? w)%nat && (w <=? 5)%nat) eqn:Hbus.
    + cbn [fst snd]. apply andb_true_iff in Hbus as [H1%Nat.leb_le H2%Nat.leb_le].
      assert (Forall (λ wd, (dow wd < Z.of_nat w)%Z) cur) as Hlow.
      { eapply Forall_impl; [exact Hb|]. simpl. intros wd Hwd.
        specialize (Hnext ltac:(lia)). lia. }
      split; [done|]. split; [right; apply WeekOK_snoc; [lia|done..]|].
      split.
      * apply Forall_app. split; [|repeat constructor; simpl; lia].
        eapply Forall_impl; [exact Hlow|]. simpl. intros; lia.
      * by rewrite app_assoc.
    + cbn [fst snd]. split; [done|]. split; [done|]. split; [done|].
      by rewrite app_nil_r.
Qed.

Lemma loop_inv n :
  LoopInv year month n (foldl (dayStep year month) ([], []) (seq 1 n)).
Proof.
  induction n as [|n IH].
  - split; [constructor|]. split; [by left|]. split; [constructor|done].
  - rewrite seq_S, foldl_snoc. by apply dayStep_inv.
Qed.

(** X: the weeks of a month. *)
Lemma getWeeksInMonth_weeks :
  Forall WeekOK (getWeeksInMonth year month) ∧
  concat (getWeeksInMonth year month) =
    businessDays year month (seq 1 (daysInMonth year (month + 1))).
Proof.
  unfold getWeeksInMonth. cbv zeta.
  destruct (loop_inv (daysInMonth year (month + 1))) as (Hw & Hc & _ & Hcat).
  destruct (foldl _ _ _) as [weeks cur]. simpl in *.
  destruct cur as [|x cur]; simpl.
  - by rewrite app_nil_r in Hcat.
  - destruct Hc as [?|Hc]; [done|]. split.
    + apply Forall_app. split; [done|]. constructor; [done|constructor].
    + rewrite concat_app. simpl. by rewrite app_nil_r.
Qed.
End Calendar.

Lemma WeekOK_names week :
  WeekOK week → NoDup (dayName <$> week) ∧ (length week ≤ 5)%nat.
Proof.
  intros (_ & Hs & Hf). split.
  - induction Hs as [|x l Hl IH Hx]; [constructor|].
    apply Forall_cons in Hf as [[Hx1 Hxn] Hf].
    rewrite fmap_cons. constructor; [|by apply IH].
    intros (y & Hn & Hy)%list_elem_of_fmap.
    pose proof (proj1 (Forall_forall _ _) Hx y Hy) as Hlt.
    pose proof (proj1 (Forall_forall _ _) Hf y Hy) as [Hy1 Hyn].
    rewrite Hn in Hxn.
    assert (NoDup ALL_WEEKDAYS) as Hnd by (by apply (bool_decide_unpack _)).
    pose proof (NoDup_lookup _ _ _ _ Hnd Hxn Hyn). simpl in *. lia.
  - assert (NoDup (dow <$> week)) as Hnd.
    { clear Hf. induction Hs as [|x l Hl IH Hx]; [constructor|].
      rewrite fmap_cons. constructor; [|done].
      intros (y & Hn & Hy)%list_elem_of_fmap.
      pose proof (proj1 (Forall_forall _ _) Hx y Hy). simpl in *. lia. }
    rewrite <- (length_fmap dow).
    change 5%nat with (length [1; 2; 3; 4; 5]%Z).
    apply submseteq_length, NoDup_submseteq; [done|].
    intros z (y & -> & Hy)%list_elem_of_fmap.
    pose proof (proj1 (Forall_forall _ _) Hf y Hy) as [Hy1 _].
    assert (dow y = 1 ∨ dow y = 2 ∨ dow y = 3 ∨ dow y = 4 ∨ dow y = 5)%Z
      as [->|[->|[->|[->| ->]]]] by lia; set_solver.
Qed.


Lemma find_dayName_Some week target wd :
  List.find (λ wd, String.eqb (dayName wd) target) week = Some wd →
  wd ∈ week ∧ dayName wd = target.
Proof.
  intros Hf. apply find_some in Hf as [Hin Heq].
  split; [by apply list_elem_of_In|by apply String.eqb_eq].
Qed.

Lemma find_dayName_None week target :
  List.find (λ wd, String.eqb (dayName wd) target) week = None ↔
  target ∉ dayName <$> week.
Proof.
  induction week as [|x l IH].
  - split; [intros _; apply not_elem_of_nil|done].
  - rewrite fmap_cons, not_elem_of_cons. simpl.
    destruct (String.eqb (dayName x) target) eqn:E.
    + apply String.eqb_eq in E. split; [done|]. intros [? _]. done.
    + apply String.eqb_neq in E. rewrite IH. naive_solver.
Qed.

(** X: the default plan on a week of the calendar. *)
Theorem getDefaultWeekPlan_calendar year month config week sk :
  week ∈ getWeeksInMonth year month →
  (∀ d, getDefaultWeekPlan week config sk = Some d ↔
        ∃ wd, wd ∈ week ∧ dayName wd = defaultDays config sk ∧ wd_date wd = d) ∧
  (getDefaultWeekPlan week config sk = None ↔
   defaultDays config sk ∉ dayName <$> week).
Proof.
  intros Hweek.
  destruct (getWeeksInMonth_weeks year month) as [Hok _].
  pose proof (proj1 (Forall_forall _ _) Hok week Hweek) as Hw.
  apply WeekOK_names in Hw as [Hnd _].
  unfold getDefaultWeekPlan. split.
  - intros d. split.
    + destruct (List.find _ week) as [m|] eqn:Hf; [|done].
      intros [= <-]. apply find_dayName_Some in Hf as [? ?]. by exists m.
    + intros (wd & Hin & Hn & <-).
      destruct (List.find _ week) as [m|] eqn:Hf.
      * apply find_dayName_Some in Hf as [Hm Hmn].
        apply list_elem_of_lookup in Hin as [i Hi].
        apply list_elem_of_lookup in Hm as [j Hj].
        assert (i = j) as ->.
        { eapply NoDup_lookup; [exact Hnd| |].
          - by rewrite list_lookup_fmap, Hi.
          - rewrite list_lookup_fmap, Hj. simpl. congruence. }
        congruence.
      * apply find_dayName_None in Hf. exfalso. apply Hf.
        apply list_elem_of_fmap. by exists wd.
  - destruct (List.find _ week) as [m|] eqn:Hf.
    + apply find_dayName_Some in Hf as [Hm Hmn]. split; [done|].
      intros Hno. exfalso. apply Hno. apply list_elem_of_fmap. by exists m.
    + apply find_dayName_None in Hf. done.
Qed.

(** *** Dates written by the calendar and read by the scheduler *)

Lemma digitValue_pretty_N_char (x : N) :
  (x < 10)%N → digitValue (pretty_N_char x) = Some (N.to_nat x).
Proof.
  intros Hx.
  do 10 (destruct x as [|x] using N.peano_ind; [reflexivity|];
         try (rewrite <- ?N.add_1_r in *)).
  lia.
Qed.

Lemma string_app_cons c s1 s2 : String c s1 +:+ s2 = String c (s1 +:+ s2).
Proof. reflexivity. Qed.

Lemma string_app_nil_r s : s +:+ "" = s.
Proof. induction s as [|c s IH]; [done|]. by rewrite string_app_cons, IH. Qed.

Lemma string_app_assoc s1 s2 s3 : (s1 +:+ s2) +:+ s3 = s1 +:+ (s2 +:+ s3).
Proof. induction s1 as [|c s1 IH]; [done|]. by rewrite !string_app_cons, IH. Qed.

Lemma pretty_N_go_app (x : N) s : pretty_N_go x s = pretty_N_go x "" +:+ s.
Proof.
  revert s. induction (N.lt_wf_0 x) as [x _ IH]. intros s.
  destruct (decide (x = 0%N)) as [->|Hx]; [by rewrite !pretty_N_go_0|].
  assert (x `div` 10 < x)%N as Hlt by (apply N.div_lt; lia).
  rewrite !(pretty_N_go_step x) by lia.
  rewrite (IH _ Hlt (String _ s)), (IH _ Hlt (String _ "")).
  by rewrite string_app_assoc.
Qed.

Lemma digitsValue_app s1 s2 acc :
  digitsValue acc (s1 +:+ s2) = digitsValue acc s1 ≫= λ v, digitsValue v s2.
Proof.
  revert acc. induction s1 as [|c s1 IH]; intros acc; [done|].
  rewrite string_app_cons. simpl.
  destruct (digitValue c) as [d|]; simpl; [apply IH|done].
Qed.

Lemma digitsValue_pretty_N_go (x : N) :
  ∃ k, ∀ acc, digitsValue acc (pretty_N_go x "") = Some (acc * 10 ^ k + N.to_nat x)%nat.
Proof.
  induction (N.lt_wf_0 x) as [x _ IH].
  destruct (decide (x = 0%N)) as [->|Hx].
  { exists 0%nat. intros acc. rewrite pretty_N_go_0. simpl. f_equal. lia. }
  destruct (IH (x `div` 10)%N) as [k Hk]; [apply N.div_lt; lia|].
  exists (S k). intros acc.
  rewrite pretty_N_go_step by lia. rewrite pretty_N_go_app, digitsValue_app, Hk.
  simpl. rewrite digitValue_pretty_N_char by (apply N.mod_lt; lia). simpl.
  f_equal.
  pose proof (N.div_mod x 10 ltac:(lia)) as Hdm.
  assert (N.to_nat x = 10 * N.to_nat (x `div` 10) + N.to_nat (x `mod` 10))%nat
    as -> by lia.
  lia.
Qed.

Lemma pretty_N_go_nonempty (x : N) : (0 < x)%N → pretty_N_go x "" ≠ "".
Proof.
  intros Hx. rewrite pretty_N_go_step by done. rewrite pretty_N_go_app.
  by destruct (pretty_N_go _ "").
Qed.

(** A number written in decimal reads back as itself. *)
Lemma digitsValue_pretty (n : nat) : pretty n ≠ "" ∧ digitsValue 0 (pretty n) = Some n.
Proof.
  unfold pretty, pretty_nat, pretty, pretty_N.
  case_decide as Hn.
  - assert (n = 0)%nat as -> by lia. done.
  - split; [apply pretty_N_go_nonempty; lia|].
    destruct (digitsValue_pretty_N_go (N.of_nat n)) as [k Hk].
    rewrite Hk. f_equal. lia.
Qed.

Lemma digitsValue_padStart2 (n : nat) :
  padStart2 (pretty n) ≠ "" ∧ digitsValue 0 (padStart2 (pretty n)) = Some n.
Proof.
  destruct (digitsValue_pretty n) as [Hne Hv]. unfold padStart2.
  destruct (pretty n) as [|c [|c' s]] eqn:E; simpl; [done|..]; split; try done.
Qed.

Lemma numberOf_digits s n : s ≠ "" → digitsValue 0 s = Some n → numberOf s = Some n.
Proof. by destruct s. Qed.

(** A run of digits holds no dash. *)
Lemma splitDash_digits s : ∀ acc n cur rest,
  digitsValue acc s = Some n →
  splitDash cur (s +:+ rest) = splitDash (cur +:+ s) rest.
Proof.
  induction s as [|c s IH]; intros acc n cur rest Hs.
  { by rewrite string_app_nil_r. }
  rewrite string_app_cons. simpl.
  simpl in Hs. destruct (digitValue c) as [d|] eqn:Hd; [|done]. simpl in Hs.
  destruct (Ascii.eqb c _) eqn:Hc.
  { apply Ascii.eqb_eq in Hc as ->. by vm_compute in Hd. }
  rewrite (IH _ _ _ _ Hs). f_equal.
  by rewrite string_app_assoc.
Qed.

Lemma splitDash_isoDate y m d :
  splitDash "" (isoDate y m d) =
  [pretty y; padStart2 (pretty m); padStart2 (pretty d)].
Proof.
  unfold isoDate.
  destruct (digitsValue_pretty y) as [_ Hy].
  destruct (digitsValue_padStart2 m) as [_ Hm].
  destruct (digitsValue_padStart2 d) as [_ Hd].
  assert (∀ s, "" +:+ s = s) as Hnil by done.
  rewrite (splitDash_digits _ _ _ _ _ Hy). rewrite string_app_cons, !Hnil. simpl.
  f_equal.
  rewrite (splitDash_digits _ _ _ _ _ Hm). rewrite string_app_cons, !Hnil. simpl.
  f_equal.
  rewrite <- (string_app_nil_r (padStart2 (pretty d))) at 1.
  rewrite (splitDash_digits _ _ _ _ _ Hd). by rewrite Hnil.
Qed.

Lemma parseYMD_isoDate y m d :
  (1000 ≤ y)%nat → (1 ≤ m ≤ 12)%nat → (1 ≤ d ≤ 31)%nat →
  parseYMD (isoDate y m d) = Some (y, m, d).
Proof.
  intros Hy Hm Hd. unfold parseYMD. rewrite splitDash_isoDate.
  destruct (digitsValue_pretty y) as [Hy1 Hy2].
  destruct (digitsValue_padStart2 m) as [Hm1 Hm2].
  destruct (digitsValue_padStart2 d) as [Hd1 Hd2].
  rewrite (numberOf_digits _ _ Hy1 Hy2), (numberOf_digits _ _ Hm1 Hm2),
    (numberOf_digits _ _ Hd1 Hd2). simpl.
  by rewrite bool_decide_eq_true_2.
Qed.

Lemma daysInMonth_le y m : (daysInMonth y m ≤ 31)%nat.
Proof.
  unfold daysInMonth.
  do 12 (destruct m as [|m]; [try lia; destruct (isLeapYear y); lia|]).
  lia.
Qed.

Lemma elem_of_businessDays year month days wd :
  wd ∈ businessDays year month days ↔
  ∃ d, d ∈ days ∧ (1 ≤ weekdayIndex year (month + 1) d ≤ 5)%nat ∧
       wd = weekDayOf year month d (weekdayIndex year (month + 1) d).
Proof.
  unfold businessDays. rewrite list_elem_of_bind. split.
  - intros (d & Hin & Hd). exists d. split; [done|].
    destruct (_ && _) eqn:Hb; [|by apply not_elem_of_nil in Hin].
    apply andb_true_iff in Hb as [H1%Nat.leb_le H2%Nat.leb_le].
    apply list_elem_of_singleton in Hin. done.
  - intros (d & Hd & [H1 H2] & ->). exists d. split; [|done].
    apply Nat.leb_le in H1, H2. rewrite H1, H2. simpl. by left.
Qed.

Lemma weekDayOf_date_inj year month d1 d2 dw1 dw2 :
  (1000 ≤ year)%nat → (month < 12)%nat → (1 ≤ d1 ≤ 31)%nat → (1 ≤ d2 ≤ 31)%nat →
  wd_date (weekDayOf year month d1 dw1) = wd_date (weekDayOf year month d2 dw2) →
  d1 = d2.
Proof.
  intros Hy Hm H1 H2 E. simpl in E.
  pose proof (parseYMD_isoDate year (month + 1) d1 Hy ltac:(lia) H1) as P1.
  pose proof (parseYMD_isoDate year (month + 1) d2 Hy ltac:(lia) H2) as P2.
  rewrite E in P1. congruence.
Qed.

(** A date of the calendar parses to the weekday it was written for. *)
Lemma calendar_weekday year month week wd :
  (1000 ≤ year)%nat → (month < 12)%nat →
  week ∈ getWeeksInMonth year month → wd ∈ week →
  weekdayName (wd_date wd) = Some (dayName wd) ∧
  getDay (wd_date wd) = Some (Z.to_nat (dow wd)).
Proof.
  intros Hy Hm Hweek Hwd.
  destruct (getWeeksInMonth_weeks year month) as [_ Hcat].
  pose proof (daysInMonth_le year (month + 1)) as Hdays.
  assert (wd ∈ concat (getWeeksInMonth year month)) as Hin.
  { apply elem_of_concat. by exists week. }
  rewrite Hcat in Hin. apply elem_of_businessDays in Hin as (d & Hd & Hdw & ->).
  apply elem_of_seq in Hd.
  unfold weekdayName, weekDayOf. simpl.
  rewrite parseYMD_isoDate by lia. simpl. rewrite Nat2Z.id. split; [|done].
  generalize dependent (weekdayIndex year (month + 1) d). intros dw Hdw.
  do 6 (destruct dw as [|dw]; [try lia; reflexivity|]). lia.
Qed.

(** X: the dates of the calendar as the scheduler reads them. *)
Theorem getWeeksInMonth_dates year month :
  (1000 ≤ year)%nat → (month < 12)%nat →
  (∀ week wd, week ∈ getWeeksInMonth year month → wd ∈ week →
     weekdayName (wd_date wd) = Some (dayName wd) ∧
     getDay (wd_date wd) = Some (Z.to_nat (dow wd))) ∧
  NoDup (wd_date <$> concat (getWeeksInMonth year month)).
Proof.
  intros Hy Hm.
  destruct (getWeeksInMonth_weeks year month) as [_ Hcat].
  pose proof (daysInMonth_le year (month + 1)) as Hdays.
  split; [intros week wd; by apply calendar_weekday|].
  rewrite Hcat.
  assert (∀ wd, wd ∈ businessDays year month (seq 1 (daysInMonth year (month + 1))) →
    ∃ d, (1 ≤ d ≤ 31)%nat ∧
         wd = weekDayOf year month d (weekdayIndex year (month + 1) d)) as Hel.
  { intros wd (d & Hd & _ & ->)%elem_of_businessDays.
    apply elem_of_seq in Hd. exists d. split; [lia|done]. }
  apply NoDup_fmap_2_strong.
  - intros x y (d1 & H1 & ->)%Hel (d2 & H2 & ->)%Hel E.
    by rewrite (weekDayOf_date_inj _ _ _ _ _ _ Hy Hm H1 H2 E).
  - unfold businessDays. apply NoDup_bind; [| |apply NoDup_seq].
    + intros d1 d2 wd Hd1 Hd2 Hw1 Hw2.
      apply elem_of_seq in Hd1, Hd2.
      destruct (_ && _); [|by apply not_elem_of_nil in Hw1].
      destruct (_ && _); [|by apply not_elem_of_nil in Hw2].
      apply list_elem_of_singleton in Hw1, Hw2. subst wd.
      apply (weekDayOf_date_inj year month d1 d2
               (weekdayIndex year (month + 1) d1) (weekdayIndex year (month + 1) d2)
               Hy Hm); [lia..|by rewrite Hw2].
    + intros d _. destruct (_ && _); [apply NoDup_singleton|constructor].
Qed.

(** X: with default plans every slot falls on its configured weekday. *)
Theorem default_plan_weekdays year month config s :
  (1000 ≤ year)%nat → (month < 12)%nat →
  s ∈ allSlots (getWeeksInMonth year month) ∅ config →
  weekdayName (date s) = Some (defaultDays config (slotKey s)) ∧
  ∃ week wd, getWeeksInMonth year month !! wi s = Some week ∧ wd ∈ week ∧
             wd_date wd = date s ∧ dayName wd = defaultDays config (slotKey s).
Proof.
  intros Hy Hm (week & Hw & Hd & _)%elem_of_allSlots.
  unfold planFor in Hd. rewrite lookup_empty in Hd. simpl in Hd.
  unfold getDefaultWeekPlan in Hd.
  destruct (List.find _ week) as [wd|] eqn:Hf; [|done].
  apply find_dayName_Some in Hf as [Hin Hname].
  assert (wd_date wd = date s) as Hdate.
  { simpl in Hd. destruct (String.eqb (wd_date wd) ""); [done|]. by injection Hd. }
  assert (week ∈ getWeeksInMonth year month) as Hweek
    by (by eapply list_elem_of_lookup_2).
  destruct (calendar_weekday year month week wd Hy Hm Hweek Hin) as [Hwn _].
  split; [by rewrite <- Hdate, Hwn, Hname|]. by exists week, wd.
Qed.

(** P plays X at noon on the one training day, and that is all. *)
Lemma getActorStats_counts_witness :
  "P" ≠ "" ∧
  totalOf (Stats.getActorStats [marchWeek] ∅ (Some pairSchedule) cfgPair) "P" = 1%Z ∧
  ∃ cells : list (nat * SlotKey * Shift * string),
    NoDup cells ∧
    (∀ w sk sh sc, (w, sk, sh, sc) ∈ cells ↔
       (w < length [marchWeek])%nat ∧ cellOf pairSchedule w sk sh sc = Some (Some "P")) ∧
    totalOf (Stats.getActorStats [marchWeek] ∅ (Some pairSchedule) cfgPair) "P" =
      Z.of_nat (length cells) ∧
    (∀ sc, scenarioCountOf
             (Stats.getActorStats [marchWeek] ∅ (Some pairSchedule) cfgPair) "P" sc
           = Z.of_nat (length (filter (λ c, c.2 = sc) cells))) ∧
    (is_Some (Stats.getActorStats [marchWeek] ∅ (Some pairSchedule) cfgPair !! "P") ↔
     "P" ∈ actors cfgPair ∨ cells ≠ []).
Proof.
  assert ("P" ≠ "") as Hne by discriminate.
  split; [exact Hne|]. split; [vm_compute; reflexivity|].
  exact (getActorStats_counts [marchWeek] ∅ pairSchedule cfgPair "P" Hne).
Defined.

Lemma getActorStats_total_is_sum_witness :
  Stats.getActorStats [marchWeek] ∅ (Some pairSchedule) cfgPair !! "P" =
    Some {| Stats.total := 1; Stats.scenarios := {[ "X" := 1%Z ]} |} ∧
  1%Z = sumCounts {[ "X" := 1%Z ]}.
Proof.
  assert (Stats.getActorStats [marchWeek] ∅ (Some pairSchedule) cfgPair !! "P" =
            Some {| Stats.total := 1; Stats.scenarios := {[ "X" := 1%Z ]} |}) as Hs
    by (vm_compute; reflexivity).
  split; [exact Hs|].
  exact (getActorStats_total_is_sum [marchWeek] ∅ (Some pairSchedule) cfgPair "P" _ Hs).
Defined.

(** October 2026 opens with a Thursday: the default Tuesday gives no
    date in its first week, the default Thursday gives the first. *)
Lemma getDefaultWeekPlan_calendar_witness :
  octoberFirstWeek ∈ getWeeksInMonth 2026 9 ∧
  getDefaultWeekPlan octoberFirstWeek cfgSolo slot1 = None ∧
  getDefaultWeekPlan octoberFirstWeek cfgSolo slot3 = Some "2026-10-01" ∧
  (∀ d, getDefaultWeekPlan octoberFirstWeek cfgSolo slot3 = Some d ↔
        ∃ wd, wd ∈ octoberFirstWeek ∧ dayName wd = defaultDays cfgSolo slot3 ∧
              wd_date wd = d) ∧
  (getDefaultWeekPlan octoberFirstWeek cfgSolo slot3 = None ↔
   defaultDays cfgSolo slot3 ∉ dayName <$> octoberFirstWeek).
Proof.
  assert (octoberFirstWeek ∈ getWeeksInMonth 2026 9) as Hin.
  { apply list_elem_of_lookup. exists 0%nat. vm_compute. reflexivity. }
  split; [exact Hin|]. split; [reflexivity|]. split; [reflexivity|].
  exact (getDefaultWeekPlan_calendar 2026 9 cfgSolo octoberFirstWeek slot3 Hin).
Defined.

Lemma getWeeksInMonth_dates_witness :
  (1000 ≤ 2026)%nat ∧ (2 < 12)%nat ∧
  (∀ week wd, week ∈ getWeeksInMonth 2026 2 → wd ∈ week →
     weekdayName (wd_date wd) = Some (dayName wd) ∧
     getDay (wd_date wd) = Some (Z.to_nat (dow wd))) ∧
  NoDup (wd_date <$> concat (getWeeksInMonth 2026 2)).
Proof.
  assert (1000 ≤ 2026)%nat as Hy by lia.
  assert (2 < 12)%nat as Hm by lia.
  split; [exact Hy|]. split; [exact Hm|].
  exact (getWeeksInMonth_dates 2026 2 Hy Hm).
Defined.

(** The second week of March 2026 under the default plan: the first day
    slot is Tuesday the 10th. *)
Lemma default_plan_weekdays_witness :
  (1000 ≤ 2026)%nat ∧ (2 < 12)%nat ∧
  {| wi := 1; slotKey := slot1; shift := AM; scenario := "X"; date := "2026-03-10" |}
    ∈ allSlots (getWeeksInMonth 2026 2) ∅ cfgSolo ∧
  weekdayName "2026-03-10" = Some (defaultDays cfgSolo slot1) ∧
  ∃ week wd, getWeeksInMonth 2026 2 !! 1%nat = Some week ∧ wd ∈ week ∧
             wd_date wd = "2026-03-10" ∧ dayName wd = defaultDays cfgSolo slot1.
Proof.
  assert (1000 ≤ 2026)%nat as Hy by lia.
  assert (2 < 12)%nat as Hm by lia.
  assert ({| wi := 1; slotKey := slot1; shift := AM; scenario := "X";
             date := "2026-03-10" |} ∈ allSlots (getWeeksInMonth 2026 2) ∅ cfgSolo)
    as Hin.
  { apply elem_of_allSlots. exists marchWeek. split; [vm_compute; reflexivity|].
    split; [vm_compute; reflexivity|]. simpl. set_solver. }
  split; [exact Hy|]. split; [exact Hm|]. split; [exact Hin|].
  exact (default_plan_weekdays 2026 2 cfgSolo _ Hy Hm Hin).
Defined.

(** ** Line folding *)

Lemma isContinuation_range b :
  (0 ≤ b < 256)%Z → isContinuation b = true ↔ (128 ≤ b < 192)%Z.
Proof.
  intros Hb. unfold isContinuation.
  assert (Forall (λ b, (Z.land b 192 =? 128)%Z = bool_decide (128 ≤ b < 192)%Z)
            (seqZ 0 256)) as Hall.
  { apply (bool_decide_unpack _). vm_compute. exact I. }
  assert (b ∈ seqZ 0 256) as Hin by (apply elem_of_seqZ; lia).
  rewrite (proj1 (Forall_forall _ _) Hall b Hin).
  by rewrite bool_decide_eq_true.
Qed.

Lemma retreatFrom_S bytes k :
  retreatFrom bytes (S k) =
  if isContinuation (default 0%Z (bytes !! S k)) then retreatFrom bytes k else S k.
Proof. reflexivity. Qed.

Lemma utf8Char_shape cp :
  validScalar cp →
  ∃ lead conts, utf8Char cp = lead :: conts ∧
    isContinuation lead = false ∧
    Forall (λ b, isContinuation b = true) conts ∧ (length conts ≤ 3)%nat.
Proof.
  intros Hv. unfold utf8Char.
  assert (∀ b, (0 ≤ b < 128 ∨ 192 ≤ b < 256)%Z → isContinuation b = false) as Hlead.
  { intros b Hb. destruct (isContinuation b) eqn:E; [|done].
    apply isContinuation_range in E; lia. }
  assert (∀ x, isContinuation (128 + x `mod` 64) = true) as Hcont.
  { intros x. apply isContinuation_range; Z.div_mod_to_equations; lia. }
  destruct (cp <? 128)%Z eqn:H1; [apply Z.ltb_lt in H1|apply Z.ltb_ge in H1].
  { exists cp, []. split; [done|]. split; [apply Hlead; destruct Hv; lia|].
    split; [constructor|simpl; lia]. }
  destruct (cp <? 2048)%Z eqn:H2; [apply Z.ltb_lt in H2|apply Z.ltb_ge in H2].
  { eexists _, _. split; [done|].
    split; [apply Hlead; Z.div_mod_to_equations; lia|].
    split; [repeat constructor; apply Hcont|simpl; lia]. }
  destruct (cp <? 65536)%Z eqn:H3; [apply Z.ltb_lt in H3|apply Z.ltb_ge in H3].
  { eexists _, _. split; [done|].
    split; [apply Hlead; Z.div_mod_to_equations; lia|].
    split; [repeat constructor; apply Hcont|simpl; lia]. }
  eexists _, _. split; [done|].
  split; [apply Hlead; destruct Hv; Z.div_mod_to_equations; lia|].
  split; [repeat constructor; apply Hcont|simpl; lia].
Qed.

Lemma utf8_cons cp line : utf8 (cp :: line) = utf8Char cp ++ utf8 line.
Proof. reflexivity. Qed.

Lemma utf8_app l1 l2 : utf8 (l1 ++ l2) = utf8 l1 ++ utf8 l2.
Proof. unfold utf8. apply bind_app. Qed.

Lemma utf8_nonempty line : Forall validScalar line → line ≠ [] → utf8 line ≠ [].
Proof.
  intros Hv Hne. destruct line as [|cp line]; [done|].
  apply Forall_cons in Hv as [Hcp _].
  destruct (utf8Char_shape cp Hcp) as (lead & conts & E & _).
  by rewrite utf8_cons, E.
Qed.

(** Below position [k] of an encoded line the retreat finds a character
    boundary at most three octets down. *)
Lemma retreatFrom_spec line : ∀ k,
  Forall validScalar line → (k < length (utf8 line))%nat →
  ∃ j, retreatFrom (utf8 line) k = length (utf8 (take j line)) ∧
       (retreatFrom (utf8 line) k ≤ k < retreatFrom (utf8 line) k + 4)%nat.
Proof.
  induction line as [|cp line IH]; intros k Hv Hk; [simpl in Hk; lia|].
  apply Forall_cons in Hv as [Hcp Hv].
  destruct (utf8Char_shape cp Hcp) as (lead & conts & E & Hlead & Hconts & Hlen).
  rewrite utf8_cons, E in *.
  assert (∀ i, (i ≤ length conts)%nat → retreatFrom ((lead :: conts) ++ utf8 line) i = 0%nat)
    as Hlow.
  { induction i as [|i IHi]; intros Hi; [done|]. rewrite retreatFrom_S.
    change (((lead :: conts) ++ utf8 line) !! S i) with ((conts ++ utf8 line) !! i).
    rewrite lookup_app_l by lia.
    destruct (conts !! i) as [b|] eqn:Hb; [|apply lookup_ge_None in Hb; lia].
    simpl. rewrite (proj1 (Forall_forall _ _) Hconts b)
      by (by eapply list_elem_of_lookup_2).
    apply IHi. lia. }
  destruct (decide (k ≤ length conts)%nat) as [Hsmall|Hbig].
  { exists 0%nat. rewrite Hlow by done. simpl. lia. }
  assert (∀ i, (i < length (utf8 line))%nat →
    retreatFrom ((lead :: conts) ++ utf8 line) (S (length conts) + i) =
    (S (length conts) + retreatFrom (utf8 line) i)%nat) as Hshift.
  { assert (∃ b, utf8 line !! 0%nat = Some b ∧ isContinuation b = false) as (b0 & Hb0 & Hc0).
    { destruct line as [|cp' line']; [rewrite length_app in Hk; simpl in Hk; lia|].
      apply Forall_cons in Hv as [Hcp' _].
      destruct (utf8Char_shape cp' Hcp') as (l' & c' & E' & Hl' & _).
      exists l'. by rewrite utf8_cons, E'. }
    assert (∀ i, ((lead :: conts) ++ utf8 line) !! (S (length conts) + i)%nat =
                 utf8 line !! i) as Hlook.
    { intros i. rewrite lookup_app_r by (simpl; lia). f_equal. simpl. lia. }
    induction i as [|i IHi]; intros Hi.
    - rewrite Nat.add_0_r, retreatFrom_S.
      rewrite <- (Nat.add_0_r (S (length conts))) at 1. rewrite Hlook, Hb0. simpl.
      rewrite Hc0. lia.
    - replace (S (length conts) + S i)%nat with (S (S (length conts) + i)) by lia.
      rewrite !retreatFrom_S.
      replace (S (S (length conts) + i)) with (S (length conts) + S i)%nat by lia.
      rewrite Hlook.
      destruct (isContinuation (default 0%Z (utf8 line !! S i))); [|lia].
      apply IHi. lia. }
  simpl in Hk. rewrite length_app in Hk.
  assert (∃ k', k = S (length conts) + k')%nat as [k' ->]
    by (exists (k - S (length conts))%nat; lia).
  destruct (IH k' Hv ltac:(lia)) as (j & Hj & Hr).
  exists (S j).
  rewrite Hshift by lia. simpl take. rewrite utf8_cons, E, Hj.
  rewrite length_app. simpl. lia.
Qed.

Lemma retreat_retreatFrom bytes offset k :
  retreat bytes offset k = (offset + retreatFrom (drop offset bytes) k)%nat.
Proof.
  induction k as [|k IH]; [simpl; lia|].
  rewrite retreatFrom_S. simpl retreat. rewrite lookup_drop.
  destruct (isContinuation _); [done|lia].
Qed.

Lemma utf8_take_drop j line : utf8 line = utf8 (take j line) ++ utf8 (drop j line).
Proof. by rewrite <- utf8_app, take_drop. Qed.

(** The loop from a character boundary on: the chunks it cuts are the
    encodings of consecutive pieces of the rest of the line. *)
Lemma foldLoop_spec fuel : ∀ rest done isFirst,
  Forall validScalar rest →
  (length (utf8 rest) ≤ fuel)%nat →
  ∃ pieces : list (list Z),
    concat pieces = rest ∧ Forall (λ p, p ≠ []) pieces ∧
    foldLoop fuel (done ++ utf8 rest) (length done) isFirst =
      Some (markParts isFirst (utf8 <$> pieces)) ∧
    Forall (λ p, (length p ≤ 75)%nat) (markParts isFirst (utf8 <$> pieces)).
Proof.
  induction fuel as [|fuel IH]; intros rest done isFirst Hv Hfuel.
  { exists []. apply Nat.le_0_r, nil_length_inv in Hfuel.
    assert (rest = []) as ->.
    { destruct rest; [done|]. by apply utf8_nonempty in Hfuel. }
    split; [done|]. split; [constructor|]. simpl. rewrite app_nil_r.
    rewrite Nat.ltb_irrefl. split; [done|constructor]. }
  destruct (decide (rest = [])) as [->|Hne].
  { exists []. split; [done|]. split; [constructor|].
    simpl utf8. rewrite app_nil_r. simpl. rewrite Nat.ltb_irrefl.
    split; [done|constructor]. }
  pose proof (utf8_nonempty rest Hv Hne) as Hbytes.
  assert (0 < length (utf8 rest))%nat as Hpos by (destruct (utf8 rest); [done|simpl; lia]).
  simpl foldLoop. rewrite length_app.
  replace (length done <? length done + length (utf8 rest))%nat with true
    by (symmetry; apply Nat.ltb_lt; lia).
  set (maxBytes := if isFirst then 75%nat else 74%nat).
  assert (74 ≤ maxBytes ≤ 75)%nat as Hmax by (unfold maxBytes; destruct isFirst; lia).
  cbv zeta.
  destruct (decide (length (utf8 rest) ≤ maxBytes)%nat) as [Hfit|Hlong].
  - (* the rest fits in one part *)
    exists [rest]. split; [simpl; by rewrite app_nil_r|].
    split; [by repeat constructor|].
    replace ((length done + maxBytes) `min` (length done + length (utf8 rest)))
      with (length done + length (utf8 rest))%nat by lia.
    rewrite Nat.ltb_irrefl.
    replace (length done + length (utf8 rest) - length done)%nat
      with (length (utf8 rest)) by lia.
    rewrite drop_app_length, firstn_all.
    assert (foldLoop fuel (done ++ utf8 rest) (length done + length (utf8 rest)) false
            = Some []) as ->.
    { destruct fuel; simpl; rewrite length_app, Nat.ltb_irrefl; done. }
    simpl. split; [by destruct isFirst|].
    constructor; [|constructor]. subst maxBytes. destruct isFirst; simpl; lia.
  - (* a cut is needed *)
    replace ((length done + maxBytes) `min` (length done + length (utf8 rest)))
      with (length done + maxBytes)%nat by lia.
    replace (length done + maxBytes <? length done + length (utf8 rest))%nat with true
      by (symmetry; apply Nat.ltb_lt; lia).
    replace (length done + maxBytes - length done)%nat with maxBytes by lia.
    rewrite retreat_retreatFrom, drop_app_length.
    destruct (retreatFrom_spec rest maxBytes Hv ltac:(lia)) as (j & Hj & Hr).
    rewrite Hj in *.
    replace (length done + length (utf8 (take j rest)) - length done)%nat
      with (length (utf8 (take j rest))) by lia.
    assert (take (length (utf8 (take j rest))) (utf8 rest) = utf8 (take j rest)) as Htk.
    { rewrite (utf8_take_drop j rest). by rewrite take_app_length. }
    rewrite !Htk.
    assert (take j rest ≠ []) as Hpiece.
    { intros E. rewrite E in Hr. simpl in Hr. lia. }
    destruct (IH (drop j rest) (done ++ utf8 (take j rest)) false) as
      (pieces & Hcat & Hpieces & Hloop & Hlens).
    { rewrite <- (take_drop j rest) in Hv. by apply Forall_app in Hv as [_ ?]. }
    { rewrite (utf8_take_drop j rest), length_app in Hfuel.
      assert (0 < length (utf8 (take j rest)))%nat; [|lia].
      rewrite <- (take_drop j rest) in Hv. apply Forall_app in Hv as [Hv1 _].
      pose proof (utf8_nonempty _ Hv1 Hpiece).
      destruct (utf8 (take j rest)); [done|simpl; lia]. }
    exists (take j rest :: pieces).
    split; [simpl; by rewrite Hcat, take_drop|].
    split; [by constructor|].
    rewrite length_app, <- app_assoc, <- utf8_take_drop in Hloop.
    rewrite Hloop. simpl. split.
    + f_equal. f_equal. by destruct pieces.
    + constructor.
      * subst maxBytes. destruct isFirst; simpl; lia.
      * destruct pieces as [|p ps]; [constructor|]. exact Hlens.
Qed.

Lemma utf16Length_le_utf8 line :
  Forall validScalar line → (utf16Length line ≤ length (utf8 line))%nat.
Proof.
  unfold utf16Length, utf8. induction 1 as [|cp line Hcp Hv IH]; [done|].
  change ((cp :: line) ≫= ?f) with (f cp ++ (line ≫= f)).
  rewrite !length_app. unfold utf8Char at 1.
  destruct Hcp as [Hcp _].
  repeat (case_match; simpl); try apply Z.ltb_lt in H; try apply Z.ltb_ge in H; lia.
Qed.

(** X: folding a long line. *)
Theorem foldParts_long line :
  Forall validScalar line → (75 < utf16Length line)%nat →
  ∃ pieces : list (list Z),
    concat pieces = line ∧ Forall (λ p, p ≠ []) pieces ∧
    foldParts (length (utf8 line)) line = Some (markParts true (utf8 <$> pieces)) ∧
    Forall (λ p, (length p ≤ 75)%nat) (markParts true (utf8 <$> pieces)).
Proof.
  intros Hv Hlong. pose proof (utf16Length_le_utf8 line Hv) as Hle.
  unfold foldParts.
  replace (utf16Length line <=? 75)%nat with false
    by (symmetry; apply Nat.leb_gt; lia). cbv zeta.
  replace (length (utf8 line) <=? 75)%nat with false
    by (symmetry; apply Nat.leb_gt; lia).
  exact (foldLoop_spec (length (utf8 line)) line [] true Hv (le_n _)).
Qed.

(** X: a line of at most 75 UTF-16 units is not folded, whatever its
    length in octets. *)
Theorem foldParts_short_units n cp fuel :
  (n ≤ 75)%nat → (2048 ≤ cp < 65536)%Z →
  foldParts fuel (replicate n cp) = Some [utf8 (replicate n cp)] ∧
  length (utf8 (replicate n cp)) = (3 * n)%nat.
Proof.
  intros Hn Hcp. split.
  - unfold foldParts.
    assert (utf16Length (replicate n cp) = n) as ->; [|by rewrite (proj2 (Nat.leb_le _ _) Hn)].
    unfold utf16Length. clear Hn. induction n as [|n IH]; [done|].
    simpl replicate. change ((cp :: ?l) ≫= ?f) with (f cp ++ (l ≫= f)).
    rewrite length_app, IH.
    by rewrite (proj2 (Z.ltb_lt _ _) (proj2 Hcp)).
  - clear Hn. induction n as [|n IH]; [done|].
    simpl replicate. rewrite utf8_cons, length_app, IH. unfold utf8Char.
    replace (cp <? 128)%Z with false by (symmetry; apply Z.ltb_ge; lia).
    replace (cp <? 2048)%Z with false by (symmetry; apply Z.ltb_ge; lia).
    rewrite (proj2 (Z.ltb_lt _ _) (proj2 Hcp)). simpl. lia.
Qed.

(** Eighty euro signs, 240 octets: four physical lines of 75, 73, 73 and
    22 octets, each cut between two signs. *)
Lemma foldParts_long_witness :
  Forall validScalar (euroLine 80) ∧ (75 < utf16Length (euroLine 80))%nat ∧
  option_map (map length) (foldParts (length (utf8 (euroLine 80))) (euroLine 80)) =
    Some [75; 73; 73; 22]%nat ∧
  ∃ pieces : list (list Z),
    concat pieces = euroLine 80 ∧ Forall (λ p, p ≠ []) pieces ∧
    foldParts (length (utf8 (euroLine 80))) (euroLine 80) =
      Some (markParts true (utf8 <$> pieces)) ∧
    Forall (λ p, (length p ≤ 75)%nat) (markParts true (utf8 <$> pieces)).
Proof.
  assert (Forall validScalar (euroLine 80)) as Hv.
  { apply Forall_forall. intros x [-> _]%elem_of_replicate. unfold validScalar. lia. }
  assert (75 < utf16Length (euroLine 80))%nat as Hlong
    by (apply Nat.ltb_lt; vm_compute; reflexivity).
  split; [exact Hv|]. split; [exact Hlong|]. split; [vm_compute; reflexivity|].
  exact (foldParts_long (euroLine 80) Hv Hlong).
Defined.

(** Thirty euro signs: 30 UTF-16 units, 90 octets, one physical line. *)
Lemma foldParts_short_units_witness :
  (30 ≤ 75)%nat ∧ (2048 ≤ 8364 < 65536)%Z ∧
  foldParts 0 (replicate 30 8364%Z) = Some [utf8 (replicate 30 8364%Z)] ∧
  length (utf8 (replicate 30 8364%Z)) = (3 * 30)%nat.
Proof.
  assert (30 ≤ 75)%nat as Hn by lia.
  assert (2048 ≤ 8364 < 65536)%Z as Hcp by lia.
  split; [exact Hn|]. split; [exact Hcp|].
  exact (foldParts_short_units 30 8364 0 Hn Hcp).
Defined.

(** ** The settings editor *)

Lemma elem_of_without a l x : x ∈ without a l ↔ x ∈ l ∧ x ≠ a.
Proof.
  unfold without. rewrite list_elem_of_In, filter_In, <- list_elem_of_In.
  rewrite negb_true_iff, String.eqb_neq. done.
Qed.

Lemma NoDup_without a l : NoDup l → NoDup (without a l).
Proof.
  unfold without. induction 1 as [|x l Hx Hl IH]; simpl; [constructor|].
  destruct (negb _); [|done]. constructor; [|done].
  intros Hin. apply Hx. by apply (elem_of_without a l x) in Hin as [? _].
Qed.

Lemma elem_of_toggle a l x : x ∈ toggle a l → x ∈ l ∨ x = a.
Proof.
  unfold toggle. case_bool_decide.
  - intros [? _]%elem_of_without. by left.
  - rewrite elem_of_app, list_elem_of_singleton. done.
Qed.

Lemma NoDup_toggle a l : NoDup l → NoDup (toggle a l).
Proof.
  unfold toggle. intros Hl. case_bool_decide as Ha; [by apply NoDup_without|].
  apply NoDup_app. split; [done|]. split; [|apply NoDup_singleton].
  intros x Hx ->%list_elem_of_singleton. done.
Qed.

Lemma WellFormed_default : WellFormed DEFAULT_CONFIG.
Proof.
  split; [by apply (bool_decide_unpack _)|]. split; [|split].
  - assert (map_Forall (λ _ l, NoDup l ∧
              Forall (λ a, a ∈ actors (solver DEFAULT_CONFIG)) l)
              (scenarioActors (solver DEFAULT_CONFIG))) as Hall.
    { apply (bool_decide_unpack _). vm_compute. exact I. }
    intros sc l Hl. destruct (Hall sc l Hl) as [Hnd Hin].
    split; [done|]. by apply Forall_forall.
  - intros sk.
    assert (NoDup (slotScenarios (solver DEFAULT_CONFIG) sk) ∧
            Forall (λ sc, is_Some (scenarioActors (solver DEFAULT_CONFIG) !! sc))
              (slotScenarios (solver DEFAULT_CONFIG) sk)) as [Hnd Hin].
    { destruct sk; apply (bool_decide_unpack _); vm_compute; exact I. }
    split; [done|]. by apply Forall_forall.
  - apply Forall_forall. apply (bool_decide_unpack _). vm_compute. exact I.
Qed.

Lemma EditStep_WellFormed cfg cfg' :
  EditStep cfg cfg' → WellFormed cfg → WellFormed cfg'.
Proof.
  intros Hstep (Hacts & Happr & Hslots & Hcol).
  destruct Hstep as [n cfg|a cfg Ha|sc a cfg Hsc Ha|n cfg|sc cfg Hsc|sk sc cfg Hsc].
  - (* addActor *)
    unfold addActor. destruct (String.eqb n "" || _) eqn:Hguard; [done|].
    apply orb_false_iff in Hguard as [_ Hn]. apply bool_decide_eq_false in Hn.
    split; [|split; [|split]]; simpl.
    + apply NoDup_app. split; [done|]. split; [|apply NoDup_singleton].
      intros x Hx ->%list_elem_of_singleton. done.
    + intros sc l Hl. destruct (Happr sc l Hl) as [? Hin]. split; [done|].
      intros a Ha. apply elem_of_app. left. by apply Hin.
    + apply Hslots.
    + intros a [Ha| ->%list_elem_of_singleton]%elem_of_app.
      * apply lookup_insert_is_Some'. right. by apply Hcol.
      * apply lookup_insert_is_Some'. by left.
  - (* rmActor *)
    split; [|split; [|split]]; simpl.
    + by apply NoDup_without.
    + intros sc l. rewrite lookup_fmap.
      destruct (scenarioActors (solver cfg) !! sc) as [l0|] eqn:Hl0; simpl; [|done].
      intros [= <-]. destruct (Happr sc l0 Hl0) as [? Hin].
      split; [by apply NoDup_without|].
      intros x [Hx Hne]%elem_of_without. apply elem_of_without. split; [|done].
      by apply Hin.
    + intros sk. destruct (Hslots sk) as [? Hin]. split; [done|].
      intros sc Hsc. rewrite lookup_fmap, fmap_is_Some. by apply Hin.
    + intros x [Hx Hne]%elem_of_without. rewrite lookup_delete_ne by done.
      by apply Hcol.
  - (* toggleAS *)
    split; [|split; [|split]]; simpl; [done| | |done].
    + intros sc' l. destruct (decide (sc' = sc)) as [->|Hne].
      * rewrite lookup_insert_eq. intros [= <-].
        destruct Hsc as [l0 Hl0]. rewrite Hl0. simpl.
        destruct (Happr sc l0 Hl0) as [? Hin]. split; [by apply NoDup_toggle|].
        intros x [Hx| ->]%elem_of_toggle; [by apply Hin|done].
      * rewrite lookup_insert_ne by done. apply Happr.
    + intros sk. destruct (Hslots sk) as [? Hin]. split; [done|].
      intros sc' Hsc'. apply lookup_insert_is_Some'. right. by apply Hin.
  - (* addSc *)
    unfold addSc. destruct (String.eqb n "" || _) eqn:Hguard; [done|].
    split; [|split; [|split]]; simpl; [done| | |done].
    + intros sc l. destruct (decide (sc = n)) as [->|Hne].
      * rewrite lookup_insert_eq. intros [= <-]. split; [constructor|].
        by intros a ?%not_elem_of_nil.
      * rewrite lookup_insert_ne by done. apply Happr.
    + intros sk. destruct (Hslots sk) as [? Hin]. split; [done|].
      intros sc' Hsc'. apply lookup_insert_is_Some'. right. by apply Hin.
  - (* rmSc *)
    split; [|split; [|split]]; simpl; [done| | |done].
    + intros sc' l Hl. apply lookup_delete_Some in Hl as [_ Hl]. by apply (Happr sc').
    + intros sk. destruct (Hslots sk) as [? Hin]. split; [by apply NoDup_without|].
      intros sc' [Hsc' Hne]%elem_of_without.
      rewrite lookup_delete_ne by done. by apply Hin.
  - (* toggleSlotSc *)
    split; [|split; [|split]]; simpl; [done|done| |done].
    intros sk'. destruct (decide (sk = sk')) as [<-|Hne].
    + rewrite fn_lookup_insert. destruct (Hslots sk) as [? Hin].
      split; [by apply NoDup_toggle|].
      intros sc' [Hsc'| ->]%elem_of_toggle; [by apply Hin|done].
    + rewrite fn_lookup_insert_ne by done. apply Hslots.
Qed.

(** X: every configuration the editor reaches is well formed. *)
Theorem editor_well_formed cfg :
  rtc EditStep DEFAULT_CONFIG cfg → WellFormed cfg.
Proof.
  intros Hr.
  eapply (rtc_ind_r (R := EditStep) WellFormed DEFAULT_CONFIG);
    [apply WellFormed_default| |exact Hr].
  intros c c' _ Hstep Hc. by eapply EditStep_WellFormed.
Qed.

Lemma reachable_slot_lists cfg sk :
  rtc EditStep DEFAULT_CONFIG cfg → NoDup (slotScenarios (solver cfg) sk).
Proof.
  intros Hr.
  assert (WellFormed cfg) as (_ & _ & Hslots & _).
  { eapply (rtc_ind_r (R := EditStep) WellFormed DEFAULT_CONFIG);
      [apply WellFormed_default| |exact Hr].
    intros c c' _ Hstep Hc. by eapply EditStep_WellFormed. }
  apply Hslots.
Qed.

Lemma toggle_twice a l :
  NoDup l →
  toggle a (toggle a l) =
    without a l ++ (if bool_decide (a ∈ l) then [a] else []) ∧
  toggle a (toggle a l) ≡ₚ l.
Proof.
  intros Hl.
  assert (∀ k, a ∉ k → without a k = k) as Hid.
  { intros k Hk. unfold without. induction k as [|x k IH]; [done|].
    apply not_elem_of_cons in Hk as [Hne Hk]. simpl.
    destruct (String.eqb x a) eqn:E; [by apply String.eqb_eq in E|].
    simpl. by rewrite IH. }
  assert (a ∉ without a l) as Hout by (by intros [_ ?]%elem_of_without).
  assert (toggle a (toggle a l) =
          without a l ++ (if bool_decide (a ∈ l) then [a] else [])) as E.
  { unfold toggle at 2. case_bool_decide as Ha.
    - unfold toggle. by rewrite bool_decide_eq_false_2.
    - unfold toggle. rewrite bool_decide_eq_true_2 by (apply elem_of_app; right; by left).
      unfold without. rewrite List.filter_app. fold (without a l). rewrite Hid by done.
      simpl. rewrite String.eqb_refl. simpl. by rewrite app_nil_r. }
  split; [done|]. rewrite E. case_bool_decide as Ha.
  - clear E Hid Hout. induction Hl as [|x l Hx Hl IH]; [by apply not_elem_of_nil in Ha|].
    unfold without. simpl. destruct (String.eqb x a) eqn:Ex.
    + apply String.eqb_eq in Ex as ->. simpl. fold (without a l).
      assert (without a l = l) as ->.
      { unfold without. clear IH Ha Hl. induction l as [|y l IH]; [done|].
        apply not_elem_of_cons in Hx as [Hne Hx]. simpl.
        destruct (String.eqb y a) eqn:E; [apply String.eqb_eq in E; by subst|].
        simpl. by rewrite IH. }
      symmetry. apply Permutation_cons_append.
    + apply String.eqb_neq in Ex. simpl. fold (without a l).
      apply elem_of_cons in Ha as [?|Ha]; [done|].
      by rewrite (IH Ha).
  - by rewrite app_nil_r, Hid.
Qed.

(** X: approving and withdrawing, or withdrawing and approving again. *)
Theorem toggleAS_twice cfg sc a l :
  scenarioActors (solver cfg) !! sc = Some l → NoDup l →
  scenarioActors (solver (toggleAS sc a (toggleAS sc a cfg))) =
    <[sc := without a l ++ (if bool_decide (a ∈ l) then [a] else [])]>
      (scenarioActors (solver cfg)) ∧
  without a l ++ (if bool_decide (a ∈ l) then [a] else []) ≡ₚ l ∧
  actors (solver (toggleAS sc a (toggleAS sc a cfg))) = actors (solver cfg) ∧
  slotScenarios (solver (toggleAS sc a (toggleAS sc a cfg))) =
    slotScenarios (solver cfg).
Proof.
  intros Hl Hnd. destruct (toggle_twice a l Hnd) as [E Hp].
  split; [|split; [by rewrite <- E|done]].
  unfold toggleAS. simpl. rewrite lookup_insert_eq, Hl. simpl.
  by rewrite insert_insert_eq, E.
Qed.

Section EditorAndScheduler.
Context `{!Host}.
Variable weeks : list (list WeekDay).
Variable weekPlans : gmap nat WeekPlan.
Variable availability : gmap string (gmap string AvailValue).

(** X: a removed person is not scheduled. *)
Theorem rmActor_never_scheduled cfg a w sk sh sc :
  cellOf (r_schedule (generateSchedule weeks weekPlans availability
                        (solver (rmActor a cfg)))) w sk sh sc ≠ Some (Some a).
Proof.
  intros (s & st & relax & _ & _ & Hap & _)%placed_was_candidate.
  unfold approvedFor in Hap. simpl in Hap. rewrite lookup_fmap in Hap.
  destruct (scenarioActors (solver cfg) !! scenario s) as [l|]; simpl in Hap.
  - by apply elem_of_without in Hap as [_ ?].
  - by apply not_elem_of_nil in Hap.
Qed.

(** X: a removed scenario leaves the schedule and the diagnostics. *)
Theorem rmSc_gone cfg sc :
  (∀ w sk sh,
     cellOf (r_schedule (generateSchedule weeks weekPlans availability
                           (solver (rmSc sc cfg)))) w sk sh sc = None) ∧
  (∀ d, d ∈ r_errors (generateSchedule weeks weekPlans availability
                        (solver (rmSc sc cfg))) → d_scenario d ≠ sc).
Proof.
  split.
  - intros w sk sh.
    destruct (generateSchedule_SameShape weeks weekPlans availability
                (solver (rmSc sc cfg))) as (_ & _ & Hc).
    apply eq_None_not_Some. rewrite Hc, cellOf_skeleton_is_Some.
    intros (week & d & _ & _ & Hin). simpl in Hin.
    by apply elem_of_without in Hin as [_ ?].
  - intros d (slot & st & Hs & _ & ->)%generateSchedule_diagnostics.
    apply elem_of_allSlots in Hs as (week & _ & _ & Hin). simpl in Hin.
    apply elem_of_without in Hin as [_ ?]. done.
Qed.

End EditorAndScheduler.

Lemma editedConfig_reachable : rtc EditStep DEFAULT_CONFIG editedConfig.
Proof.
  eapply rtc_l; [apply (edit_addActor "Zoe")|].
  apply rtc_once. apply (edit_rmActor "Doc").
  apply (bool_decide_unpack _). vm_compute. exact I.
Qed.

Lemma editor_well_formed_witness :
  rtc EditStep DEFAULT_CONFIG editedConfig ∧
  "Zoe" ∈ actors (solver editedConfig) ∧ "Doc" ∉ actors (solver editedConfig) ∧
  WellFormed editedConfig.
Proof.
  split; [exact editedConfig_reachable|].
  split; [apply (bool_decide_unpack _); vm_compute; exact I|].
  split; [apply (bool_decide_unpack _); vm_compute; exact I|].
  exact (editor_well_formed editedConfig editedConfig_reachable).
Defined.

(** Doc stands second of four for Mania; withdrawn and approved again,
    Doc stands last. *)
Lemma toggleAS_twice_witness :
  scenarioActors (solver DEFAULT_CONFIG) !! "Mania" =
    Some ["Sat Charn"; "Doc"; "Antonia"; "Mara"] ∧
  NoDup ["Sat Charn"; "Doc"; "Antonia"; "Mara"] ∧
  scenarioActors (solver (toggleAS "Mania" "Doc" (toggleAS "Mania" "Doc" DEFAULT_CONFIG)))
    !! "Mania" = Some ["Sat Charn"; "Antonia"; "Mara"; "Doc"] ∧
  scenarioActors (solver (toggleAS "Mania" "Doc" (toggleAS "Mania" "Doc" DEFAULT_CONFIG))) =
    <[ "Mania" := without "Doc" ["Sat Charn"; "Doc"; "Antonia"; "Mara"] ++
                  (if bool_decide ("Doc" ∈ ["Sat Charn"; "Doc"; "Antonia"; "Mara"])
                   then ["Doc"] else []) ]>
      (scenarioActors (solver DEFAULT_CONFIG)) ∧
  without "Doc" ["Sat Charn"; "Doc"; "Antonia"; "Mara"] ++
    (if bool_decide ("Doc" ∈ ["Sat Charn"; "Doc"; "Antonia"; "Mara"])
     then ["Doc"] else []) ≡ₚ ["Sat Charn"; "Doc"; "Antonia"; "Mara"] ∧
  actors (solver (toggleAS "Mania" "Doc" (toggleAS "Mania" "Doc" DEFAULT_CONFIG))) =
    actors (solver DEFAULT_CONFIG) ∧
  slotScenarios (solver (toggleAS "Mania" "Doc" (toggleAS "Mania" "Doc" DEFAULT_CONFIG))) =
    slotScenarios (solver DEFAULT_CONFIG).
Proof.
  assert (scenarioActors (solver DEFAULT_CONFIG) !! "Mania" =
            Some ["Sat Charn"; "Doc"; "Antonia"; "Mara"]) as Hl
    by (vm_compute; reflexivity).
  assert (NoDup ["Sat Charn"; "Doc"; "Antonia"; "Mara"]) as Hnd
    by (by apply (bool_decide_unpack _)).
  split; [exact Hl|]. split; [exact Hnd|]. split; [vm_compute; reflexivity|].
  exact (toggleAS_twice DEFAULT_CONFIG "Mania" "Doc" _ Hl Hnd).
Defined.

